(** * Sliding unique window store: a verification development

    The program under study is a small Go HTTP service ([src/main.go], two
    near-identical variants of the same file).  Its core is [NumberStore]:
    a slice of [int] guarded by a [sync.RWMutex], with the three methods
    [AddNumbers], [GetAverage] and [GetCurrentState].

    Layout of the development:
    - [Go]: the meaning of the Go builtins the program relies on
      ([len], [make], [copy], [append], slicing, map indexing, wrapping
      [int] addition, [float64] conversion and division), and the data
      exchanged with the HTTP layer;
    - [Variant1], [Variant2]: the two variants, embedded on the contents
      of the slices (a slice is the list of its elements);
    - [SliceHeap]: [AddNumbers] once more, on slice headers and backing
      arrays, to settle what is shared and what is copied;
    - [Concurrent]: the methods cut into their statements and interleaved
      under the semantics of [sync.RWMutex];
    - [Spec], [Runs], [Sides]: the vocabulary of the specification, and
      what is needed to speak of runs of calls and of both variants;
    - [Among], [Server], [SliceHeapMore]: the handler among other
      requests and over a sequence of requests, and the remaining
      methods on slice headers;
    - [Aggregator], [AggregatorRuns]: the second service of the
      repository ([src/unnamed/part_000]), a cache of users, posts and
      comment counts refreshed from an upstream service;
    - the properties of the store, of the handlers and of the cache,
      proved on these definitions. *)

From Stdlib Require Import ZArith Lia.
From Stdlib.Floats Require Import SpecFloat.
From stdpp Require Import gmap list strings pretty sorting.

Local Open Scope Z_scope.

(** ** Go builtins *)

Module Go.

(** Go's [int] is 64 bits wide on the platforms the service targets;
    arithmetic on it wraps around silently. *)
Definition int_bits : Z := 64.
Definition int_min : Z := - 2 ^ (int_bits - 1).
Definition int_max : Z := 2 ^ (int_bits - 1) - 1.

Definition int_wrap (z : Z) : Z :=
  (z + 2 ^ (int_bits - 1)) mod 2 ^ int_bits - 2 ^ (int_bits - 1).

Definition int_add (a b : Z) : Z := int_wrap (a + b).

Definition is_int (z : Z) : Prop := int_min <= z <= int_max.

(** [len(s)], an [int]. *)
Definition len {A} (s : list A) : Z := Z.of_nat (length s).

(** [make([]int, n)]: [n] zeroes. *)
Definition make_ints (n : Z) : list Z := replicate (Z.to_nat n) 0.

(** [copy(dst, src)]: the first [min(len(dst), len(src))] elements of
    [dst] are overwritten by those of [src]; the value is the new
    contents of [dst]. *)
Definition copy_ints (dst src : list Z) : list Z :=
  let n := Nat.min (length dst) (length src) in
  take n src ++ drop n dst.

(** [append(s, x)], on contents. *)
Definition append_int (s : list Z) (x : Z) : list Z := s ++ [x].

(** [s[i:]] for [0 <= i <= len(s)]; outside that range Go panics,
    which is [None] here. *)
Definition slice_from {A} (s : list A) (i : Z) : option (list A) :=
  if (0 <=? i) && (i <=? len s) then Some (drop (Z.to_nat i) s) else None.

(** [m[k]] on a [map[int]bool]: a missing key reads as [false]. *)
Definition map_index (m : gmap Z bool) (k : Z) : bool :=
  default false (m !! k).

(** [float64]: IEEE 754 binary64, as specified by [SpecFloat]. *)
Definition float64 : Type := spec_float.
Definition prec : Z := 53.
Definition emax : Z := 1024.

(** [float64(n)] for an [int] [n]: the nearest double, ties to even. *)
Definition float64_of_int (n : Z) : float64 :=
  binary_normalize prec emax n 0 false.

(** [x / y] on [float64]. *)
Definition float64_div (x y : float64) : float64 := SFdiv prec emax x y.

(** The untyped constant [0] in a [float64] position. *)
Definition float64_zero : float64 := S754_zero false.

(** Strings are byte sequences: [len(s)], [s[:n]] and [s[n:]]. *)
Definition len_string (s : string) : Z := Z.of_nat (String.length s).
Definition str_to (s : string) (n : nat) : string := String.substring 0 n s.
Definition str_from (s : string) (n : nat) : string :=
  String.substring n (String.length s - n) s.

(** *** The HTTP boundary

    What the handler sees of an incoming request. *)
Record Request : Type := {
  hAuthorization : string;   (* c.GetHeader("Authorization"), "" if absent *)
  pNumberid : string         (* c.Param("numberid") *)
}.

(** One exchange with the upstream number service, as [net/http],
    [io] and [encoding/json] report it to [fetchNumbers]. *)
Record Exchange : Type := {
  newRequestErr : option string;   (* http.NewRequest failed *)
  doErr : option string;           (* client.Do failed (network, timeout) *)
  readErr : option string;         (* io.ReadAll failed *)
  statusCode : Z;                  (* resp.StatusCode *)
  respBody : string;               (* string(body) *)
  unmarshal : option (list Z) + string
    (* json.Unmarshal(body, &result): result.Numbers (nil or a slice),
       or the decoding error *)
}.

(** The upstream service: the exchange obtained for a URL and a token. *)
Definition Upstream : Type := string -> string -> Exchange.

Definition StatusOK : Z := 200.
Definition StatusBadRequest : Z := 400.
Definition StatusUnauthorized : Z := 401.
Definition StatusInternalServerError : Z := 500.

(** The values the handler serialises. *)
Inductive JSONValue : Type :=
| JString (s : string)
| JInts (l : list Z)
| JFloat (f : float64)
| JNil.

(** [type APIResponse struct]. *)
Record APIResponse : Type := {
  WindowPrevState : list Z;
  WindowCurrState : list Z;
  Numbers : list Z;
  Average : float64
}.

(** The second argument of [c.JSON]: a [gin.H] map or an [APIResponse]. *)
Inductive Payload : Type :=
| H (h : gmap string JSONValue)
| Obj (r : APIResponse).

(** [c.JSON(code, obj)]. *)
Record Response : Type := JSON { code : Z; payload : Payload }.

End Go.

(** ** Variant 1 ([src/main.go], first file) *)

Module Variant1.
Import Go.

Definition WindowSize : Z := 10.

(** [type NumberStore struct { numbers []int; mu sync.RWMutex }].  A
    sequential call takes and releases [mu] around its body; the lock
    itself is modelled in [Concurrent]. *)
Record NumberStore : Type := { numbers : list Z }.

(** [store := &NumberStore{}]: the zero value, a nil slice. *)
Definition empty_store : NumberStore := {| numbers := [] |}.

(** [for _, num := range ns.numbers { uniqueNumbers[num] = true }] *)
Definition mark_all (uniqueNumbers : gmap Z bool) (nums : list Z)
  : gmap Z bool :=
  foldl (fun m num => <[num := true]> m) uniqueNumbers nums.

(** The loop over [newNumbers]; its state is the pair of [ns.numbers]
    and [uniqueNumbers]. *)
Fixpoint add_unique (nums : list Z) (uniqueNumbers : gmap Z bool)
    (newNumbers : list Z) : list Z * gmap Z bool :=
  match newNumbers with
  | [] => (nums, uniqueNumbers)
  | num :: rest =>
      if negb (map_index uniqueNumbers num)
      then add_unique (append_int nums num) (<[num := true]> uniqueNumbers) rest
      else add_unique nums uniqueNumbers rest
  end.

(** [if len(ns.numbers) > WindowSize
      { ns.numbers = ns.numbers[len(ns.numbers)-WindowSize:] }] *)
Definition shrink (nums : list Z) : option (list Z) :=
  if WindowSize <? len nums
  then slice_from nums (len nums - WindowSize)
  else Some nums.

(** [AddNumbers]: the value returned and the store afterwards; [None]
    would be a run-time panic. *)
Definition AddNumbers (ns : NumberStore) (newNumbers : list Z)
  : option (list Z * NumberStore) :=
  let prevState := make_ints (len (numbers ns)) in
  let prevState := copy_ints prevState (numbers ns) in
  let uniqueNumbers := mark_all ∅ (numbers ns) in
  let '(nums, _) := add_unique (numbers ns) uniqueNumbers newNumbers in
  nums' ← shrink nums;
  Some (prevState, {| numbers := nums' |}).

(** [sum := 0; for _, num := range ns.numbers { sum += num }] *)
Definition sum_loop (sum : Z) (nums : list Z) : Z :=
  foldl (fun sum num => int_add sum num) sum nums.

Definition GetAverage (ns : NumberStore) : float64 :=
  if len (numbers ns) =? 0 then float64_zero
  else float64_div (float64_of_int (sum_loop 0 (numbers ns)))
                   (float64_of_int (len (numbers ns))).

Definition GetCurrentState (ns : NumberStore) : list Z :=
  let currentState := make_ints (len (numbers ns)) in
  copy_ints currentState (numbers ns).

(** *** The boundary: [fetchNumbers] and the request handler *)

Definition APITimeoutMs : Z := 500.
Definition NumberServiceURL : string := "http://20.244.56.144/test".

(** [fetchNumbers] returns [([]int, error)]: numbers, or an error with
    its message. *)
Definition fetchNumbers (up : Upstream) (numberType authToken : string)
  : list Z + string :=
  let url := NumberServiceURL +:+ "/" +:+ numberType in
  let x := up url authToken in
  match newRequestErr x with
  | Some err => inr ("failed to create request: " +:+ err)
  | None =>
  match doErr x with
  | Some err => inr ("failed to make request: " +:+ err)
  | None =>
  match readErr x with
  | Some err => inr ("failed to read response: " +:+ err)
  | None =>
  if negb (statusCode x =? StatusOK)
  then inr ("server responded with status " +:+ pretty (statusCode x)
            +:+ ": " +:+ respBody x)
  else
  match unmarshal x with
  | inr err => inr ("failed to parse response: " +:+ err)
  | inl resultNumbers =>
  match resultNumbers with
  | None => inr "no numbers received from server"
  | Some nums =>
      if len nums =? 0 then inr "no numbers received from server"
      else inl nums
  end end end end end.

Definition numberTypes : gmap string string :=
  <["r" := "rand"]> (<["e" := "even"]> (<["f" := "fibo"]>
    (<["p" := "primes"]> ∅))).

(** The handler of [GET /numbers/:numberid]: the response written and
    the store afterwards. *)
Definition handler (store : NumberStore) (rq : Request) (up : Upstream)
  : option (Response * NumberStore) :=
  let authHeader := hAuthorization rq in
  if String.eqb authHeader "" then
    Some (JSON StatusUnauthorized
            (H (<["error" := JString "Authorization header is required"]> ∅)),
          store)
  else if (len_string authHeader <=? 7)
          || negb (String.eqb (str_to authHeader 7) "Bearer ") then
    Some (JSON StatusUnauthorized
            (H (<["error" := JString
                 "Invalid authorization header format. Use 'Bearer <token>'"]> ∅)),
          store)
  else
  let authToken := str_from authHeader 7 in
  let numberID := pNumberid rq in
  match numberTypes !! numberID with
  | None =>
    Some (JSON StatusBadRequest
            (H (<["error" := JString
                 "Invalid number ID. Use 'p' for prime, 'f' for fibonacci, 'e' for even, or 'r' for random numbers"]> ∅)),
          store)
  | Some numberType =>
  match fetchNumbers up numberType authToken with
  | inr err =>
    Some (JSON StatusInternalServerError
            (H (<["avg" := JFloat (GetAverage store)]>
               (<["numbers" := JNil]>
               (<["windowCurrState" := JInts (GetCurrentState store)]>
               (<["windowPrevState" := JInts (GetCurrentState store)]>
               (<["error" := JString ("Failed to fetch numbers: " +:+ err)]>
                ∅)))))),
          store)
  | inl nums =>
    '(prevState, store') ← AddNumbers store nums;
    let currState := GetCurrentState store' in
    let avg := GetAverage store' in
    Some (JSON StatusOK
            (Obj {| WindowPrevState := prevState;
                    WindowCurrState := currState;
                    Numbers := nums;
                    Average := avg |}),
          store')
  end end.

End Variant1.

(** ** Variant 2 ([src/main.go], second file) *)

Module Variant2.
Import Go.

Definition WindowSize : Z := 10.

(** [type NumberStore struct { numbers []int; mu sync.RWMutex }]. *)
Record NumberStore : Type := { numbers : list Z }.

Definition empty_store : NumberStore := {| numbers := [] |}.

(** [for _, num := range ns.numbers { uniqueNumbers[num] = true }] *)
Definition mark_all (uniqueNumbers : gmap Z bool) (nums : list Z)
  : gmap Z bool :=
  foldl (fun m num => <[num := true]> m) uniqueNumbers nums.

Fixpoint add_unique (nums : list Z) (uniqueNumbers : gmap Z bool)
    (newNumbers : list Z) : list Z * gmap Z bool :=
  match newNumbers with
  | [] => (nums, uniqueNumbers)
  | num :: rest =>
      if negb (map_index uniqueNumbers num)
      then add_unique (append_int nums num) (<[num := true]> uniqueNumbers) rest
      else add_unique nums uniqueNumbers rest
  end.

(** [if len(ns.numbers) > WindowSize
      { ns.numbers = ns.numbers[len(ns.numbers)-WindowSize:] }] *)
Definition shrink (nums : list Z) : option (list Z) :=
  if WindowSize <? len nums
  then slice_from nums (len nums - WindowSize)
  else Some nums.

Definition AddNumbers (ns : NumberStore) (newNumbers : list Z)
  : option (list Z * NumberStore) :=
  let prevState := make_ints (len (numbers ns)) in
  let prevState := copy_ints prevState (numbers ns) in
  let uniqueNumbers := mark_all ∅ (numbers ns) in
  let '(nums, _) := add_unique (numbers ns) uniqueNumbers newNumbers in
  nums' ← shrink nums;
  Some (prevState, {| numbers := nums' |}).

(** [sum := 0; for _, num := range ns.numbers { sum += num }] *)
Definition sum_loop (sum : Z) (nums : list Z) : Z :=
  foldl (fun sum num => int_add sum num) sum nums.

Definition GetAverage (ns : NumberStore) : float64 :=
  if len (numbers ns) =? 0 then float64_zero
  else float64_div (float64_of_int (sum_loop 0 (numbers ns)))
                   (float64_of_int (len (numbers ns))).

Definition GetCurrentState (ns : NumberStore) : list Z :=
  let current := make_ints (len (numbers ns)) in
  copy_ints current (numbers ns).

(** *** The boundary *)

Definition APITimeoutMs : Z := 500.
Definition NumberServiceURL : string := "http://20.244.56.144/test".

Definition fetchNumbers (up : Upstream) (numberType authToken : string)
  : list Z + string :=
  let url := NumberServiceURL +:+ "/" +:+ numberType in
  let x := up url authToken in
  match newRequestErr x with
  | Some err => inr ("failed to create request: " +:+ err)
  | None =>
  match doErr x with
  | Some err => inr ("failed to execute request: " +:+ err)
  | None =>
  match readErr x with
  | Some err => inr ("failed to read response: " +:+ err)
  | None =>
  if negb (statusCode x =? StatusOK)
  then inr ("server responded with status " +:+ pretty (statusCode x)
            +:+ ": " +:+ respBody x)
  else
  match unmarshal x with
  | inr err => inr ("failed to parse response: " +:+ err)
  | inl resultNumbers =>
  match resultNumbers with
  | None => inr "no numbers received from server"
  | Some nums =>
      if len nums =? 0 then inr "no numbers received from server"
      else inl nums
  end end end end end.

Definition numberTypes : gmap string string :=
  <["r" := "rand"]> (<["e" := "even"]> (<["f" := "fibo"]>
    (<["p" := "primes"]> ∅))).

Definition handler (store : NumberStore) (rq : Request) (up : Upstream)
  : option (Response * NumberStore) :=
  let authHeader := hAuthorization rq in
  if String.eqb authHeader "" then
    Some (JSON StatusUnauthorized
            (H (<["error" := JString "Missing authorization header"]> ∅)),
          store)
  else if (len_string authHeader <=? 7)
          || negb (String.eqb (str_to authHeader 7) "Bearer ") then
    Some (JSON StatusUnauthorized
            (H (<["error" := JString
                 "Invalid authorization header format. Use 'Bearer <token>'"]> ∅)),
          store)
  else
  let authToken := str_from authHeader 7 in
  let numberID := pNumberid rq in
  match numberTypes !! numberID with
  | None =>
    Some (JSON StatusBadRequest
            (H (<["error" := JString
                 "Invalid number type"]> ∅)),
          store)
  | Some numberType =>
  match fetchNumbers up numberType authToken with
  | inr err =>
    Some (JSON StatusInternalServerError
            (H (<["error" := JString err]> ∅)),
          store)
  | inl nums =>
    '(prevState, store') ← AddNumbers store nums;
    let currState := GetCurrentState store' in
    let avg := GetAverage store' in
    Some (JSON StatusOK
            (Obj {| WindowPrevState := prevState;
                    WindowCurrState := currState;
                    Numbers := nums;
                    Average := avg |}),
          store')
  end end.

End Variant2.

(** ** [AddNumbers] on slice headers and backing arrays

  A Go slice is a header (pointer, length, capacity) onto a backing
  array; [append] writes into the spare capacity of that array when
  there is some and moves to a larger, new array otherwise; [s[i:]]
  makes a header onto the same array.  Here the arrays live in a heap
  and [AddNumbers] is read once more, statement by statement, on
  headers. *)

Module SliceHeap.
Import Go.
Local Open Scope nat_scope.

(** A slice header.  [off] locates the first element inside the
    array allocated at [ptr]. *)
Record slice : Type := Slice { ptr : nat; off : nat; slen : nat; scap : nat }.

(** The arrays allocated so far, by address; none is ever freed.
    Address 0 is the nil pointer. *)
Abbreviation heap := (list (list Z)).

Definition empty_heap : heap := [[]].

(** The nil slice, the zero value of [[]int]. *)
Definition nil_slice : slice := Slice 0 0 0 0.

(** Computations on the heap; [None] is a run-time panic. *)
Definition M (A : Type) : Type := heap -> option (A * heap).

Definition ret {A} (a : A) : M A := λ h, Some (a, h).

Definition bind {A B} (c : M A) (k : A -> M B) : M B :=
  λ h, match c h with
       | Some (a, h') => k a h'
       | None => None
       end.

Definition panic {A} : M A := λ _, None.

Notation "'do' x ← c ; k" := (bind c (λ x, k))
  (at level 10, x name, c at level 100, k at level 200).
Notation "'do' ' p ← c ; k" := (bind c (λ x, let 'p := x in k))
  (at level 10, p pattern, c at level 100, k at level 200).

(** The elements a header gives access to. *)
Definition window (arr : list Z) (s : slice) : list Z :=
  take (slen s) (drop (off s) arr).

(** [make([]int, n)]: a new array of [n] zeroes. *)
Definition make (n : nat) : M slice :=
  λ h, Some (Slice (length h) 0 n n, h ++ [replicate n 0%Z]).

(** [s[i]], read. *)
Definition index (s : slice) (i : nat) : M Z :=
  λ h, if decide (i < slen s)
       then arr ← h !! ptr s; v ← arr !! (off s + i); Some (v, h)
       else None.

(** [copy(dst, src)]: as [memmove], the source is read before the
    destination is written; the value is the number of elements
    copied. *)
Definition copy (dst src : slice) : M nat :=
  λ h, let n := Nat.min (slen dst) (slen src) in
       from ← h !! ptr src;
       let vals := take n (window from src) in
       to ← h !! ptr dst;
       let to' := take (off dst) to ++ vals ++ drop (off dst + n) to in
       Some (n, <[ptr dst := to']> h).

(** [append(s, x)].  [grow c] is the capacity the runtime picks for
    the new array when a slice of capacity [c] is full (it doubles
    small capacities and rounds up to a size class); [append] sees to
    it that the new array has room for the element appended. *)
Definition append (grow : nat -> nat) (s : slice) (x : Z) : M slice :=
  λ h, if decide (slen s < scap s)
       then arr ← h !! ptr s;
            Some (Slice (ptr s) (off s) (S (slen s)) (scap s),
                  <[ptr s := <[off s + slen s := x]> arr]> h)
       else arr ← h !! ptr s;
            let c := Nat.max (grow (scap s)) (S (slen s)) in
            Some (Slice (length h) 0 (S (slen s)) c,
                  h ++ [window arr s ++ [x] ++ replicate (c - S (slen s)) 0%Z]).

(** [s[i:]]; panics unless [i <= len(s)]. *)
Definition slice_from (s : slice) (i : nat) : M slice :=
  if decide (i <= slen s)
  then ret (Slice (ptr s) (off s + i) (slen s - i) (scap s - i))
  else panic.

(** The store: its field [numbers] is a header. *)
Record NumberStore : Type := { numbers : slice }.

Definition empty_store : NumberStore := {| numbers := nil_slice |}.

(** [for _, num := range s { uniqueNumbers[num] = true }], from index
    [i], for [n] more rounds. *)
Fixpoint range_mark (s : slice) (i n : nat) (uniqueNumbers : gmap Z bool)
  : M (gmap Z bool) :=
  match n with
  | 0 => ret uniqueNumbers
  | S n' =>
      do num ← index s i;
      range_mark s (S i) n' (<[num := true]> uniqueNumbers)
  end.

(** The loop over [newNumbers], from index [i], for [n] more rounds;
    [nums] is [ns.numbers]. *)
Fixpoint range_add (grow : nat -> nat) (newNumbers : slice) (i n : nat)
    (nums : slice) (uniqueNumbers : gmap Z bool) : M (slice * gmap Z bool) :=
  match n with
  | 0 => ret (nums, uniqueNumbers)
  | S n' =>
      do num ← index newNumbers i;
      if negb (map_index uniqueNumbers num)
      then do nums' ← append grow nums num;
           range_add grow newNumbers (S i) n' nums'
             (<[num := true]> uniqueNumbers)
      else range_add grow newNumbers (S i) n' nums uniqueNumbers
  end.

Definition WindowSize : nat := 10.

Definition AddNumbers (grow : nat -> nat)
    (ns : NumberStore) (newNumbers : slice) : M (slice * NumberStore) :=
  do prevState ← make (slen (numbers ns));
  do _ ← copy prevState (numbers ns);
  do uniqueNumbers ← range_mark (numbers ns) 0 (slen (numbers ns)) ∅;
  do '(nums, _) ← range_add grow newNumbers 0 (slen newNumbers)
                    (numbers ns) uniqueNumbers;
  do nums' ← (if decide (WindowSize < slen nums)
              then slice_from nums (slen nums - WindowSize)
              else ret nums);
  ret (prevState, {| numbers := nums' |}).

(** The header [s] is well formed in [h] and gives access to the
    elements [l]. *)
Definition holds (h : heap) (s : slice) (l : list Z) : Prop :=
  ∃ arr, h !! ptr s = Some arr
         ∧ off s + scap s <= length arr
         ∧ slen s <= scap s
         ∧ window arr s = l.

(** From [h] to [h'] no array is lost, and no array of [h] other than
    the one at [a] has changed. *)
Definition frame (a : nat) (h h' : heap) : Prop :=
  length h <= length h'
  ∧ ∀ b, b < length h -> b ≠ a -> h' !! b = h !! b.

(** A sample: a window of three values in an array of four, and a
    batch in an array of its own. *)
Definition heap0 : heap := [[]; [4; 7; 9; 0]; [7; 2]]%Z.
Definition store0 : NumberStore := {| numbers := Slice 1 0 3 4 |}.
Definition batch0 : slice := Slice 2 0 2 2.

End SliceHeap.

(** ** The store under concurrent callers

    Every request is served by its own goroutine, and all of them call
    the methods of the one store.  Here each method is cut into its
    statements; a scheduler picks, step after step, the goroutine that
    runs its next statement.  [ns.mu] is a [sync.RWMutex]: [Lock] waits
    until no goroutine holds the mutex in either mode, [RLock] waits
    until no goroutine holds it for writing. *)

Module Concurrent.
Import Go.

Inductive call : Type :=
| CallAddNumbers (newNumbers : list Z)
| CallGetAverage
| CallGetCurrentState.

Inductive result : Type :=
| RetInts (l : list Z)
| RetFloat (f : float64).

(** Where a goroutine stands in the method it runs, with its local
    variables.  The name of a point is the statement it runs next. *)
Inductive thread : Type :=
(* AddNumbers(newNumbers) *)
| A_Lock (newNumbers : list Z)
    (* ns.mu.Lock(); defer ns.mu.Unlock() *)
| A_Snapshot (newNumbers : list Z)
    (* prevState := make([]int, len(ns.numbers)); copy(prevState, ns.numbers) *)
| A_Range (newNumbers prevState : list Z)
    (* uniqueNumbers := make(map[int]bool); for ... range ns.numbers *)
| A_Mark (newNumbers prevState : list Z) (n i : nat)
         (uniqueNumbers : gmap Z bool)
    (* round i of n: uniqueNumbers[ns.numbers[i]] = true *)
| A_Add (newNumbers prevState : list Z) (uniqueNumbers : gmap Z bool)
        (rest : list Z)
    (* next round of the loop over newNumbers, rest still to come *)
| A_Shrink (newNumbers prevState : list Z)
    (* if len(ns.numbers) > WindowSize { ns.numbers = ns.numbers[...:] } *)
| A_Unlock (newNumbers prevState : list Z)
    (* return prevState, running the deferred ns.mu.Unlock() *)
(* GetAverage() *)
| G_RLock
| G_Len
    (* if len(ns.numbers) == 0 { return 0 }; sum := 0; for ... range ns.numbers *)
| G_Sum (n i : nat) (sum : Z)
    (* round i of n: sum += ns.numbers[i] *)
| G_Div (sum : Z)
    (* return float64(sum) / float64(len(ns.numbers)) *)
| G_RUnlock (r : float64)
(* GetCurrentState() *)
| S_RLock
| S_Copy
    (* currentState := make([]int, len(ns.numbers)); copy(currentState, ns.numbers) *)
| S_RUnlock (currentState : list Z)
(* the call has returned *)
| Done (c : call) (r : result).

(** A goroutine about to make a call. *)
Definition spawn (c : call) : thread :=
  match c with
  | CallAddNumbers newNumbers => A_Lock newNumbers
  | CallGetAverage => G_RLock
  | CallGetCurrentState => S_RLock
  end.

(** [sync.RWMutex]: held for writing or not, and the number of
    goroutines that hold it for reading. *)
Record RWMutex : Type := { writer : bool; readers : nat }.

(** The store, the goroutines, and, for the record only (no step reads
    it), the calls of [AddNumbers] in the order in which they took the
    lock, each with the index of its goroutine. *)
Record config : Type := {
  numbers : list Z;
  mu : RWMutex;
  threads : list thread;
  log : list (nat * list Z)
}.

(** Goroutine [i] moves to [t], leaving the store with [nums] and [m]. *)
Definition move (c : config) (i : nat) (t : thread)
    (nums : list Z) (m : RWMutex) : config :=
  {| numbers := nums; mu := m; threads := <[i := t]> (threads c);
     log := log c |}.

Definition stay (c : config) (i : nat) (t : thread) : config :=
  move c i t (numbers c) (mu c).

(** The next statement of goroutine [i]; [None] when it is blocked on
    the mutex, has returned, would panic, or does not exist. *)
Definition step (c : config) (i : nat) : option config :=
  t ← threads c !! i;
  match t with
  | A_Lock b =>
      if negb (writer (mu c)) && bool_decide (readers (mu c) = 0%nat)
      then Some {| numbers := numbers c;
                   mu := {| writer := true; readers := readers (mu c) |};
                   threads := <[i := A_Snapshot b]> (threads c);
                   log := log c ++ [(i, b)] |}
      else None
  | A_Snapshot b =>
      let prevState := make_ints (len (numbers c)) in
      let prevState := copy_ints prevState (numbers c) in
      Some (stay c i (A_Range b prevState))
  | A_Range b prevState =>
      Some (stay c i (A_Mark b prevState (length (numbers c)) 0 ∅))
  | A_Mark b prevState n i' uniqueNumbers =>
      if bool_decide (i' < n)%nat
      then num ← numbers c !! i';
           Some (stay c i (A_Mark b prevState n (S i')
                             (<[num := true]> uniqueNumbers)))
      else Some (stay c i (A_Add b prevState uniqueNumbers b))
  | A_Add b prevState uniqueNumbers rest =>
      match rest with
      | [] => Some (stay c i (A_Shrink b prevState))
      | num :: rest' =>
          if negb (map_index uniqueNumbers num)
          then Some (move c i (A_Add b prevState
                                 (<[num := true]> uniqueNumbers) rest')
                       (append_int (numbers c) num) (mu c))
          else Some (stay c i (A_Add b prevState uniqueNumbers rest'))
      end
  | A_Shrink b prevState =>
      nums ← Variant1.shrink (numbers c);
      Some (move c i (A_Unlock b prevState) nums (mu c))
  | A_Unlock b prevState =>
      if writer (mu c)
      then Some (move c i (Done (CallAddNumbers b) (RetInts prevState))
                   (numbers c)
                   {| writer := false; readers := readers (mu c) |})
      else None
  | G_RLock =>
      if negb (writer (mu c))
      then Some (move c i G_Len (numbers c)
                   {| writer := false; readers := S (readers (mu c)) |})
      else None
  | G_Len =>
      if len (numbers c) =? 0
      then Some (stay c i (G_RUnlock float64_zero))
      else Some (stay c i (G_Sum (length (numbers c)) 0 0))
  | G_Sum n i' sum =>
      if bool_decide (i' < n)%nat
      then num ← numbers c !! i';
           Some (stay c i (G_Sum n (S i') (int_add sum num)))
      else Some (stay c i (G_Div sum))
  | G_Div sum =>
      Some (stay c i (G_RUnlock
                        (float64_div (float64_of_int sum)
                           (float64_of_int (len (numbers c))))))
  | G_RUnlock r =>
      match readers (mu c) with
      | O => None
      | S k => Some (move c i (Done CallGetAverage (RetFloat r)) (numbers c)
                       {| writer := writer (mu c); readers := k |})
      end
  | S_RLock =>
      if negb (writer (mu c))
      then Some (move c i S_Copy (numbers c)
                   {| writer := false; readers := S (readers (mu c)) |})
      else None
  | S_Copy =>
      let currentState := make_ints (len (numbers c)) in
      let currentState := copy_ints currentState (numbers c) in
      Some (stay c i (S_RUnlock currentState))
  | S_RUnlock currentState =>
      match readers (mu c) with
      | O => None
      | S k => Some (move c i (Done CallGetCurrentState (RetInts currentState))
                       (numbers c)
                       {| writer := writer (mu c); readers := k |})
      end
  | Done _ _ => None
  end.

(** A schedule names the goroutine to run at each step; naming one
    that cannot move passes the turn. *)
Definition turn (c : config) (i : nat) : config :=
  default c (step c i).

Definition run (c : config) (schedule : list nat) : config :=
  foldl turn c schedule.

(** One goroutine per call, an empty window, a free mutex. *)
Definition start (calls : list call) : config :=
  {| numbers := []; mu := {| writer := false; readers := 0 |};
     threads := spawn <$> calls; log := [] |}.

(** Between [Lock] and [Unlock]. *)
Definition in_write (t : thread) : bool :=
  match t with
  | A_Snapshot _ | A_Range _ _ | A_Mark _ _ _ _ _ | A_Add _ _ _ _
  | A_Shrink _ _ | A_Unlock _ _ => true
  | _ => false
  end.

(** Between [RLock] and [RUnlock]. *)
Definition in_read (t : thread) : bool :=
  match t with
  | G_Len | G_Sum _ _ _ | G_Div _ | G_RUnlock _ | S_Copy | S_RUnlock _ => true
  | _ => false
  end.

Definition finished (t : thread) : bool :=
  match t with Done _ _ => true | _ => false end.

(** The batch of a call of [AddNumbers] that has taken the lock. *)
Definition locked (t : thread) : option (list Z) :=
  match t with
  | A_Snapshot b | A_Range b _ | A_Mark b _ _ _ _ | A_Add b _ _ _
  | A_Shrink b _ | A_Unlock b _ | Done (CallAddNumbers b) _ => Some b
  | _ => None
  end.


(** The window after one call of [AddNumbers], run alone. *)
Definition merged (window newNumbers : list Z) : list Z :=
  match Variant1.AddNumbers {| Variant1.numbers := window |} newNumbers with
  | Some (_, ns) => Variant1.numbers ns
  | None => window
  end.

(** The window after the calls of a log, run alone one after the other
    on the empty store. *)
Definition replay (lg : list (nat * list Z)) : list Z :=
  foldl merged [] lg.*2.

(** The number of goroutines that satisfy [f]. *)
Definition count (f : thread -> bool) (ts : list thread) : nat :=
  length (List.filter f ts).

(** What goroutine [i], standing at [t], knows of the store: the
    window [nums], whether the mutex is held for writing, and the log. *)
Definition local_ok (nums : list Z) (held : bool) (lg : list (nat * list Z))
    (i : nat) (t : thread) : Prop :=
  match t with
  | A_Lock _ | G_RLock | S_RLock => True
  | A_Snapshot b =>
      held = true ∧ ∃ lg', lg = lg' ++ [(i, b)] ∧ nums = replay lg'
  | A_Range b prev =>
      held = true
      ∧ ∃ lg', lg = lg' ++ [(i, b)] ∧ nums = replay lg' ∧ prev = nums
  | A_Mark b prev n k m =>
      held = true
      ∧ ∃ lg', lg = lg' ++ [(i, b)] ∧ nums = replay lg' ∧ prev = nums
               ∧ n = length nums ∧ (k <= n)%nat
               ∧ m = Variant1.mark_all ∅ (take k nums)
  | A_Add b prev m rest =>
      held = true
      ∧ ∃ lg' seen, lg = lg' ++ [(i, b)] ∧ prev = replay lg'
                    ∧ b = seen ++ rest
                    ∧ Variant1.add_unique prev (Variant1.mark_all ∅ prev) seen
                      = (nums, m)
  | A_Shrink b prev =>
      held = true
      ∧ ∃ lg', lg = lg' ++ [(i, b)] ∧ prev = replay lg'
               ∧ (Variant1.add_unique prev (Variant1.mark_all ∅ prev) b).1
                 = nums
  | A_Unlock b prev =>
      held = true
      ∧ ∃ lg', lg = lg' ++ [(i, b)] ∧ prev = replay lg' ∧ nums = replay lg
  | G_Len | S_Copy => held = false
  | G_Sum n k sum =>
      held = false ∧ n = length nums ∧ (k <= n)%nat ∧ nums ≠ []
      ∧ sum = Variant1.sum_loop 0 (take k nums)
  | G_Div sum =>
      held = false ∧ nums ≠ [] ∧ sum = Variant1.sum_loop 0 nums
  | G_RUnlock r =>
      held = false ∧ r = Variant1.GetAverage {| Variant1.numbers := nums |}
  | S_RUnlock cur => held = false ∧ cur = nums
  | Done (CallAddNumbers b) (RetInts prev) =>
      ∃ k, lg !! k = Some (i, b) ∧ prev = replay (take k lg)
  | Done CallGetAverage (RetFloat r) =>
      ∃ k, (k <= length lg)%nat
           ∧ r = Variant1.GetAverage {| Variant1.numbers := replay (take k lg) |}
  | Done CallGetCurrentState (RetInts cur) =>
      ∃ k, (k <= length lg)%nat ∧ cur = replay (take k lg)
  | Done _ _ => False
  end.

(** What holds of every configuration a schedule can lead to. *)
Record Inv (c : config) : Prop := {
  inv_free : writer (mu c) = false -> numbers c = replay (log c);
  inv_readers : readers (mu c) = count in_read (threads c);
  inv_one : ∀ i j ti tj,
    threads c !! i = Some ti -> threads c !! j = Some tj ->
    in_write ti = true -> in_write tj = true -> i = j;
  inv_some : writer (mu c) = true ->
    ∃ i t, threads c !! i = Some t ∧ in_write t = true;
  inv_nodup : NoDup (log c).*1;
  inv_log : ∀ i b,
    (i, b) ∈ log c ↔ ∃ t, threads c !! i = Some t ∧ locked t = Some b;
  inv_local : ∀ i t,
    threads c !! i = Some t ->
    local_ok (numbers c) (writer (mu c)) (log c) i t
}.

(** A sample: two merges and a read, and two schedules for them. *)
Definition calls0 : list call :=
  [CallAddNumbers [4; 7; 7; 9]; CallGetAverage; CallAddNumbers [7; 2]].


Definition schedule1 : list nat :=
  mjoin (replicate 20 [2; 1; 0; 0; 1]%nat).

End Concurrent.

(** ** The contract in the words of the specification *)

Module Spec.

(** The values of a batch that a merge accepts, in order: a value is
    taken when it is neither in the window nor taken earlier in the
    same batch. *)
Fixpoint accepted (window batch : list Z) : list Z :=
  match batch with
  | [] => []
  | x :: rest =>
      if bool_decide (x ∈ window) then accepted window rest
      else x :: accepted (window ++ [x]) rest
  end.

(** The last [n] elements of a sequence, in their order. *)
Definition last_n (n : nat) (l : list Z) : list Z := drop (length l - n) l.

(** The sum of a sequence of integers, without any bound. *)
Definition total (l : list Z) : Z := foldr Z.add 0 l.


End Spec.

(** ** Runs of calls, and what the loops maintain *)

Module Runs.
Import Variant1.

(** A client that calls [AddNumbers] once per batch, in order; the
    value is the store after each call. *)
Fixpoint merges (ns : NumberStore) (batches : list (list Z))
  : option (list NumberStore) :=
  match batches with
  | [] => Some []
  | b :: rest =>
      '(_, ns') ← AddNumbers ns b;
      trace ← merges ns' rest;
      Some (ns' :: trace)
  end.

(** The contents of [ns.numbers] when the loop over [newNumbers] is
    left, before the window is cut to size. *)
Definition appended (ns : NumberStore) (newNumbers : list Z) : list Z :=
  (add_unique (numbers ns) (mark_all ∅ (numbers ns)) newNumbers).1.

(** [uniqueNumbers] holds exactly the values of [nums]. *)
Definition tracks (uniqueNumbers : gmap Z bool) (nums : list Z) : Prop :=
  ∀ k, Go.map_index uniqueNumbers k = true ↔ k ∈ nums.

End Runs.

(** ** The two variants side by side *)

Module Sides.
Import Go.

(** The store of variant 2 with the contents of a store of variant 1. *)
Definition store12 (ns : Variant1.NumberStore) : Variant2.NumberStore :=
  {| Variant2.numbers := Variant1.numbers ns |}.

Definition store21 (ns : Variant2.NumberStore) : Variant1.NumberStore :=
  {| Variant1.numbers := Variant2.numbers ns |}.

(** What a client observes of a call of [AddNumbers]: the slice
    returned and the contents of the store afterwards. *)
Definition observe1 (r : option (list Z * Variant1.NumberStore))
  : option (list Z * list Z) :=
  prod_map id Variant1.numbers <$> r.

Definition observe2 (r : option (list Z * Variant2.NumberStore))
  : option (list Z * list Z) :=
  prod_map id Variant2.numbers <$> r.

(** The upstream failed, in the words of the specification: a network
    error (the request could not be built, sent or read), a status
    other than 200, a payload that does not decode, or no numbers. *)
Definition upstream_failed (x : Exchange) : Prop :=
  is_Some (newRequestErr x) ∨ is_Some (doErr x) ∨ is_Some (readErr x)
  ∨ statusCode x ≠ StatusOK
  ∨ (∃ err, unmarshal x = inr err)
  ∨ unmarshal x = inl None
  ∨ unmarshal x = inl (Some []).

(** The response reports [window] as previous and as current state,
    [avg] as average, and an error. *)
Definition reports_unchanged (r : Response) (window : list Z) (avg : float64)
  : Prop :=
  ∃ h, payload r = H h
       ∧ h !! "windowPrevState" = Some (JInts window)
       ∧ h !! "windowCurrState" = Some (JInts window)
       ∧ h !! "avg" = Some (JFloat avg)
       ∧ is_Some (h !! "error").

(** A request that passes the checks made before the fetch, for the
    number type [numberType] and the token [authToken]. *)
Definition admitted (rq : Request) (numberType authToken : string) : Prop :=
  hAuthorization rq ≠ ""
  ∧ 7 < len_string (hAuthorization rq)
  ∧ str_to (hAuthorization rq) 7 = "Bearer "
  ∧ authToken = str_from (hAuthorization rq) 7
  ∧ Variant1.numberTypes !! pNumberid rq = Some numberType.

(** A failing upstream and a request on which to try the handlers. *)
Definition timed_out : Upstream := λ _ _,
  {| newRequestErr := None; doErr := Some "timeout"; readErr := None;
     statusCode := 0; respBody := ""; unmarshal := inl None |}.

Definition even_request : Request :=
  {| hAuthorization := "Bearer t"; pNumberid := "e" |}.

End Sides.

(** ** A handler among other requests

    The store is shared by all requests, which are served concurrently,
    and a handler takes the lock of the store anew for each method it
    calls.  Each method holds the lock for its whole body (see
    [Concurrent]), so what the other requests do to the store between
    two calls of one handler comes to a series of merges; their reads
    change nothing. *)

Module Among.
Import Go.

(** The store after other requests have merged [batches], in the order
    in which they took the lock. *)
Fixpoint others (store : Variant1.NumberStore) (batches : list (list Z))
  : option Variant1.NumberStore :=
  match batches with
  | [] => Some store
  | b :: rest =>
      '(_, store') ← Variant1.AddNumbers store b;
      others store' rest
  end.

Fixpoint others2 (store : Variant2.NumberStore) (batches : list (list Z))
  : option Variant2.NumberStore :=
  match batches with
  | [] => Some store
  | b :: rest =>
      '(_, store') ← Variant2.AddNumbers store b;
      others2 store' rest
  end.

(** The handler of variant 1, statement by statement as
    [Variant1.handler], with the merges of other requests that fall
    between its calls on the store: [gap1] between the first call and
    the second, [gap2] between the second and the third.  [store] is
    the store at the first call, the store returned is the store at the
    third.  In the error branch the calls are those of the map literal,
    in the order they are written. *)
Definition handler_among (store : Variant1.NumberStore) (rq : Request)
    (up : Upstream) (gap1 gap2 : list (list Z))
  : option (Response * Variant1.NumberStore) :=
  let authHeader := hAuthorization rq in
  if String.eqb authHeader "" then
    Some (JSON StatusUnauthorized
            (H (<["error" := JString "Authorization header is required"]> ∅)),
          store)
  else if (len_string authHeader <=? 7)
          || negb (String.eqb (str_to authHeader 7) "Bearer ") then
    Some (JSON StatusUnauthorized
            (H (<["error" := JString
                 "Invalid authorization header format. Use 'Bearer <token>'"]> ∅)),
          store)
  else
  let authToken := str_from authHeader 7 in
  let numberID := pNumberid rq in
  match Variant1.numberTypes !! numberID with
  | None =>
    Some (JSON StatusBadRequest
            (H (<["error" := JString
                 "Invalid number ID. Use 'p' for prime, 'f' for fibonacci, 'e' for even, or 'r' for random numbers"]> ∅)),
          store)
  | Some numberType =>
  match Variant1.fetchNumbers up numberType authToken with
  | inr err =>
    let windowPrevState := Variant1.GetCurrentState store in
    store ← others store gap1;
    let windowCurrState := Variant1.GetCurrentState store in
    store ← others store gap2;
    let avg := Variant1.GetAverage store in
    Some (JSON StatusInternalServerError
            (H (<["avg" := JFloat avg]>
               (<["numbers" := JNil]>
               (<["windowCurrState" := JInts windowCurrState]>
               (<["windowPrevState" := JInts windowPrevState]>
               (<["error" := JString ("Failed to fetch numbers: " +:+ err)]>
                ∅)))))),
          store)
  | inl nums =>
    '(prevState, store) ← Variant1.AddNumbers store nums;
    store ← others store gap1;
    let currState := Variant1.GetCurrentState store in
    store ← others store gap2;
    let avg := Variant1.GetAverage store in
    Some (JSON StatusOK
            (Obj {| WindowPrevState := prevState;
                    WindowCurrState := currState;
                    Numbers := nums;
                    Average := avg |}),
          store)
  end end.

(** The same for variant 2, whose error branch makes no call on the
    store. *)
Definition handler_among2 (store : Variant2.NumberStore) (rq : Request)
    (up : Upstream) (gap1 gap2 : list (list Z))
  : option (Response * Variant2.NumberStore) :=
  let authHeader := hAuthorization rq in
  if String.eqb authHeader "" then
    Some (JSON StatusUnauthorized
            (H (<["error" := JString "Missing authorization header"]> ∅)),
          store)
  else if (len_string authHeader <=? 7)
          || negb (String.eqb (str_to authHeader 7) "Bearer ") then
    Some (JSON StatusUnauthorized
            (H (<["error" := JString
                 "Invalid authorization header format. Use 'Bearer <token>'"]> ∅)),
          store)
  else
  let authToken := str_from authHeader 7 in
  let numberID := pNumberid rq in
  match Variant2.numberTypes !! numberID with
  | None =>
    Some (JSON StatusBadRequest
            (H (<["error" := JString
                 "Invalid number type"]> ∅)),
          store)
  | Some numberType =>
  match Variant2.fetchNumbers up numberType authToken with
  | inr err =>
    Some (JSON StatusInternalServerError
            (H (<["error" := JString err]> ∅)),
          store)
  | inl nums =>
    '(prevState, store) ← Variant2.AddNumbers store nums;
    store ← others2 store gap1;
    let currState := Variant2.GetCurrentState store in
    store ← others2 store gap2;
    let avg := Variant2.GetAverage store in
    Some (JSON StatusOK
            (Obj {| WindowPrevState := prevState;
                    WindowCurrState := currState;
                    Numbers := nums;
                    Average := avg |}),
          store)
  end end.

End Among.

(** ** The server as a sequence of requests *)

Module Server.
Import Go.

(** The URL [fetchNumbers] asks for a number type. *)
Definition url (numberType : string) : string :=
  Variant1.NumberServiceURL +:+ "/" +:+ numberType.

(** Every stage of an exchange went well and gave the numbers [nums]. *)
Definition fetch_ok (x : Exchange) (nums : list Z) : Prop :=
  newRequestErr x = None ∧ doErr x = None ∧ readErr x = None
  ∧ statusCode x = StatusOK
  ∧ unmarshal x = inl (Some nums)
  ∧ nums ≠ [].

(** The requests of [rqs] handled one after the other by variant 1,
    each with the upstream as it answers at that moment; the value is
    the responses and the store at the end. *)
Fixpoint serve (store : Variant1.NumberStore) (rqs : list (Request * Upstream))
  : option (list Response * Variant1.NumberStore) :=
  match rqs with
  | [] => Some ([], store)
  | (rq, up) :: rest =>
      '(r, store') ← Variant1.handler store rq up;
      '(rs, store'') ← serve store' rest;
      Some (r :: rs, store'')
  end.

(** The same for variant 2. *)
Fixpoint serve2 (store : Variant2.NumberStore) (rqs : list (Request * Upstream))
  : option (list Response * Variant2.NumberStore) :=
  match rqs with
  | [] => Some ([], store)
  | (rq, up) :: rest =>
      '(r, store') ← Variant2.handler store rq up;
      '(rs, store'') ← serve2 store' rest;
      Some (r :: rs, store'')
  end.

(** The header carries no usable bearer token: it is absent, too short
    to hold one, or does not start with ["Bearer "]. *)
Definition bad_authorization (rq : Request) : Prop :=
  hAuthorization rq = ""
  ∨ len_string (hAuthorization rq) <= 7
  ∨ str_to (hAuthorization rq) 7 ≠ "Bearer ".

End Server.

(** ** More of the store on slice headers and backing arrays *)

Module SliceHeapMore.
Import Go SliceHeap.
Local Open Scope nat_scope.

(** [s[i] = v]; panics unless [i < len(s)]. *)
Definition assign (s : slice) (i : nat) (v : Z) : M unit :=
  λ h, if decide (i < slen s)
       then arr ← h !! ptr s;
            Some (tt, <[ptr s := <[off s + i := v]> arr]> h)
       else None.

(** A slice a caller comes with, in an array of its own, as
    [json.Unmarshal] makes the one the handler passes to [AddNumbers]. *)
Definition alloc (l : list Z) : M slice :=
  λ h, Some (Slice (length h) 0 (length l) (length l), h ++ [l]).

(** [GetCurrentState], on headers. *)
Definition GetCurrentState (ns : NumberStore) : M slice :=
  do currentState ← make (slen (numbers ns));
  do _ ← copy currentState (numbers ns);
  ret currentState.

(** [AddNumbers] called once per batch, each batch in a new array; the
    value is the store at the end. *)
Fixpoint merges (grow : nat -> nat) (ns : NumberStore)
    (batches : list (list Z)) : M NumberStore :=
  match batches with
  | [] => ret ns
  | b :: rest =>
      do newNumbers ← alloc b;
      do '(_, ns') ← AddNumbers grow ns newNumbers;
      merges grow ns' rest
  end.

(** The window left by merging the batches of a list, one after the
    other, on lists. *)
Definition window_after (w : list Z) (batches : list (list Z)) : list Z :=
  foldl (λ w b,
           match Variant1.AddNumbers {| Variant1.numbers := w |} b with
           | Some (_, ns) => Variant1.numbers ns
           | None => w
           end) w batches.

End SliceHeapMore.

(** ** The aggregation service ([src/unnamed/part_000])

    A second program of the repository: a cache of users, posts and
    comment counts, refreshed from an upstream service, and two handlers
    ([/users], [/posts]) that answer from it. *)

Module Aggregator.
Import Go.

(** [type Post struct], [type Comment struct], [type UserPostCount struct]. *)
Record Post : Type := { ID : Z; UserID : Z; Content : string }.
Record Comment : Type := { cID : Z; PostID : Z; cContent : string }.
Record UserPostCount : Type := { uUserID : string; Name : string; Count : Z }.

(** [type Cache struct]; the mutex embedded in it is left out, each
    function below runs alone.  Instants and durations are integers
    (nanoseconds). *)
Record Cache : Type := {
  users : gmap string string;
  userPostCounts : gmap string Z;
  posts : list Post;
  postComments : gmap Z Z;
  lastUpdated : Z;
  updateInterval : Z
}.

(** [var cache = &Cache{...}]: empty maps, no posts, the zero instant,
    thirty seconds. *)
Definition cache0 : Cache :=
  {| users := ∅; userPostCounts := ∅; posts := []; postComments := ∅;
     lastUpdated := 0; updateInterval := 30 * 1000000000 |}.

(** What lies outside the program at the time of one call: the clock,
    the upstream service, the order in which [range] visits each map
    (Go leaves it open) and what [sort.Slice] makes of a slice and a
    less function (it is not stable, so elements that compare equal may
    come in any order).  The less function of the source takes two
    indices and compares the elements found there; here it takes the
    two elements.
    A decoded body is the map from its top-level keys; [None] is an
    error of [http.Get] or of the decoder.  During one call the
    upstream gives the same answer to the same request. *)
Record World : Type := {
  since : Z -> Z;                                   (* time.Since(t) *)
  now : Z;                                          (* time.Now() *)
  get_users : option (gmap string (gmap string string));
  get_posts : string -> option (gmap string (list Post));
  get_comments : Z -> option (gmap string (list Comment));
  range_users : gmap string string -> list (string * string);
  range_counts : gmap string Z -> list (string * Z);
  range_comments : gmap Z Z -> list (Z * Z);
  sort_Slice : ∀ A : Type, (A -> A -> bool) -> list A -> list A
}.

Arguments sort_Slice w {A} less x.

(** [fetchUsers]: [result["users"]], a nil map when the key is absent. *)
Definition fetchUsers (w : World) : option (gmap string string) :=
  body ← get_users w; Some (default ∅ (body !! "users")).

(** [fetchUserPosts]: [result["posts"]]. *)
Definition fetchUserPosts (w : World) (userID : string) : option (list Post) :=
  body ← get_posts w userID; Some (default [] (body !! "posts")).

(** [fetchPostComments]: [result["comments"]]. *)
Definition fetchPostComments (w : World) (postID : Z)
  : option (list Comment) :=
  body ← get_comments w postID; Some (default [] (body !! "comments")).

(** [for _, post := range posts { ... newPostComments[post.ID] = len(comments) }] *)
Definition comments_loop (w : World) (newPostComments : gmap Z Z)
    (ps : list Post) : gmap Z Z :=
  foldl (λ pc post,
           match fetchPostComments w (ID post) with
           | None => pc                                   (* continue *)
           | Some comments => <[ID post := len comments]> pc
           end) newPostComments ps.

(** The state of the loop over the users: [c.users],
    [newUserPostCounts], [newPosts] and [newPostComments]. *)
Record Refresh : Type := {
  r_users : gmap string string;
  r_counts : gmap string Z;
  r_posts : list Post;
  r_comments : gmap Z Z
}.

(** One round of [for userID, userName := range users]. *)
Definition user_round (w : World) (r : Refresh) (u : string * string)
  : Refresh :=
  let '(userID, userName) := u in
  let us := <[userID := userName]> (r_users r) in
  match fetchUserPosts w userID with
  | None =>                                               (* continue *)
      {| r_users := us; r_counts := r_counts r; r_posts := r_posts r;
         r_comments := r_comments r |}
  | Some ps =>
      {| r_users := us;
         r_counts := <[userID := len ps]> (r_counts r);
         r_posts := r_posts r ++ ps;
         r_comments := comments_loop w (r_comments r) ps |}
  end.

(** [func (c *Cache) updateData()]. *)
Definition updateData (c : Cache) (w : World) : Cache :=
  if since w (lastUpdated c) <? updateInterval c then c
  else
    match fetchUsers w with
    | None => c
    | Some fetched =>
        let r := foldl (user_round w)
                   {| r_users := users c; r_counts := ∅; r_posts := [];
                      r_comments := ∅ |}
                   (range_users w fetched) in
        {| users := r_users r;
           userPostCounts := r_counts r;
           posts := r_posts r;
           postComments := r_comments r;
           lastUpdated := now w;
           updateInterval := updateInterval c |}
    end.

(** What a handler writes: [gin.H{"users": ...}], [gin.H{"posts": ...}]
    or [gin.H{"error": ...}].  A nil slice is serialised as [null],
    which is [None] here. *)
Inductive Body : Type :=
| Users (l : option (list UserPostCount))
| Posts (l : option (list Post))
| Error (msg : string).

Record Answer : Type := Reply { status : Z; body : Body }.

(** [for userID, count := range cache.userPostCounts { users = append(...) }] *)
Definition count_rows (c : Cache) (order : list (string * Z))
  : list UserPostCount :=
  foldl (λ rows '(userID, count),
           rows ++ [{| uUserID := userID;
                       Name := default "" (users c !! userID);
                       Count := count |}]) [] order.

(** [if len(s) > 5 { s = s[:5] }] *)
Definition first_five {A} (s : list A) : list A :=
  if 5 <? len s then take 5 s else s.

(** A slice that is nil when nothing was appended to it. *)
Definition nil_if_empty {A} (s : list A) : option (list A) :=
  match s with [] => None | _ => Some s end.

(** [func getTopUsers]: the answer and the cache afterwards. *)
Definition getTopUsers (c : Cache) (w : World) : Answer * Cache :=
  let c := updateData c w in
  let rows := count_rows c (range_counts w (userPostCounts c)) in
  let rows :=
    sort_Slice w (λ users_i users_j, Count users_i >? Count users_j) rows in
  let rows := first_five rows in
  (Reply StatusOK (Users (nil_if_empty rows)), c).

(** [for _, count := range cache.postComments { if count > maxComments ... }] *)
Definition max_comments (order : list (Z * Z)) : Z :=
  foldl (λ maxComments '(_, count),
           if maxComments <? count then count else maxComments) 0 order.

(** [cache.postComments[post.ID]]: zero for a post without an entry. *)
Definition comments_of (c : Cache) (p : Post) : Z :=
  default 0 (postComments c !! ID p).

(** [func getPosts], [postType] being [c.Query("type")]. *)
Definition getPosts (c : Cache) (w : World) (postType : string)
  : Answer * Cache :=
  if negb (String.eqb postType "latest") && negb (String.eqb postType "popular")
  then (Reply StatusBadRequest
          (Error "Invalid post type. Use 'latest' or 'popular'"), c)
  else
    let c := updateData c w in
    if String.eqb postType "popular" then
      let maxComments := max_comments (range_comments w (postComments c)) in
      let popularPosts :=
        filter (λ p, comments_of c p = maxComments) (posts c) in
      (Reply StatusOK (Posts (nil_if_empty popularPosts)), c)
    else
      let ps :=
        sort_Slice w (λ posts_i posts_j, ID posts_i >? ID posts_j) (posts c) in
      (Reply StatusOK (Posts (Some (first_five ps))), c).

(** What package [sort] asks of a less function: no element is less
    than itself, less is transitive, and so is not being less. *)
Definition strict_weak {A} (less : A -> A -> bool) : Prop :=
  (∀ a, less a a = false)
  ∧ (∀ a b c, less a b = true -> less b c = true -> less a c = true)
  ∧ (∀ a b c, less a b = false -> less b c = false -> less a c = false).

(** What [sort.Slice] then leaves: no element is less than one that
    comes before it. *)
Definition in_order {A} (less : A -> A -> bool) : relation A :=
  λ a b, less b a = false.

#[export] Instance in_order_dec {A} (less : A -> A -> bool)
  : RelDecision (in_order less) :=
  λ a b, decide (less b a = false).

(** Larger counts first, larger ids first. *)
Definition by_count (a b : UserPostCount) : Prop := Count b <= Count a.
Definition by_id (a b : Post) : Prop := ID b <= ID a.

(** The world keeps to what Go promises: [range] visits every entry of
    a map once, and [sort.Slice] permutes its slice into the order of
    the less function it is given. *)
Record lawful (w : World) : Prop := {
  range_users_ok : ∀ m, range_users w m ≡ₚ map_to_list m;
  range_counts_ok : ∀ m, range_counts w m ≡ₚ map_to_list m;
  range_comments_ok : ∀ m, range_comments w m ≡ₚ map_to_list m;
  sort_Slice_perm : ∀ A (less : A -> A -> bool) x,
    sort_Slice w less x ≡ₚ x;
  sort_Slice_sorted : ∀ A (less : A -> A -> bool) x,
    strict_weak less -> StronglySorted (in_order less) (sort_Slice w less x)
}.

(** Every comment count of the cache is that of a cached post, and is
    not negative. *)
Definition sound (c : Cache) : Prop :=
  ∀ id n, postComments c !! id = Some n -> 0 <= n ∧ id ∈ ID <$> posts c.

(** The row of [getTopUsers] for an entry of [userPostCounts]. *)
Definition row (c : Cache) (e : string * Z) : UserPostCount :=
  {| uUserID := e.1; Name := default "" (users c !! e.1); Count := e.2 |}.

(** A world to try things on: ranges in the order of [map_to_list],
    merge sort, an upstream with two users. *)
Definition sample_world : World :=
  {| since := λ t, 60 * 1000000000 - t;
     now := 60 * 1000000000;
     get_users := Some {[ "users" := {[ "1" := "Ann"; "2" := "Bob" ]} ]};
     get_posts := λ u,
       if String.eqb u "1"
       then Some {[ "posts" := [ {| ID := 10; UserID := 1; Content := "a" |};
                                 {| ID := 11; UserID := 1; Content := "b" |} ] ]}
       else if String.eqb u "2"
       then Some {[ "posts" := [ {| ID := 20; UserID := 2; Content := "c" |} ] ]}
       else None;
     get_comments := λ p,
       if p =? 10
       then Some {[ "comments" := [ {| cID := 1; PostID := 10; cContent := "x" |} ] ]}
       else if p =? 20 then Some ∅
       else None;
     range_users := map_to_list;
     range_counts := map_to_list;
     range_comments := map_to_list;
     sort_Slice := λ A less, merge_sort (in_order less) |}.

End Aggregator.

(** ** The cache over the life of the service *)

Module AggregatorRuns.
Import Go Aggregator.

(** The cache after a series of calls of [updateData], by the handlers
    or by the goroutine started in [main], each in the world of its
    time: the cache changes in no other way. *)
Definition refreshes (c : Cache) (ws : list World) : Cache :=
  foldl updateData c ws.

(** The number of posts counted for the users. *)
Definition counted (c : Cache) : Z :=
  Spec.total (map_to_list (userPostCounts c)).*2.

(** What the parts of the cache have to do with each other. *)
Record consistent (c : Cache) : Prop := {
  counts_named : ∀ u n,
    userPostCounts c !! u = Some n -> 0 <= n ∧ is_Some (users c !! u);
  counts_posts : counted c = len (posts c);
  comments_sound : sound c
}.

End AggregatorRuns.

(** ** Properties of the builtins *)

Section GoFacts.
Import Go.

Lemma copy_make (l : list Z) : copy_ints (make_ints (len l)) l = l.
Proof.
  unfold copy_ints, make_ints, len.
  rewrite Nat2Z.id, length_replicate, Nat.min_id.
  rewrite firstn_all, drop_ge by (rewrite length_replicate; lia).
  apply app_nil_r.
Qed.

Lemma int_wrap_id (z : Z) : is_int z -> int_wrap z = z.
Proof.
  unfold is_int, int_wrap, int_min, int_max, int_bits. intros H.
  rewrite Z.mod_small; lia.
Qed.

Lemma int_wrap_range (z : Z) : is_int (int_wrap z).
Proof.
  unfold is_int, int_wrap, int_min, int_max, int_bits.
  pose proof (Z.mod_pos_bound (z + 2 ^ (64 - 1)) (2 ^ 64)). lia.
Qed.

Lemma int_wrap_add_l (a b : Z) : int_wrap (int_wrap a + b) = int_wrap (a + b).
Proof.
  unfold int_wrap, int_bits.
  replace ((a + 2 ^ (64 - 1)) mod 2 ^ 64 - 2 ^ (64 - 1) + b + 2 ^ (64 - 1))
    with ((a + 2 ^ (64 - 1)) mod 2 ^ 64 + b) by lia.
  rewrite Zplus_mod_idemp_l. f_equal. f_equal. lia.
Qed.

Lemma slice_from_drop {A} (s : list A) (n : nat) :
  (n <= length s)%nat -> slice_from s (Z.of_nat n) = Some (drop n s).
Proof.
  intros H. unfold slice_from, len.
  rewrite Nat2Z.id.
  replace (0 <=? Z.of_nat n) with true by (symmetry; apply Z.leb_le; lia).
  replace (Z.of_nat n <=? Z.of_nat (length s)) with true
    by (symmetry; apply Z.leb_le; lia).
  reflexivity.
Qed.

End GoFacts.

(** ** The accepted values of a batch *)

Section Accepted.
Import Spec.

Lemma accepted_elem (w b : list Z) (x : Z) :
  x ∈ accepted w b ↔ x ∈ b ∧ x ∉ w.
Proof.
  revert w. induction b as [|y b IH]; intros w; simpl.
  - split; [inversion 1 | intros [H _]; inversion H].
  - case_bool_decide as Hy.
    + rewrite IH, elem_of_cons. split; [tauto|].
      intros [[->|Hb] Hw]; [contradiction | tauto].
    + rewrite elem_of_cons, IH, elem_of_cons, elem_of_app, list_elem_of_singleton.
      split.
      * intros [->|[Hb Hw]]; [tauto|]. split; [tauto|]. tauto.
      * intros [[->|Hb] Hw]; [tauto|].
        destruct (decide (x = y)) as [->|Hne]; [tauto|]. right. tauto.
Qed.

Lemma accepted_NoDup (w b : list Z) : NoDup (accepted w b).
Proof.
  revert w. induction b as [|y b IH]; intros w; simpl.
  - constructor.
  - case_bool_decide; [apply IH|].
    constructor; [|apply IH].
    rewrite accepted_elem, elem_of_app, list_elem_of_singleton. tauto.
Qed.

Lemma accepted_app_NoDup (w b : list Z) :
  NoDup w -> NoDup (w ++ accepted w b).
Proof.
  intros Hw. apply NoDup_app. split; [done|]. split; [|apply accepted_NoDup].
  intros x Hx. rewrite accepted_elem. tauto.
Qed.

Lemma accepted_all_known (w b : list Z) :
  Forall (λ x, x ∈ w) b -> accepted w b = [].
Proof.
  induction 1 as [|x b Hx _ IH]; simpl; [done|].
  by rewrite bool_decide_eq_true_2.
Qed.

Lemma accepted_new (w : list Z) (x : Z) : x ∉ w -> accepted w [x] = [x].
Proof. intros H. simpl. by rewrite bool_decide_eq_false_2. Qed.

Lemma last_n_length (n : nat) (l : list Z) :
  (n <= length l)%nat -> length (last_n n l) = n.
Proof. intros H. unfold last_n. rewrite length_drop. lia. Qed.

Lemma last_n_all (n : nat) (l : list Z) :
  (length l <= n)%nat -> last_n n l = l.
Proof.
  intros H. unfold last_n. by replace (length l - n)%nat with 0%nat by lia.
Qed.

Lemma last_n_suffix (n : nat) (l : list Z) :
  take (length l - n) l ++ last_n n l = l.
Proof. apply take_drop. Qed.

End Accepted.

(** ** The store of variant 1, statement by statement *)

Section Store1.
Import Go Spec Variant1 Runs.

Lemma map_index_insert (m : gmap Z bool) (j k : Z) :
  map_index (<[j := true]> m) k = true ↔ k = j ∨ map_index m k = true.
Proof.
  unfold map_index. destruct (decide (j = k)) as [->|Hne].
  - rewrite lookup_insert_eq. simpl. tauto.
  - rewrite lookup_insert_ne by done. split; [tauto|].
    intros [->|H]; [contradiction | done].
Qed.

Lemma tracks_snoc (m : gmap Z bool) (nums : list Z) (x : Z) :
  tracks m nums -> tracks (<[x := true]> m) (nums ++ [x]).
Proof.
  intros H k. rewrite map_index_insert, elem_of_app, list_elem_of_singleton, (H k).
  tauto.
Qed.

Lemma mark_all_tracks (m : gmap Z bool) (seen nums : list Z) :
  tracks m seen -> tracks (mark_all m nums) (seen ++ nums).
Proof.
  revert m seen. induction nums as [|x nums IH]; intros m seen H; simpl.
  - by rewrite app_nil_r.
  - replace (seen ++ x :: nums) with ((seen ++ [x]) ++ nums)
      by (by rewrite <- app_assoc).
    apply IH. by apply tracks_snoc.
Qed.

Lemma mark_all_empty (nums : list Z) : tracks (mark_all ∅ nums) nums.
Proof.
  apply (mark_all_tracks ∅ [] nums). intros k. unfold map_index.
  rewrite lookup_empty. simpl. split; [done | inversion 1].
Qed.

Lemma add_unique_accepted (nums : list Z) (m : gmap Z bool) (b : list Z) :
  tracks m nums ->
  (add_unique nums m b).1 = nums ++ accepted nums b
  ∧ tracks (add_unique nums m b).2 (nums ++ accepted nums b).
Proof.
  revert nums m. induction b as [|x b IH]; intros nums m H; simpl.
  - by rewrite app_nil_r.
  - destruct (map_index m x) eqn:E; simpl.
    + rewrite bool_decide_eq_true_2 by (by apply H). by apply IH.
    + rewrite bool_decide_eq_false_2
        by (intros Hin; apply H in Hin; congruence).
      replace (nums ++ x :: accepted (nums ++ [x]) b)
        with ((nums ++ [x]) ++ accepted (nums ++ [x]) b)
        by (by rewrite <- app_assoc).
      apply IH. by apply tracks_snoc.
Qed.

Lemma shrink_last (nums : list Z) :
  shrink nums = Some (last_n (Z.to_nat WindowSize) nums).
Proof.
  unfold shrink, last_n, WindowSize, len.
  destruct (10 <? Z.of_nat (length nums)) eqn:E.
  - apply Z.ltb_lt in E.
    replace (Z.of_nat (length nums) - 10) with (Z.of_nat (length nums - 10))
      by lia.
    rewrite slice_from_drop by lia. do 2 f_equal.
  - apply Z.ltb_ge in E.
    by replace (length nums - Z.to_nat 10)%nat with 0%nat by lia.
Qed.

(** [AddNumbers] in closed form. *)
Lemma AddNumbers_eq (ns : NumberStore) (b : list Z) :
  AddNumbers ns b =
  Some (numbers ns,
        {| numbers := last_n (Z.to_nat WindowSize)
                        (numbers ns ++ accepted (numbers ns) b) |}).
Proof.
  unfold AddNumbers. rewrite copy_make.
  pose proof (add_unique_accepted (numbers ns) (mark_all ∅ (numbers ns)) b
                (mark_all_empty _)) as [H1 _].
  destruct (add_unique _ _ _) as [nums m]. simpl in H1. subst nums.
  rewrite shrink_last. reflexivity.
Qed.

Lemma GetCurrentState_eq (ns : NumberStore) : GetCurrentState ns = numbers ns.
Proof. apply copy_make. Qed.

Lemma last_n_bound (l : list Z) :
  len (last_n (Z.to_nat WindowSize) l) <= WindowSize.
Proof. unfold last_n, len, WindowSize. rewrite length_drop. lia. Qed.

End Store1.

Section Claims1.
Import Go Spec Variant1 Runs.

Lemma appended_eq (ns : NumberStore) (b : list Z) :
  appended ns b = numbers ns ++ accepted (numbers ns) b.
Proof. apply add_unique_accepted, mark_all_empty. Qed.

Lemma merges_bounded (ns : NumberStore) (batches : list (list Z)) :
  ∃ trace, merges ns batches = Some trace
           ∧ length trace = length batches
           ∧ Forall (λ ns', len (numbers ns') <= WindowSize) trace.
Proof.
  revert ns. induction batches as [|b rest IH]; intros ns; simpl.
  - exists []. by repeat split.
  - rewrite AddNumbers_eq. simpl.
    edestruct IH as (trace & -> & Hlen & Hall). simpl.
    eexists. split; [done|]. split; [simpl; by f_equal|].
    constructor; [|done]. simpl. apply last_n_bound.
Qed.

(** The scenario of the specification: merging [4,7,7,9] and then
    [7,2] into the empty store. *)
Example scenario_first_merge :
  AddNumbers empty_store [4; 7; 7; 9] = Some ([], {| numbers := [4; 7; 9] |})
  ∧ GetAverage {| numbers := [4; 7; 9] |}
    = float64_div (float64_of_int 20) (float64_of_int 3).
Proof. by vm_compute. Qed.

Example scenario_second_merge :
  AddNumbers {| numbers := [4; 7; 9] |} [7; 2]
  = Some ([4; 7; 9], {| numbers := [4; 7; 9; 2] |})
  ∧ GetAverage {| numbers := [4; 7; 9; 2] |}
    = float64_div (float64_of_int 11) (float64_of_int 2).
Proof. by vm_compute. Qed.

(** C1. Whatever batches are merged, one after the other, into the
    empty store, every call returns and the window holds at most
    [WindowSize] = 10 values after each of them. *)
Theorem window_bounded_after_every_merge (batches : list (list Z)) :
  WindowSize = 10
  ∧ ∃ trace, merges empty_store batches = Some trace
             ∧ length trace = length batches
             ∧ Forall (λ ns, len (numbers ns) <= WindowSize) trace.
Proof. split; [done | apply merges_bounded]. Qed.

(** C2. Merging into a duplicate-free window leaves it duplicate-free.
    The loop appends to the window exactly the accepted values of the
    batch: those that are neither in the window before the call nor
    taken earlier in the same call, so that no value of the batch is
    appended twice. *)
Theorem merge_keeps_window_duplicate_free
    (ns : NumberStore) (newNumbers : list Z)
    (Hw : NoDup (numbers ns)) :
  ∃ prevState ns',
    AddNumbers ns newNumbers = Some (prevState, ns')
    ∧ NoDup (numbers ns')
    ∧ appended ns newNumbers = numbers ns ++ accepted (numbers ns) newNumbers
    ∧ NoDup (accepted (numbers ns) newNumbers)
    ∧ (∀ x, x ∈ accepted (numbers ns) newNumbers
            ↔ x ∈ newNumbers ∧ x ∉ numbers ns).
Proof.
  eexists _, _. split; [apply AddNumbers_eq|]. simpl.
  split; [|split; [apply appended_eq|]].
  - unfold last_n. eapply sublist_NoDup; [|apply sublist_drop].
    by apply accepted_app_NoDup.
  - split; [apply accepted_NoDup | intros x; apply accepted_elem].
Qed.

Lemma merge_keeps_window_duplicate_free_witness :
  ∃ prevState ns',
    AddNumbers {| numbers := [4; 7; 9] |} [7; 2; 2] = Some (prevState, ns')
    ∧ NoDup (numbers ns')
    ∧ appended {| numbers := [4; 7; 9] |} [7; 2; 2]
      = [4; 7; 9] ++ accepted [4; 7; 9] [7; 2; 2]
    ∧ NoDup (accepted [4; 7; 9] [7; 2; 2])
    ∧ (∀ x, x ∈ accepted [4; 7; 9] [7; 2; 2]
            ↔ x ∈ [7; 2; 2] ∧ x ∉ [4; 7; 9]).
Proof.
  apply (merge_keeps_window_duplicate_free {| numbers := [4; 7; 9] |} [7; 2; 2]).
  simpl. compute_done.
Defined.

(** C3. When the appends of a merge leave more than [WindowSize]
    values, the window kept is the last [WindowSize] of them, in the
    same order: the appended sequence is some dropped prefix followed
    by the new window.  In particular, a single new value merged into
    a full window pushes out the oldest value and is placed last. *)
Theorem eviction_keeps_last_window
    (ns : NumberStore) (newNumbers : list Z)
    (Hover : WindowSize < len (appended ns newNumbers)) :
  ∃ prevState ns' dropped,
    AddNumbers ns newNumbers = Some (prevState, ns')
    ∧ appended ns newNumbers = dropped ++ numbers ns'
    ∧ len (numbers ns') = WindowSize
    ∧ numbers ns' = last_n (Z.to_nat WindowSize) (appended ns newNumbers)
    ∧ ∀ new, newNumbers = [new] -> len (numbers ns) = WindowSize ->
        numbers ns' = drop 1 (numbers ns) ++ [new].
Proof.
  rewrite appended_eq in *.
  set (app := numbers ns ++ accepted (numbers ns) newNumbers) in *.
  exists (numbers ns), {| numbers := last_n (Z.to_nat WindowSize) app |},
    (take (length app - Z.to_nat WindowSize) app).
  split; [apply AddNumbers_eq|]. simpl.
  split; [symmetry; apply last_n_suffix|].
  split.
  { unfold len in *. rewrite last_n_length; unfold WindowSize in *; lia. }
  split; [done|].
  intros new -> Hfull. subst app. unfold len, WindowSize in *.
  simpl in *. case_bool_decide as Hin.
  { rewrite app_nil_r in Hover. lia. }
  unfold last_n. rewrite length_app. simpl.
  replace (length (numbers ns) + 1 - Z.to_nat 10)%nat with 1%nat by lia.
  rewrite drop_app_le by lia. done.
Qed.

Lemma eviction_keeps_last_window_witness :
  ∃ prevState ns' dropped,
    AddNumbers {| numbers := [1; 2; 3; 4; 5; 6; 7; 8; 9; 10] |} [11]
      = Some (prevState, ns')
    ∧ appended {| numbers := [1; 2; 3; 4; 5; 6; 7; 8; 9; 10] |} [11]
      = dropped ++ numbers ns'
    ∧ len (numbers ns') = WindowSize
    ∧ numbers ns' = [2; 3; 4; 5; 6; 7; 8; 9; 10; 11].
Proof.
  destruct (eviction_keeps_last_window
              {| numbers := [1; 2; 3; 4; 5; 6; 7; 8; 9; 10] |} [11])
    as (prevState & ns' & dropped & H1 & H2 & H3 & _ & H5).
  { vm_compute. reflexivity. }
  exists prevState, ns', dropped. repeat split; try assumption.
  apply (H5 11); reflexivity.
Defined.

Lemma sum_loop_total (sum : Z) (nums : list Z) :
  int_wrap (sum_loop sum nums) = int_wrap (sum + total nums).
Proof.
  revert sum. induction nums as [|x nums IH]; intros sum; simpl.
  - by rewrite Z.add_0_r.
  - rewrite IH. unfold int_add. rewrite int_wrap_add_l. f_equal. lia.
Qed.

Lemma sum_loop_is_int (sum : Z) (nums : list Z) :
  is_int sum -> is_int (sum_loop sum nums).
Proof.
  revert sum. induction nums as [|x nums IH]; intros sum H; simpl; [done|].
  apply IH, int_wrap_range.
Qed.

Lemma sum_loop_wrap (nums : list Z) :
  sum_loop 0 nums = int_wrap (total nums).
Proof.
  rewrite <- (int_wrap_id (sum_loop 0 nums)).
  - by rewrite sum_loop_total.
  - apply sum_loop_is_int. by vm_compute.
Qed.




Lemma merge_nothing_new (ns : NumberStore) (b : list Z) :
  len (numbers ns) <= WindowSize ->
  accepted (numbers ns) b = [] ->
  AddNumbers ns b = Some (numbers ns, ns).
Proof.
  intros Hlen Hacc. rewrite AddNumbers_eq, Hacc, app_nil_r.
  rewrite last_n_all by (unfold len, WindowSize in *; lia).
  by destruct ns.
Qed.

(** C6. On a window within its bound, merging a non-empty batch made
    only of values the window already holds returns the window as it
    was and leaves the store as it was; the call does not fail. *)
Theorem duplicate_resubmission_is_noop
    (ns : NumberStore) (newNumbers : list Z)
    (Hbound : len (numbers ns) <= WindowSize)
    (Hnonempty : newNumbers ≠ [])
    (Hknown : Forall (λ x, x ∈ numbers ns) newNumbers) :
  AddNumbers ns newNumbers = Some (numbers ns, ns).
Proof. apply merge_nothing_new; [done|]. by apply accepted_all_known. Qed.

Lemma duplicate_resubmission_is_noop_witness :
  AddNumbers {| numbers := [4; 7; 9; 2] |} [7; 2; 7]
  = Some ([4; 7; 9; 2], {| numbers := [4; 7; 9; 2] |}).
Proof.
  apply (duplicate_resubmission_is_noop {| numbers := [4; 7; 9; 2] |} [7; 2; 7]).
  - by vm_compute.
  - congruence.
  - simpl. repeat constructor; compute_done.
Defined.

End Claims1.

Section Claims2.
Import Go Spec Sides.

Lemma AddNumbers_12 (ns : Variant1.NumberStore) (b : list Z) :
  observe2 (Variant2.AddNumbers (store12 ns) b)
  = observe1 (Variant1.AddNumbers ns b).
Proof.
  unfold Variant2.AddNumbers, Variant1.AddNumbers, store12. simpl.
  change Variant2.add_unique with Variant1.add_unique.
  change Variant2.mark_all with Variant1.mark_all.
  change Variant2.shrink with Variant1.shrink.
  destruct (Variant1.add_unique _ _ _) as [nums m].
  by destruct (Variant1.shrink nums).
Qed.

Lemma AddNumbers_2_eq (ns : Variant2.NumberStore) (b : list Z) :
  Variant2.AddNumbers ns b =
  Some (Variant2.numbers ns,
        {| Variant2.numbers :=
             last_n (Z.to_nat Variant2.WindowSize)
               (Variant2.numbers ns ++ accepted (Variant2.numbers ns) b) |}).
Proof.
  pose proof (AddNumbers_12 (store21 ns) b) as H.
  rewrite AddNumbers_eq in H.
  replace (store12 (store21 ns)) with ns in H by (by destruct ns).
  destruct (Variant2.AddNumbers ns b) as [[p [w]]|]; [|done].
  simpl in H. by simplify_eq.
Qed.

(** C9. The two variants of the store agree: on equal contents and
    equal input, [AddNumbers] returns the same slice and leaves the
    same contents, and [GetAverage] and [GetCurrentState] return the
    same values. *)
Theorem variants_agree (ns : Variant1.NumberStore) (newNumbers : list Z) :
  observe2 (Variant2.AddNumbers (store12 ns) newNumbers)
  = observe1 (Variant1.AddNumbers ns newNumbers)
  ∧ Variant2.GetAverage (store12 ns) = Variant1.GetAverage ns
  ∧ Variant2.GetCurrentState (store12 ns) = Variant1.GetCurrentState ns
  ∧ store21 (store12 ns) = ns.
Proof.
  split; [apply AddNumbers_12|]. split; [reflexivity|].
  split; [reflexivity | by destruct ns].
Qed.

(** C10. [AddNumbers] returns on every input, in both variants.  Called
    with the empty batch on a window within its bound, it returns the
    window as it was and leaves the store as it was. *)
Theorem empty_batch_is_noop :
  (∀ ns b, is_Some (Variant1.AddNumbers ns b))
  ∧ (∀ ns b, is_Some (Variant2.AddNumbers ns b))
  ∧ (∀ ns, len (Variant1.numbers ns) <= Variant1.WindowSize ->
       Variant1.AddNumbers ns [] = Some (Variant1.numbers ns, ns))
  ∧ (∀ ns, len (Variant2.numbers ns) <= Variant2.WindowSize ->
       Variant2.AddNumbers ns [] = Some (Variant2.numbers ns, ns)).
Proof.
  split; [|split; [|split]].
  - intros ns b. by rewrite AddNumbers_eq.
  - intros ns b. by rewrite AddNumbers_2_eq.
  - intros ns H. by apply merge_nothing_new.
  - intros [w] H. rewrite AddNumbers_2_eq. simpl in *.
    rewrite app_nil_r.
    rewrite last_n_all by (unfold len, Variant2.WindowSize in *; lia).
    done.
Qed.

Lemma empty_batch_is_noop_witness :
  Variant1.AddNumbers {| Variant1.numbers := [4; 7; 9] |} []
  = Some ([4; 7; 9], {| Variant1.numbers := [4; 7; 9] |})
  ∧ Variant2.AddNumbers {| Variant2.numbers := [4; 7; 9] |} []
    = Some ([4; 7; 9], {| Variant2.numbers := [4; 7; 9] |}).
Proof.
  destruct empty_batch_is_noop as (_ & _ & H1 & H2).
  split.
  - apply (H1 {| Variant1.numbers := [4; 7; 9] |}). by vm_compute.
  - apply (H2 {| Variant2.numbers := [4; 7; 9] |}). by vm_compute.
Defined.

Lemma fetchNumbers_1_fails (up : Upstream) (numberType authToken : string) :
  upstream_failed
    (up (Variant1.NumberServiceURL +:+ "/" +:+ numberType) authToken) ->
  ∃ err, Variant1.fetchNumbers up numberType authToken = inr err.
Proof.
  unfold Variant1.fetchNumbers, upstream_failed.
  destruct (up _ authToken) as [e1 e2 e3 st body um]. simpl.
  intros Hfail.
  destruct e1 as [e1|]; [by eexists|].
  destruct e2 as [e2|]; [by eexists|].
  destruct e3 as [e3|]; [by eexists|].
  destruct (st =? StatusOK) eqn:Est; simpl; [|by eexists].
  apply Z.eqb_eq in Est.
  destruct um as [[nums|]|err]; [|by eexists..].
  destruct nums as [|x nums]; [by eexists|].
  exfalso.
  destruct Hfail as [[? ?]|[[? ?]|[[? ?]|[?|[[? ?]|[?|?]]]]]]; congruence.
Qed.

Lemma fetchNumbers_2_fails (up : Upstream) (numberType authToken : string) :
  upstream_failed
    (up (Variant2.NumberServiceURL +:+ "/" +:+ numberType) authToken) ->
  ∃ err, Variant2.fetchNumbers up numberType authToken = inr err.
Proof.
  unfold Variant2.fetchNumbers, upstream_failed.
  destruct (up _ authToken) as [e1 e2 e3 st body um]. simpl.
  intros Hfail.
  destruct e1 as [e1|]; [by eexists|].
  destruct e2 as [e2|]; [by eexists|].
  destruct e3 as [e3|]; [by eexists|].
  destruct (st =? StatusOK) eqn:Est; simpl; [|by eexists].
  apply Z.eqb_eq in Est.
  destruct um as [[nums|]|err]; [|by eexists..].
  destruct nums as [|x nums]; [by eexists|].
  exfalso.
  destruct Hfail as [[? ?]|[[? ?]|[[? ?]|[?|[[? ?]|[?|?]]]]]]; congruence.
Qed.

Lemma admitted_guards (rq : Request) (numberType authToken : string) :
  admitted rq numberType authToken ->
  String.eqb (hAuthorization rq) "" = false
  ∧ (len_string (hAuthorization rq) <=? 7)
    || negb (String.eqb (str_to (hAuthorization rq) 7) "Bearer ") = false.
Proof.
  intros (Hne & Hlen & Hpre & _ & _). split.
  - by apply String.eqb_neq.
  - rewrite Hpre. simpl. rewrite orb_false_r. apply Z.leb_gt. lia.
Qed.

(** C7, as it stands, fails on variant 2: when the fetch fails its
    handler answers with the error message alone, without the window
    and without the average. *)
Lemma variant2_failed_fetch_reports_error_only :
  let store := {| Variant2.numbers := [4; 7; 9] |} in
  admitted even_request "even" "t"
  ∧ upstream_failed
      (timed_out (Variant2.NumberServiceURL +:+ "/" +:+ "even") "t")
  ∧ ∃ r, Variant2.handler store even_request timed_out = Some (r, store)
         ∧ payload r
           = H (<["error" := JString "failed to execute request: timeout"]> ∅)
         ∧ ¬ reports_unchanged r (Variant2.GetCurrentState store)
               (Variant2.GetAverage store).
Proof.
  intros store. split; [by repeat split|].
  split; [right; left; by eexists|].
  exists (JSON StatusInternalServerError
            (H (<["error" := JString "failed to execute request: timeout"]> ∅))).
  split; [by vm_compute|]. split; [done|].
  intros (h & Hh & Hprev & _). simpl in Hh. injection Hh as <-.
  by vm_compute in Hprev.
Qed.

(** Other requests can only merge: the store they leave exists. *)
Lemma others_total (store : Variant1.NumberStore) (gap : list (list Z)) :
  ∃ seen, Among.others store gap = Some seen.
Proof.
  revert store. induction gap as [|b gap IH]; intros store; simpl.
  - by eexists.
  - rewrite AddNumbers_eq. simpl. apply IH.
Qed.

Lemma others2_total (store : Variant2.NumberStore) (gap : list (list Z)) :
  ∃ seen, Among.others2 store gap = Some seen.
Proof.
  revert store. induction gap as [|b gap IH]; intros store; simpl.
  - by eexists.
  - rewrite AddNumbers_2_eq. simpl. apply IH.
Qed.

(** With no other request in between, the handler among others is the
    handler run alone. *)
Lemma handler_among_alone (store : Variant1.NumberStore) (rq : Request)
    (up : Upstream) :
  Among.handler_among store rq up [] [] = Variant1.handler store rq up.
Proof.
  unfold Among.handler_among, Variant1.handler.
  by repeat case_match.
Qed.

Lemma handler_among2_alone (store : Variant2.NumberStore) (rq : Request)
    (up : Upstream) :
  Among.handler_among2 store rq up [] [] = Variant2.handler store rq up.
Proof.
  unfold Among.handler_among2, Variant2.handler.
  by repeat case_match.
Qed.

(** C7, amended. When the upstream fetch fails (the request cannot be
    built, sent or read, the status is not 200, the payload does not
    decode, or it holds no numbers), neither handler calls
    [AddNumbers]: the handler leaves the store as it finds it, and the
    answer carries status 500 and an error message.  The handler of
    variant 1 also reports two states, nil numbers and the average,
    each read from the store under a lock of its own.  Run alone, it
    reports the current window, read by [GetCurrentState], as previous
    and as current state, and the current average.  Among other
    requests, the previous state is the window at the first read, the
    current state the window at the second read, and the average that
    of the window at the third read, the store being then what the
    merges of the other requests have made of it.  The handler of
    variant 2 reports the error message only, and does not read the
    store. *)
Theorem failed_fetch_leaves_window
    (store1 : Variant1.NumberStore) (store2 : Variant2.NumberStore)
    (rq : Request) (up : Upstream) (numberType authToken : string)
    (gap1 gap2 : list (list Z))
    (Hrq : admitted rq numberType authToken)
    (Hfail : upstream_failed
               (up (Variant1.NumberServiceURL +:+ "/" +:+ numberType)
                   authToken)) :
  (∃ r h, Variant1.handler store1 rq up = Some (r, store1)
          ∧ code r = StatusInternalServerError
          ∧ payload r = H h
          ∧ h !! "numbers" = Some JNil
          ∧ reports_unchanged r (Variant1.GetCurrentState store1)
              (Variant1.GetAverage store1)
          ∧ Variant1.GetCurrentState store1 = Variant1.numbers store1)
  ∧ (∃ r h seen1 seen2,
       Among.others store1 gap1 = Some seen1
       ∧ Among.others seen1 gap2 = Some seen2
       ∧ Among.handler_among store1 rq up gap1 gap2 = Some (r, seen2)
       ∧ code r = StatusInternalServerError
       ∧ payload r = H h
       ∧ is_Some (h !! "error")
       ∧ h !! "windowPrevState" = Some (JInts (Variant1.numbers store1))
       ∧ h !! "windowCurrState" = Some (JInts (Variant1.numbers seen1))
       ∧ h !! "numbers" = Some JNil
       ∧ h !! "avg" = Some (JFloat (Variant1.GetAverage seen2)))
  ∧ (∃ err,
       Variant2.handler store2 rq up
       = Some (JSON StatusInternalServerError
                 (H (<["error" := JString err]> ∅)), store2)
       ∧ Among.handler_among2 store2 rq up gap1 gap2
         = Some (JSON StatusInternalServerError
                   (H (<["error" := JString err]> ∅)), store2)).
Proof.
  destruct (admitted_guards _ _ _ Hrq) as [Hg1 Hg2].
  destruct Hrq as (_ & _ & _ & Htok & Hty).
  split; [|split].
  - destruct (fetchNumbers_1_fails up numberType authToken Hfail) as [err He].
    unfold Variant1.handler. rewrite Hg1, Hg2, Hty, <- Htok, He.
    eexists _, _. split; [reflexivity|]. simpl.
    split; [done|]. split; [done|].
    split; [by simplify_map_eq|].
    split; [|apply GetCurrentState_eq].
    eexists. split; [done|]. by simplify_map_eq.
  - destruct (fetchNumbers_1_fails up numberType authToken Hfail) as [err He].
    destruct (others_total store1 gap1) as [seen1 H1].
    destruct (others_total seen1 gap2) as [seen2 H2].
    unfold Among.handler_among. rewrite Hg1, Hg2, Hty, <- Htok, He.
    rewrite H1. simpl. rewrite H2. simpl. rewrite !GetCurrentState_eq.
    eexists _, _, seen1, seen2. split; [done|]. split; [done|].
    split; [reflexivity|]. simpl. split; [done|]. split; [done|].
    by simplify_map_eq.
  - destruct (fetchNumbers_2_fails up numberType authToken Hfail) as [err He].
    exists err. unfold Variant2.handler, Among.handler_among2.
    change Variant2.numberTypes with Variant1.numberTypes.
    by rewrite Hg1, Hg2, Hty, <- Htok, He.
Qed.

Lemma failed_fetch_leaves_window_witness :
  (∃ r h, Variant1.handler {| Variant1.numbers := [4; 7; 9] |}
            even_request timed_out
          = Some (r, {| Variant1.numbers := [4; 7; 9] |})
          ∧ code r = StatusInternalServerError
          ∧ payload r = H h
          ∧ h !! "numbers" = Some JNil
          ∧ reports_unchanged r [4; 7; 9]
              (float64_div (float64_of_int 20) (float64_of_int 3))
          ∧ [4; 7; 9] = [4; 7; 9])
  ∧ (∃ r h seen1 seen2,
       Among.others {| Variant1.numbers := [4; 7; 9] |} [[5]] = Some seen1
       ∧ Among.others seen1 [[7; 1]] = Some seen2
       ∧ Among.handler_among {| Variant1.numbers := [4; 7; 9] |}
           even_request timed_out [[5]] [[7; 1]]
         = Some (r, seen2)
       ∧ code r = StatusInternalServerError
       ∧ payload r = H h
       ∧ is_Some (h !! "error")
       ∧ h !! "windowPrevState" = Some (JInts [4; 7; 9])
       ∧ h !! "windowCurrState" = Some (JInts (Variant1.numbers seen1))
       ∧ h !! "numbers" = Some JNil
       ∧ h !! "avg" = Some (JFloat (Variant1.GetAverage seen2)))
  ∧ (∃ err,
       Variant2.handler {| Variant2.numbers := [4; 7; 9] |}
         even_request timed_out
       = Some (JSON StatusInternalServerError
                 (H (<["error" := JString err]> ∅)),
               {| Variant2.numbers := [4; 7; 9] |})
       ∧ Among.handler_among2 {| Variant2.numbers := [4; 7; 9] |}
           even_request timed_out [[5]] [[7; 1]]
         = Some (JSON StatusInternalServerError
                   (H (<["error" := JString err]> ∅)),
                 {| Variant2.numbers := [4; 7; 9] |})).
Proof.
  apply (failed_fetch_leaves_window
           {| Variant1.numbers := [4; 7; 9] |}
           {| Variant2.numbers := [4; 7; 9] |}
           even_request timed_out "even" "t" [[5]] [[7; 1]]).
  - repeat split; first [discriminate | reflexivity].
  - right; left. eexists. reflexivity.
Defined.

(** Among other requests the two states that variant 1 reports after a
    failed fetch need not be one window: here another request merges
    [5] between the two reads, and [1] before the average is taken. *)
Example failed_fetch_among_others :
  Among.handler_among {| Variant1.numbers := [4; 7; 9] |}
    even_request timed_out [[5]] [[7; 1]]
  = Some (JSON StatusInternalServerError
            (H (<["avg" := JFloat (float64_div (float64_of_int 26)
                                     (float64_of_int 5))]>
               (<["numbers" := JNil]>
               (<["windowCurrState" := JInts [4; 7; 9; 5]]>
               (<["windowPrevState" := JInts [4; 7; 9]]>
               (<["error" := JString
                    "Failed to fetch numbers: failed to make request: timeout"]>
                ∅)))))),
          {| Variant1.numbers := [4; 7; 9; 5; 1] |}).
Proof. by vm_compute. Qed.

End Claims2.

(** ** Slices on the heap refine slices as lists *)

Section HeapFacts.
Import Go SliceHeap.
Local Open Scope nat_scope.

Variable grow : nat -> nat.

Lemma holds_length (h : heap) (s : slice) (l : list Z) :
  holds h s l -> length l = slen s.
Proof.
  intros (arr & _ & Hcap & Hlen & <-). unfold window.
  rewrite length_take, length_drop. lia.
Qed.

Lemma holds_allocated (h : heap) (s : slice) (l : list Z) :
  holds h s l -> ptr s < length h.
Proof. intros (arr & Harr & _). by eapply lookup_lt_Some. Qed.

Lemma holds_frame (a : nat) (h h' : heap) (s : slice) (l : list Z) :
  holds h s l -> frame a h h' -> ptr s ≠ a -> holds h' s l.
Proof.
  intros Hs [_ Hfr] Hne. pose proof (holds_allocated _ _ _ Hs) as Hlt.
  destruct Hs as (arr & Harr & Hrest). exists arr. split; [|done].
  by rewrite Hfr.
Qed.

Lemma frame_trans (a a' : nat) (h0 h h' : heap) :
  frame a h0 h -> frame a' h h' -> a' = a ∨ length h0 <= a' ->
  frame a h0 h'.
Proof.
  intros [Hl1 H1] [Hl2 H2] Ha. split; [lia|].
  intros b Hb Hne. rewrite H2, H1; [done..| lia | lia].
Qed.

Lemma frame_alloc (a : nat) (h : heap) (arr : list Z) :
  frame a h (h ++ [arr]).
Proof.
  split; [rewrite length_app; lia|].
  intros b Hb _. by rewrite lookup_app_l.
Qed.

Lemma frame_write (a : nat) (h : heap) (arr : list Z) :
  frame a h (<[a := arr]> h).
Proof.
  split; [by rewrite length_insert|].
  intros b _ Hne. by rewrite list_lookup_insert_ne.
Qed.

Lemma index_holds (h : heap) (s : slice) (l : list Z) (i : nat) (v : Z) :
  holds h s l -> l !! i = Some v -> index s i h = Some (v, h).
Proof.
  intros Hs Hi. pose proof (holds_length _ _ _ Hs) as Hlen.
  pose proof (lookup_lt_Some _ _ _ Hi) as Hlt.
  destruct Hs as (arr & Harr & Hcap & Hle & <-).
  unfold index. rewrite decide_True by lia.
  rewrite Harr. simpl. unfold window in Hi.
  rewrite lookup_take_lt, lookup_drop in Hi by lia.
  by rewrite Hi.
Qed.

Lemma make_holds (n : nat) (h : heap) :
  ∃ s, make n h = Some (s, h ++ [replicate n 0%Z])
       ∧ ptr s = length h
       ∧ holds (h ++ [replicate n 0%Z]) s (replicate n 0%Z).
Proof.
  eexists. split; [reflexivity|]. split; [reflexivity|].
  exists (replicate n 0%Z). simpl.
  rewrite lookup_app_r, Nat.sub_diag by lia.
  rewrite length_replicate.
  split; [done|]. split; [lia|]. split; [lia|].
  unfold window. simpl. rewrite drop_0. apply firstn_all2.
  rewrite length_replicate. lia.
Qed.

Lemma copy_holds (h : heap) (dst src : slice) (ld ls : list Z) :
  holds h dst ld -> holds h src ls -> ptr dst ≠ ptr src ->
  ∃ h', copy dst src h = Some (Nat.min (slen dst) (slen src), h')
        ∧ holds h' dst (copy_ints ld ls)
        ∧ frame (ptr dst) h h'.
Proof.
  intros Hd Hs Hne.
  pose proof (holds_length _ _ _ Hd) as Hld.
  pose proof (holds_length _ _ _ Hs) as Hls.
  pose proof (holds_allocated _ _ _ Hd) as Had.
  destruct Hd as (to & Hto & Hcapd & Hled & Hwd).
  destruct Hs as (from & Hfrom & Hcaps & Hles & Hws).
  unfold copy. rewrite Hfrom, Hto. simpl.
  eexists. split; [reflexivity|]. split; [|apply frame_write].
  eexists. split; [by apply list_lookup_insert_eq|].
  set (n := Nat.min (slen dst) (slen src)).
  assert (Hn : length (take n (window from src)) = n).
  { rewrite Hws, length_take. lia. }
  split; [|split; [done|]].
  - rewrite !length_app, length_take, length_drop, Hn. lia.
  - unfold window at 1.
    rewrite drop_app_length' by (rewrite length_take; lia).
    rewrite take_app_ge by lia. rewrite Hn, Hws.
    unfold copy_ints. rewrite Hld, Hls. fold n. f_equal.
    rewrite <- Hwd. unfold window.
    rewrite skipn_firstn_comm, drop_drop. done.
Qed.

Lemma window_snoc (arr : list Z) (s : slice) (x : Z) :
  off s + scap s <= length arr -> slen s < scap s ->
  window (<[off s + slen s := x]> arr)
    (Slice (ptr s) (off s) (S (slen s)) (scap s))
  = window arr s ++ [x].
Proof.
  intros Hcap Hlt. unfold window. simpl.
  rewrite drop_insert_ge by lia.
  replace (off s + slen s - off s) with (slen s) by lia.
  erewrite take_S_r
    by (apply list_lookup_insert_eq; rewrite length_drop; lia).
  by rewrite take_insert_ge.
Qed.

Lemma append_holds (h : heap) (s : slice) (l : list Z) (x : Z) :
  holds h s l ->
  ∃ s' h', append grow s x h = Some (s', h')
           ∧ holds h' s' (l ++ [x])
           ∧ frame (ptr s) h h'
           ∧ (ptr s' = ptr s ∨ ptr s' = length h).
Proof.
  intros Hs. pose proof (holds_length _ _ _ Hs) as Hl.
  pose proof (holds_allocated _ _ _ Hs) as Ha.
  destruct Hs as (arr & Harr & Hcap & Hle & Hw).
  unfold append. rewrite Harr. simpl. case_decide as Hroom.
  - eexists _, _. split; [reflexivity|].
    split; [|split; [apply frame_write | by left]].
    eexists. simpl. split; [by apply list_lookup_insert_eq|].
    rewrite length_insert. split; [done|]. split; [lia|].
    rewrite <- Hw. by apply window_snoc.
  - eexists _, _. split; [reflexivity|].
    split; [|split; [apply frame_alloc | by right]].
    eexists. simpl. rewrite lookup_app_r, Nat.sub_diag by lia.
    split; [reflexivity|].
    rewrite Hw, length_app. simpl. rewrite length_replicate, Hl.
    split; [lia|]. split; [lia|].
    unfold window. simpl. rewrite drop_0.
    rewrite cons_middle, app_assoc, take_app_length'; [done|].
    rewrite length_app. simpl. lia.
Qed.

Lemma range_mark_holds (h : heap) (s : slice) (l : list Z) :
  holds h s l ->
  ∀ n i m, i + n <= slen s ->
    range_mark s i n m h
    = Some (Variant1.mark_all m (take n (drop i l)), h).
Proof.
  intros Hs. pose proof (holds_length _ _ _ Hs) as Hl.
  induction n as [|n IH]; intros i m Hin; simpl; [done|].
  destruct (lookup_lt_is_Some_2 l i) as [v Hv]; [lia|].
  unfold bind. rewrite (index_holds _ _ _ _ _ Hs Hv).
  rewrite IH by lia.
  by rewrite (drop_S _ _ _ Hv).
Qed.

Lemma range_add_holds (batch : slice) (b : list Z) :
  ∀ n i nums m h l,
    holds h batch b -> holds h nums l -> ptr batch ≠ ptr nums ->
    i + n <= slen batch ->
    ∃ nums' h',
      range_add grow batch i n nums m h
      = Some ((nums', (Variant1.add_unique l m (take n (drop i b))).2), h')
      ∧ holds h' nums' (Variant1.add_unique l m (take n (drop i b))).1
      ∧ holds h' batch b
      ∧ frame (ptr nums) h h'
      ∧ (ptr nums' = ptr nums ∨ length h <= ptr nums').
Proof.
  induction n as [|n IH]; intros i nums m h l Hb Hn Hne Hin; simpl.
  - exists nums, h. repeat split; try done. by left.
  - pose proof (holds_length _ _ _ Hb) as Hl.
    destruct (lookup_lt_is_Some_2 b i) as [v Hv]; [lia|].
    unfold bind at 1. rewrite (index_holds _ _ _ _ _ Hb Hv).
    rewrite (drop_S _ _ _ Hv). simpl.
    destruct (negb (map_index m v)).
    + destruct (append_holds h nums l v Hn) as (s' & h1 & Happ & Hs' & Hfr & Hp).
      unfold bind. rewrite Happ.
      pose proof (holds_allocated _ _ _ Hb) as Hab.
      assert (Hb1 : holds h1 batch b) by (by eapply holds_frame).
      destruct (IH (S i) s' (<[v := true]> m) h1 (append_int l v) Hb1 Hs')
        as (nums' & h' & Hrun & Hn' & Hb' & Hfr' & Hp'); [lia | lia |].
      exists nums', h'. split; [done|]. split; [done|]. split; [done|].
      destruct Hfr as [Hlen Hfr]. split.
      * eapply frame_trans; [by split | done | lia].
      * destruct Hfr' as [Hlen' _]. lia.
    + by apply IH; [..| lia].
Qed.

Lemma slice_from_holds (h : heap) (s : slice) (l : list Z) (k : nat) :
  holds h s l -> k <= slen s ->
  ∃ s', slice_from s k h = Some (s', h)
        ∧ holds h s' (drop k l)
        ∧ ptr s' = ptr s.
Proof.
  intros (arr & Harr & Hcap & Hle & Hw) Hk.
  unfold slice_from. rewrite decide_True by done.
  eexists. split; [reflexivity|]. split; [|reflexivity].
  exists arr. simpl. split; [done|]. split; [lia|]. split; [lia|].
  rewrite <- Hw. unfold window. simpl.
  by rewrite skipn_firstn_comm, drop_drop.
Qed.

(** [AddNumbers] on the heap does to the elements what [AddNumbers]
    on lists says; the slice returned sits in an array allocated by
    the call, and no array other than the window's is written. *)
Lemma AddNumbers_refines (h : heap) (ns : NumberStore) (batch : slice)
    (w b : list Z) :
  holds h (numbers ns) w -> holds h batch b ->
  ptr batch ≠ ptr (numbers ns) ->
  ∃ prev ns' h',
    AddNumbers grow ns batch h = Some ((prev, ns'), h')
    ∧ holds h' prev w
    ∧ holds h' (numbers ns')
        (Spec.last_n WindowSize (w ++ Spec.accepted w b))
    ∧ holds h' batch b
    ∧ ptr prev = length h
    ∧ ptr (numbers ns') ≠ ptr prev
    ∧ frame (ptr (numbers ns)) h h'.
Proof.
  intros Hw Hb Hsep.
  pose proof (holds_length _ _ _ Hw) as Hlw.
  pose proof (holds_length _ _ _ Hb) as Hlb.
  pose proof (holds_allocated _ _ _ Hw) as Haw.
  pose proof (holds_allocated _ _ _ Hb) as Hab.
  unfold AddNumbers.
  (* prevState := make([]int, len(ns.numbers)) *)
  destruct (make_holds (slen (numbers ns)) h) as (prev & Hmk & Hpp & Hprev).
  set (h1 := h ++ [replicate (slen (numbers ns)) 0%Z]) in *.
  assert (Hf1 : ∀ a, frame a h h1) by (intros a; apply frame_alloc).
  assert (Hw1 : holds h1 (numbers ns) w)
    by (eapply holds_frame; [done | apply (Hf1 (length h)) | lia]).
  assert (Hb1 : holds h1 batch b)
    by (eapply holds_frame; [done | apply (Hf1 (length h)) | lia]).
  unfold bind at 1. rewrite Hmk.
  (* copy(prevState, ns.numbers) *)
  destruct (copy_holds h1 prev (numbers ns) _ w Hprev Hw1)
    as (h2 & Hcp & Hprev2 & Hf2); [lia|].
  replace (copy_ints (replicate (slen (numbers ns)) 0%Z) w) with w in Hprev2.
  2:{ rewrite <- (copy_make w) at 1. unfold make_ints, len.
      by rewrite Nat2Z.id, Hlw. }
  assert (Hw2 : holds h2 (numbers ns) w)
    by (eapply holds_frame; [done | done | lia]).
  assert (Hb2 : holds h2 batch b)
    by (eapply holds_frame; [done | done | lia]).
  unfold bind at 1. rewrite Hcp.
  (* the two loops *)
  unfold bind at 1.
  rewrite (range_mark_holds h2 (numbers ns) w Hw2) by lia.
  rewrite drop_0, firstn_all2 by lia.
  destruct (range_add_holds batch b (slen batch) 0 (numbers ns)
              (Variant1.mark_all ∅ w) h2 w Hb2 Hw2 Hsep)
    as (nums & h3 & Hrun & Hn3 & Hb3 & Hf3 & Hp3); [lia|].
  rewrite drop_0, firstn_all2 in Hrun, Hn3 by lia.
  pose proof (add_unique_accepted w (Variant1.mark_all ∅ w) b
                (mark_all_empty w)) as [Hacc _].
  rewrite Hacc in Hn3.
  unfold bind at 1. rewrite Hrun.
  assert (Hprev3 : holds h3 prev w)
    by (eapply holds_frame; [done | done | lia]).
  assert (Hlen2 : length h < length h2).
  { destruct Hf2 as [Hl2 _]. unfold h1 in Hl2.
    rewrite length_app in Hl2. simpl in Hl2. lia. }
  assert (Hfr : frame (ptr (numbers ns)) h h3).
  { eapply frame_trans; [|exact Hf3| by left].
    eapply frame_trans; [apply Hf1 | exact Hf2 | lia]. }
  pose proof (holds_length _ _ _ Hn3) as Hln.
  (* the cut to WindowSize *)
  unfold Spec.last_n. case_decide as Hbig.
  - destruct (slice_from_holds h3 nums _ (slen nums - WindowSize) Hn3)
      as (nums' & Hsl & Hn' & Hp'); [lia|].
    unfold bind. rewrite Hsl. eexists _, _, _. split; [reflexivity|].
    simpl. rewrite Hln.
    split; [done|]. split; [done|]. split; [done|]. split; [done|].
    split; [lia | done].
  - unfold bind, ret. eexists _, _, _. split; [reflexivity|].
    simpl. rewrite Hln.
    replace (slen nums - WindowSize) with 0 by lia.
    split; [done|]. split; [done|]. split; [done|]. split; [done|].
    split; [lia | done].
Qed.

End HeapFacts.

Section Claims3.
Import Go SliceHeap.
Local Open Scope nat_scope.

(** C4. [AddNumbers] returns a copy of the window as it was before
    the call: the slice returned holds the elements the window held, in
    an array allocated by the call, which is none of the arrays in use
    before and not the array of the window afterwards; the store itself
    is updated to the merged window; and whatever is merged into the
    store later, the slice returned still holds the same elements. *)
Theorem snapshot_is_a_copy
    (grow : nat -> nat) (h : heap) (ns : NumberStore) (newNumbers : slice)
    (w b : list Z)
    (Hw : holds h (numbers ns) w)
    (Hb : holds h newNumbers b)
    (Hsep : ptr newNumbers ≠ ptr (numbers ns)) :
  ∃ prevState ns' h' w',
    AddNumbers grow ns newNumbers h = Some ((prevState, ns'), h')
    ∧ Variant1.AddNumbers {| Variant1.numbers := w |} b
      = Some (w, {| Variant1.numbers := w' |})
    ∧ holds h' prevState w
    ∧ holds h' (numbers ns') w'
    ∧ ptr prevState = length h
    ∧ ptr prevState ≠ ptr (numbers ns')
    ∧ ∀ later b2 r h'',
        holds h' later b2 -> ptr later ≠ ptr (numbers ns') ->
        AddNumbers grow ns' later h' = Some (r, h'') ->
        holds h'' prevState w.
Proof.
  destruct (AddNumbers_refines grow h ns newNumbers w b Hw Hb Hsep)
    as (prev & ns' & h' & Hrun & Hprev & Hns' & _ & Hfresh & Hne & _).
  exists prev, ns', h', (Spec.last_n WindowSize (w ++ Spec.accepted w b)).
  split; [done|]. split; [apply AddNumbers_eq|].
  split; [done|]. split; [done|]. split; [done|]. split; [done|].
  intros later b2 r h'' Hlater Hsep2 Hrun2.
  destruct (AddNumbers_refines grow h' ns' later _ b2 Hns' Hlater Hsep2)
    as (prev2 & ns2 & h2 & Hrun2' & _ & _ & _ & _ & _ & Hfr).
  rewrite Hrun2 in Hrun2'. injection Hrun2' as _ ->.
  eapply holds_frame; [done | done | done].
Qed.

(** The new value is written into the spare room of the window's own
    array; the slice returned is the new array at address 3. *)
Example AddNumbers_heap0 :
  AddNumbers (λ c, 2 * c) store0 batch0 heap0
  = Some ((Slice 3 0 3 3, {| numbers := Slice 1 0 4 4 |}),
          [[]; [4; 7; 9; 2]; [7; 2]; [4; 7; 9]]%Z).
Proof. reflexivity. Qed.

Lemma snapshot_is_a_copy_witness :
  ∃ prevState ns' h',
    AddNumbers (λ c, 2 * c) store0 batch0 heap0
    = Some ((prevState, ns'), h')
    ∧ holds h' prevState [4; 7; 9]%Z
    ∧ holds h' (numbers ns') [4; 7; 9; 2]%Z
    ∧ ptr prevState = 3
    ∧ ptr prevState ≠ ptr (numbers ns').
Proof.
  destruct (snapshot_is_a_copy (λ c, 2 * c) heap0 store0 batch0
              [4; 7; 9]%Z [7; 2]%Z)
    as (prev & ns' & h' & w' & H1 & H2 & H3 & H4 & H5 & H6 & _).
  - exists [4; 7; 9; 0]%Z. repeat split; simpl; lia.
  - exists [7; 2]%Z. repeat split; simpl; lia.
  - simpl. lia.
  - vm_compute in H2. injection H2 as <-.
    exists prev, ns', h'. repeat split; assumption.
Defined.

End Claims3.

(** ** The store under any schedule *)

Section Atomicity.
Import Go Spec Concurrent.
Local Open Scope nat_scope.

Lemma count_insert (f : thread -> bool) (ts : list thread) (i : nat)
    (t t' : thread) :
  ts !! i = Some t ->
  count f (<[i := t']> ts) + (if f t then 1 else 0)
  = count f ts + (if f t' then 1 else 0).
Proof.
  unfold count. revert i. induction ts as [|x ts IH]; intros i Hi; [done|].
  destruct i as [|i]; simpl in *.
  - injection Hi as ->. destruct (f t), (f t'); simpl; lia.
  - specialize (IH i Hi). destruct (f x); simpl; lia.
Qed.

Lemma count_pos (f : thread -> bool) (ts : list thread) (i : nat) (t : thread) :
  ts !! i = Some t -> f t = true -> 0 < count f ts.
Proof.
  unfold count. revert i. induction ts as [|x ts IH]; intros i Hi Hf; [done|].
  destruct i as [|i]; simpl in *.
  - injection Hi as ->. rewrite Hf. simpl. lia.
  - specialize (IH i Hi Hf). destruct (f x); simpl; lia.
Qed.


Lemma lookup_moved (ts : list thread) (i j : nat) (t' tj : thread) :
  <[i := t']> ts !! j = Some tj ->
  (j = i ∧ tj = t') ∨ (j ≠ i ∧ ts !! j = Some tj).
Proof.
  rewrite list_lookup_insert_Some. intros [(-> & -> & _)|[Hne Hj]]; [by left|].
  right. split; [congruence | done].
Qed.

Lemma merged_eq (w b : list Z) :
  merged w b = last_n (Z.to_nat Variant1.WindowSize) (w ++ accepted w b).
Proof. unfold merged. by rewrite AddNumbers_eq. Qed.

Lemma replay_snoc (lg : list (nat * list Z)) (i : nat) (b : list Z) :
  replay (lg ++ [(i, b)]) = merged (replay lg) b.
Proof. unfold replay. by rewrite fmap_app, foldl_app. Qed.

Lemma in_write_held nums held lg i t :
  in_write t = true -> local_ok nums held lg i t -> held = true.
Proof. destruct t; simpl; try done; by intros _ [? _]. Qed.

Lemma in_read_free nums held lg i t :
  in_read t = true -> local_ok nums held lg i t -> held = false.
Proof. destruct t; simpl; try done; by intros _ [? _]. Qed.

(** A goroutine outside both sections is not affected by what the
    others do to the store, nor by the log growing. *)
Lemma local_ok_outside nums held lg nums' held' ext j t :
  in_write t = false -> in_read t = false ->
  local_ok nums held lg j t -> local_ok nums' held' (lg ++ ext) j t.
Proof.
  destruct t as [| | | | | | | | | | | | | | |c r]; simpl; try done.
  intros _ _. destruct c, r; try done.
  - intros (k & Hk & ->). exists k.
    pose proof (lookup_lt_Some _ _ _ Hk).
    rewrite lookup_app_l, take_app_le by lia. done.
  - intros (k & Hk & ->). exists k. rewrite length_app, take_app_le by lia.
    split; [lia | done].
  - intros (k & Hk & ->). exists k. rewrite length_app, take_app_le by lia.
    split; [lia | done].
Qed.

Lemma moved_flag {B} (f : thread -> B) (ts : list thread) (i : nat)
    (t t' : thread) :
  ts !! i = Some t -> f t' = f t ->
  ∀ j y, (∃ tj, <[i := t']> ts !! j = Some tj ∧ f tj = y)
         ↔ (∃ tj, ts !! j = Some tj ∧ f tj = y).
Proof.
  intros Hi Hf j y. pose proof (lookup_lt_Some _ _ _ Hi) as Hlt. split.
  - intros (tj & Hj & Hy). apply lookup_moved in Hj as [[-> ->]|[_ Hj]].
    + exists t. split; [done | congruence].
    + by exists tj.
  - intros (tj & Hj & Hy). destruct (decide (j = i)) as [->|Hne].
    + exists t'. rewrite list_lookup_insert_eq by done. split; [done|].
      congruence.
    + exists tj. by rewrite list_lookup_insert_ne.
Qed.

Lemma one_moved (ts : list thread) (i : nat) (t t' : thread) :
  ts !! i = Some t ->
  (in_write t' = true -> in_write t = true) ->
  (∀ j k tj tk, ts !! j = Some tj -> ts !! k = Some tk ->
     in_write tj = true -> in_write tk = true -> j = k) ->
  ∀ j k tj tk, <[i := t']> ts !! j = Some tj -> <[i := t']> ts !! k = Some tk ->
    in_write tj = true -> in_write tk = true -> j = k.
Proof.
  intros Hi Hw Hone j k tj tk Hj Hk Hwj Hwk.
  apply lookup_moved in Hj as [[-> ->]|[Hji Hj]];
    apply lookup_moved in Hk as [[-> ->]|[Hki Hk]]; [done|..].
  - eapply Hone; [exact Hi | exact Hk | auto | done].
  - eapply Hone; [exact Hj | exact Hi | done | auto].
  - eapply Hone; eauto.
Qed.

(** A step that moves goroutine [i] inside the section it is in, or
    outside both, and leaves the mutex alone. *)
Lemma Inv_stay (c : config) (i : nat) (t t' : thread) (nums' : list Z) :
  Inv c -> threads c !! i = Some t ->
  in_write t' = in_write t -> in_read t' = in_read t ->
  locked t' = locked t ->
  nums' = numbers c ∨ in_write t = true ->
  local_ok nums' (writer (mu c)) (log c) i t' ->
  Inv (move c i t' nums' (mu c)).
Proof.
  intros [Hfree Hrd Hone Hsome Hnd Hlog Hloc] Hi Hw Hr Hl Hn Ht'.
  pose proof (Hloc i t Hi) as Hti.
  pose proof (lookup_lt_Some _ _ _ Hi) as Hlt.
  split; simpl.
  - intros Hf. destruct Hn as [-> | Hn]; [auto|].
    rewrite (in_write_held _ _ _ _ _ Hn Hti) in Hf. done.
  - pose proof (count_insert in_read _ _ _ t' Hi) as Hc.
    rewrite Hr in Hc. destruct (in_read t); lia.
  - eapply one_moved; [done | congruence | done].
  - intros Hheld. destruct (Hsome Hheld) as (j & tj & Hj & Hwj).
    destruct (proj2 (moved_flag in_write _ _ _ t' Hi Hw j true))
      as (tj' & ? & ?); eauto.
  - done.
  - intros j b. rewrite Hlog. symmetry.
    apply (moved_flag locked _ _ _ _ Hi Hl).
  - intros j tj Hj. apply lookup_moved in Hj as [[-> ->]|[Hne Hj]]; [done|].
    pose proof (Hloc j tj Hj) as Hok.
    destruct Hn as [-> | Hn]; [done|].
    rewrite <- (app_nil_r (log c)). eapply local_ok_outside; [ | | exact Hok].
    + destruct (in_write tj) eqn:E; [|done]. exfalso. apply Hne.
      eapply Hone; eauto.
    + destruct (in_read tj) eqn:E; [|done].
      pose proof (in_read_free _ _ _ _ _ E Hok).
      pose proof (in_write_held _ _ _ _ _ Hn Hti). congruence.
Qed.

(** [Lock]. *)
Lemma Inv_lock (c : config) (i : nat) (b : list Z) :
  Inv c -> threads c !! i = Some (A_Lock b) ->
  writer (mu c) = false -> readers (mu c) = 0 ->
  Inv {| numbers := numbers c;
         mu := {| writer := true; readers := readers (mu c) |};
         threads := <[i := A_Snapshot b]> (threads c);
         log := log c ++ [(i, b)] |}.
Proof.
  intros [Hfree Hrd Hone Hsome Hnd Hlog Hloc] Hi Hw Hr.
  pose proof (lookup_lt_Some _ _ _ Hi) as Hlt.
  assert (Hnone : ∀ j tj, threads c !! j = Some tj -> in_write tj = false).
  { intros j tj Hj. destruct (in_write tj) eqn:E; [|done].
    pose proof (in_write_held _ _ _ _ _ E (Hloc j tj Hj)). congruence. }
  assert (Hnew : ∀ b', (i, b') ∉ log c).
  { intros b' Hin. apply Hlog in Hin as (t & Ht & Hb).
    rewrite Hi in Ht. injection Ht as <-. done. }
  split; simpl.
  - done.
  - pose proof (count_insert in_read _ _ _ (A_Snapshot b) Hi) as Hc.
    simpl in Hc. lia.
  - intros j k tj tk Hj Hk Hwj Hwk.
    apply lookup_moved in Hj as [[-> ->]|[Hji Hj]];
      apply lookup_moved in Hk as [[-> ->]|[Hki Hk]]; [done|..].
    + rewrite (Hnone _ _ Hk) in Hwk. done.
    + rewrite (Hnone _ _ Hj) in Hwj. done.
    + rewrite (Hnone _ _ Hj) in Hwj. done.
  - intros _. exists i, (A_Snapshot b).
    by rewrite list_lookup_insert_eq.
  - rewrite fmap_app. apply NoDup_app. split; [done|]. split.
    + intros x Hx Hxi. apply list_elem_of_singleton in Hxi. simpl in Hxi.
      subst x. apply list_elem_of_fmap in Hx as ([j b'] & Hj & Hin).
      simpl in Hj. subst j. by eapply Hnew.
    + apply NoDup_singleton.
  - intros j b'. rewrite elem_of_app, list_elem_of_singleton, Hlog. split.
    + intros [(tj & Hj & Hb)|Heq].
      * exists tj. split; [|done]. rewrite list_lookup_insert_ne; [done|].
        intros ->. rewrite Hi in Hj. injection Hj as <-. done.
      * injection Heq as -> ->. exists (A_Snapshot b).
        by rewrite list_lookup_insert_eq.
    + intros (tj & Hj & Hb).
      apply lookup_moved in Hj as [[-> ->]|[Hne Hj]].
      * right. simpl in Hb. congruence.
      * left. by exists tj.
  - intros j tj Hj. apply lookup_moved in Hj as [[-> ->]|[Hne Hj]].
    + simpl. split; [done|]. exists (log c). split; [done | auto].
    + eapply local_ok_outside; [by eapply Hnone | | by apply Hloc].
      destruct (in_read tj) eqn:E; [|done].
      pose proof (count_pos in_read _ _ _ Hj E). lia.
Qed.

(** [Unlock]. *)
Lemma Inv_unlock (c : config) (i : nat) (b prev : list Z) :
  Inv c -> threads c !! i = Some (A_Unlock b prev) ->
  Inv (move c i (Done (CallAddNumbers b) (RetInts prev)) (numbers c)
         {| writer := false; readers := readers (mu c) |}).
Proof.
  intros [Hfree Hrd Hone Hsome Hnd Hlog Hloc] Hi.
  pose proof (lookup_lt_Some _ _ _ Hi) as Hlt.
  pose proof (Hloc i _ Hi) as (Hheld & lg' & Hlg & Hprev & Hnums).
  split; simpl.
  - done.
  - pose proof (count_insert in_read _ _ _
                  (Done (CallAddNumbers b) (RetInts prev)) Hi) as Hc.
    simpl in Hc. lia.
  - eapply one_moved; [done | done | done].
  - done.
  - done.
  - intros j b'. rewrite Hlog. symmetry.
    by apply (moved_flag locked _ _ _ _ Hi).
  - intros j tj Hj. apply lookup_moved in Hj as [[-> ->]|[Hne Hj]].
    + simpl. exists (length lg'). rewrite Hlg.
      rewrite list_lookup_middle by done. by rewrite take_app_length.
    + pose proof (Hloc j tj Hj) as Hok.
      rewrite <- (app_nil_r (log c)). eapply local_ok_outside; [ | | exact Hok].
      * destruct (in_write tj) eqn:E; [|done]. exfalso. apply Hne.
        eapply Hone; eauto.
      * destruct (in_read tj) eqn:E; [|done].
        pose proof (in_read_free _ _ _ _ _ E Hok). congruence.
Qed.

(** [RLock]. *)
Lemma Inv_rlock (c : config) (i : nat) (t t' : thread) :
  Inv c -> threads c !! i = Some t ->
  writer (mu c) = false ->
  in_write t = false -> in_read t = false -> locked t = None ->
  in_write t' = false -> in_read t' = true -> locked t' = None ->
  local_ok (numbers c) false (log c) i t' ->
  Inv (move c i t' (numbers c)
         {| writer := false; readers := S (readers (mu c)) |}).
Proof.
  intros [Hfree Hrd Hone Hsome Hnd Hlog Hloc] Hi Hw Hw0 Hr0 Hl0 Hw1 Hr1 Hl1 Ht'.
  pose proof (lookup_lt_Some _ _ _ Hi) as Hlt.
  split; simpl.
  - auto.
  - pose proof (count_insert in_read _ _ _ t' Hi) as Hc.
    rewrite Hr0, Hr1 in Hc. lia.
  - eapply one_moved; [done | congruence | done].
  - done.
  - done.
  - intros j b'. rewrite Hlog. symmetry.
    apply (moved_flag locked _ _ _ _ Hi). congruence.
  - intros j tj Hj. apply lookup_moved in Hj as [[-> ->]|[Hne Hj]]; [done|].
    rewrite <- Hw. by apply Hloc.
Qed.

(** [RUnlock]. *)
Lemma Inv_runlock (c : config) (i k : nat) (t t' : thread) :
  Inv c -> threads c !! i = Some t ->
  readers (mu c) = S k ->
  in_write t = false -> in_read t = true -> locked t = None ->
  in_write t' = false -> in_read t' = false -> locked t' = None ->
  local_ok (numbers c) (writer (mu c)) (log c) i t' ->
  Inv (move c i t' (numbers c)
         {| writer := writer (mu c); readers := k |}).
Proof.
  intros [Hfree Hrd Hone Hsome Hnd Hlog Hloc] Hi Hk Hw0 Hr0 Hl0 Hw1 Hr1 Hl1 Ht'.
  pose proof (lookup_lt_Some _ _ _ Hi) as Hlt.
  split; simpl.
  - auto.
  - pose proof (count_insert in_read _ _ _ t' Hi) as Hc.
    rewrite Hr0, Hr1 in Hc. lia.
  - eapply one_moved; [done | congruence | done].
  - intros Hheld. destruct (Hsome Hheld) as (j & tj & Hj & Hwj).
    destruct (proj2 (moved_flag in_write _ _ _ t' Hi
                       (eq_trans Hw1 (eq_sym Hw0)) j true))
      as (tj' & ? & ?); eauto.
  - done.
  - intros j b'. rewrite Hlog. symmetry.
    apply (moved_flag locked _ _ _ _ Hi). congruence.
  - intros j tj Hj. apply lookup_moved in Hj as [[-> ->]|[Hne Hj]]; [done|].
    by apply Hloc.
Qed.

Lemma add_unique_snoc (nums : list Z) (m : gmap Z bool) (seen : list Z)
    (x : Z) (nums1 : list Z) (m1 : gmap Z bool) :
  Variant1.add_unique nums m seen = (nums1, m1) ->
  Variant1.add_unique nums m (seen ++ [x])
  = if negb (map_index m1 x)
    then (append_int nums1 x, <[x := true]> m1)
    else (nums1, m1).
Proof.
  revert nums m. induction seen as [|y seen IH]; intros nums m; simpl.
  - intros [= -> ->]. by destruct (negb (map_index m1 x)).
  - destruct (negb (map_index m y)); apply IH.
Qed.

Lemma mark_all_snoc (m : gmap Z bool) (l : list Z) (x : Z) :
  Variant1.mark_all m (l ++ [x]) = <[x := true]> (Variant1.mark_all m l).
Proof. unfold Variant1.mark_all. by rewrite foldl_snoc. Qed.

Lemma sum_loop_snoc (sum : Z) (l : list Z) (x : Z) :
  Variant1.sum_loop sum (l ++ [x]) = int_add (Variant1.sum_loop sum l) x.
Proof. unfold Variant1.sum_loop. by rewrite foldl_snoc. Qed.

Lemma len_zero {A} (l : list A) : (len l =? 0)%Z = true ↔ l = [].
Proof.
  unfold len. rewrite Z.eqb_eq. destruct l; simpl; [done|].
  split; [lia | done].
Qed.

(** Every statement keeps the invariant. *)
Lemma step_Inv (c c' : config) (i : nat) :
  Inv c -> step c i = Some c' -> Inv c'.
Proof.
  intros HI Hstep. unfold step in Hstep.
  destruct (threads c !! i) as [t|] eqn:Hi; simpl in Hstep; [|done].
  pose proof (inv_local c HI i t Hi) as Hok.
  destruct t as [b|b|b prev|b prev n k m|b prev m rest|b prev|b prev
                 | | |n k sum|sum|r| | |cur|cl r]; simpl in Hok.
  - (* Lock *)
    destruct (writer (mu c)) eqn:Hw; simpl in Hstep; [done|].
    case_bool_decide; [|done]. injection Hstep as <-. by apply Inv_lock.
  - (* the copy *)
    injection Hstep as <-. rewrite copy_make.
    destruct Hok as (Hh & lg' & Hlg & Hn).
    apply (Inv_stay c i _ _ _ HI Hi); [done | done | done | by left |].
    simpl. split; [done|]. by exists lg'.
  - (* entering the first loop *)
    injection Hstep as <-.
    destruct Hok as (Hh & lg' & Hlg & Hn & Hp).
    apply (Inv_stay c i _ _ _ HI Hi); [done | done | done | by left |].
    simpl. split; [done|]. exists lg'.
    split; [done|]. split; [done|]. split; [done|]. split; [done|].
    split; [lia | done].
  - (* a round of the first loop *)
    destruct Hok as (Hh & lg' & Hlg & Hn & Hp & Hlen & Hk & Hm).
    case_bool_decide as Hlt.
    + destruct (numbers c !! k) as [num|] eqn:Hnum; simpl in Hstep; [|done].
      injection Hstep as <-.
      apply (Inv_stay c i _ _ _ HI Hi); [done | done | done | by left |].
      simpl. split; [done|]. exists lg'.
      split; [done|]. split; [done|]. split; [done|]. split; [done|].
      split; [lia|].
      by rewrite (take_S_r _ _ _ Hnum), mark_all_snoc, Hm.
    + injection Hstep as <-.
      apply (Inv_stay c i _ _ _ HI Hi); [done | done | done | by left |].
      simpl. split; [done|]. exists lg', [].
      split; [done|]. split; [congruence|]. split; [done|].
      simpl. rewrite Hm, Hp, take_ge by lia. done.
  - (* a round of the second loop *)
    destruct Hok as (Hh & lg' & seen & Hlg & Hp & Hb & Hadd).
    destruct rest as [|num rest'].
    + injection Hstep as <-.
      apply (Inv_stay c i _ _ _ HI Hi); [done | done | done | by left |].
      simpl. split; [done|]. exists lg'.
      split; [done|]. split; [done|].
      rewrite app_nil_r in Hb. subst seen. by rewrite Hadd.
    + pose proof (add_unique_snoc _ _ _ num _ _ Hadd) as Hsnoc.
      assert (Hb' : b = (seen ++ [num]) ++ rest')
        by (by rewrite <- app_assoc).
      destruct (negb (map_index m num)); injection Hstep as <-.
      * apply (Inv_stay c i _ _ _ HI Hi); [done | done | done | by right |].
        simpl. split; [done|]. by exists lg', (seen ++ [num]).
      * apply (Inv_stay c i _ _ _ HI Hi); [done | done | done | by left |].
        simpl. split; [done|]. by exists lg', (seen ++ [num]).
  - (* the cut *)
    destruct Hok as (Hh & lg' & Hlg & Hp & Hnums).
    rewrite shrink_last in Hstep. simpl in Hstep. injection Hstep as <-.
    apply (Inv_stay c i _ _ _ HI Hi); [done | done | done | by right |].
    simpl. split; [done|]. exists lg'.
    split; [done|]. split; [done|].
    rewrite Hlg, replay_snoc, merged_eq, <- Hp, <- Hnums.
    f_equal. apply add_unique_accepted, mark_all_empty.
  - (* Unlock *)
    destruct (writer (mu c)); [|done]. injection Hstep as <-.
    by apply Inv_unlock.
  - (* RLock, GetAverage *)
    destruct (writer (mu c)) eqn:Hw; simpl in Hstep; [done|].
    injection Hstep as <-. by apply (Inv_rlock c i _ _ HI Hi).
  - (* the test on the length *)
    destruct (len (numbers c) =? 0)%Z eqn:Hlen; injection Hstep as <-.
    + apply len_zero in Hlen.
      apply (Inv_stay c i _ _ _ HI Hi); [done | done | done | by left |].
      simpl. split; [done|]. by rewrite Hlen.
    + assert (Hne : numbers c ≠ []).
      { intros Hnil. apply len_zero in Hnil. congruence. }
      apply (Inv_stay c i _ _ _ HI Hi); [done | done | done | by left |].
      simpl. split; [done|]. split; [done|]. split; [lia|]. done.
  - (* a round of the sum *)
    destruct Hok as (Hh & Hn & Hk & Hne & Hsum).
    case_bool_decide as Hlt.
    + destruct (numbers c !! k) as [num|] eqn:Hnum; simpl in Hstep; [|done].
      injection Hstep as <-.
      apply (Inv_stay c i _ _ _ HI Hi); [done | done | done | by left |].
      simpl. split; [done|]. split; [done|]. split; [lia|]. split; [done|].
      by rewrite (take_S_r _ _ _ Hnum), sum_loop_snoc, Hsum.
    + injection Hstep as <-.
      apply (Inv_stay c i _ _ _ HI Hi); [done | done | done | by left |].
      simpl. split; [done|]. split; [done|].
      rewrite Hsum, take_ge by lia. done.
  - (* the division *)
    destruct Hok as (Hh & Hne & Hsum). injection Hstep as <-.
    apply (Inv_stay c i _ _ _ HI Hi); [done | done | done | by left |].
    simpl. split; [done|]. unfold Variant1.GetAverage. simpl.
    destruct (len (numbers c) =? 0)%Z eqn:Hlen.
    { apply len_zero in Hlen. done. }
    by rewrite Hsum.
  - (* RUnlock, GetAverage *)
    destruct Hok as (Hh & Hr).
    destruct (readers (mu c)) as [|k] eqn:Hrd; [done|].
    injection Hstep as <-.
    apply (Inv_runlock c i k _ _ HI Hi); try done.
    simpl. exists (length (log c)). split; [done|].
    rewrite take_ge by done. by rewrite <- (inv_free c HI Hh).
  - (* RLock, GetCurrentState *)
    destruct (writer (mu c)) eqn:Hw; simpl in Hstep; [done|].
    injection Hstep as <-. by apply (Inv_rlock c i _ _ HI Hi).
  - (* the copy, GetCurrentState *)
    injection Hstep as <-. rewrite copy_make.
    apply (Inv_stay c i _ _ _ HI Hi); [done | done | done | by left |].
    by simpl.
  - (* RUnlock, GetCurrentState *)
    destruct Hok as (Hh & Hr).
    destruct (readers (mu c)) as [|k] eqn:Hrd; [done|].
    injection Hstep as <-.
    apply (Inv_runlock c i k _ _ HI Hi); try done.
    simpl. exists (length (log c)). split; [done|].
    rewrite take_ge by done. by rewrite <- (inv_free c HI Hh).
  - done.
Qed.

Lemma start_Inv (calls : list call) : Inv (start calls).
Proof.
  assert (Hsp : ∀ i t, (spawn <$> calls) !! i = Some t ->
            in_write t = false ∧ in_read t = false ∧ locked t = None
            ∧ finished t = false).
  { intros i t Hi. apply list_lookup_fmap_Some in Hi as (cl & -> & _).
    by destruct cl. }
  split; simpl.
  - done.
  - unfold count. induction calls as [|cl calls IH]; [done|].
    simpl. destruct cl; simpl; apply IH;
      intros i t Hi; apply (Hsp (S i) t Hi).
  - intros i j ti tj Hi _ Hw. apply Hsp in Hi as [Hi _]. congruence.
  - done.
  - constructor.
  - intros i b. split; [inversion 1|].
    intros (t & Hi & Hl). apply Hsp in Hi as (_ & _ & Hi & _). congruence.
  - intros i t Hi. apply list_lookup_fmap_Some in Hi as (cl & -> & _).
    by destruct cl.
Qed.

Lemma run_Inv (c : config) (schedule : list nat) :
  Inv c -> Inv (run c schedule).
Proof.
  revert c. induction schedule as [|i schedule IH]; intros c HI; [done|].
  simpl. apply IH. unfold turn.
  destruct (step c i) as [c'|] eqn:Hstep; [|done].
  by eapply step_Inv.
Qed.









Example run_schedule1 :
  let c := run (start calls0) schedule1 in
  numbers c = [7; 2; 4; 9]%Z
  ∧ log c = [(2, [7; 2]%Z); (0, [4; 7; 7; 9]%Z)]
  ∧ threads c
    = [Done (CallAddNumbers [4; 7; 7; 9]%Z) (RetInts [7; 2]%Z);
       Done CallGetAverage
         (RetFloat (float64_div (float64_of_int 9) (float64_of_int 2)));
       Done (CallAddNumbers [7; 2]%Z) (RetInts [])].
Proof. vm_compute. repeat split. Qed.


End Atomicity.

(** ** The boundary: [fetchNumbers] and the handlers *)

Section Boundary.
Import Go Spec Sides Server.

Lemma fetchNumbers_1_iff
    (up : Upstream) (numberType authToken : string) (nums : list Z) :
  Variant1.fetchNumbers up numberType authToken = inl nums
  ↔ fetch_ok (up (url numberType) authToken) nums.
Proof.
  unfold Variant1.fetchNumbers, fetch_ok, url.
  destruct (up _ authToken) as [e1 e2 e3 st body um]. simpl.
  destruct e1 as [e1|]; [split; [done | intros (? & _); done]|].
  destruct e2 as [e2|]; [split; [done | intros (_ & ? & _); done]|].
  destruct e3 as [e3|]; [split; [done | intros (_ & _ & ? & _); done]|].
  destruct (st =? StatusOK) eqn:Est; simpl.
  2:{ apply Z.eqb_neq in Est.
      split; [done | intros (_ & _ & _ & ? & _); done]. }
  apply Z.eqb_eq in Est.
  destruct um as [[l|]|err];
    [|split; [done | intros (_ & _ & _ & _ & ? & _); done]..].
  destruct l as [|x l]; simpl.
  - split; [done | intros (_ & _ & _ & _ & Hu & Hne)]. congruence.
  - split; [intros [= <-]; done | intros (_ & _ & _ & _ & [= <-] & _); done].
Qed.

Lemma fetchNumbers_2_iff
    (up : Upstream) (numberType authToken : string) (nums : list Z) :
  Variant2.fetchNumbers up numberType authToken = inl nums
  ↔ fetch_ok (up (url numberType) authToken) nums.
Proof.
  unfold Variant2.fetchNumbers, fetch_ok, url.
  change Variant2.NumberServiceURL with Variant1.NumberServiceURL.
  destruct (up _ authToken) as [e1 e2 e3 st body um]. simpl.
  destruct e1 as [e1|]; [split; [done | intros (? & _); done]|].
  destruct e2 as [e2|]; [split; [done | intros (_ & ? & _); done]|].
  destruct e3 as [e3|]; [split; [done | intros (_ & _ & ? & _); done]|].
  destruct (st =? StatusOK) eqn:Est; simpl.
  2:{ apply Z.eqb_neq in Est.
      split; [done | intros (_ & _ & _ & ? & _); done]. }
  apply Z.eqb_eq in Est.
  destruct um as [[l|]|err];
    [|split; [done | intros (_ & _ & _ & _ & ? & _); done]..].
  destruct l as [|x l]; simpl.
  - split; [done | intros (_ & _ & _ & _ & Hu & Hne)]. congruence.
  - split; [intros [= <-]; done | intros (_ & _ & _ & _ & [= <-] & _); done].
Qed.

(** X1. [fetchNumbers] returns numbers exactly when the request could be
    built, sent and read, the status is 200 and the payload decodes to
    a non-empty list, and then it returns that list; it never returns
    an empty list.  This holds of both variants. *)
Theorem fetchNumbers_returns_iff
    (up : Upstream) (numberType authToken : string) (nums : list Z) :
  (Variant1.fetchNumbers up numberType authToken = inl nums
   ↔ fetch_ok (up (url numberType) authToken) nums)
  ∧ (Variant2.fetchNumbers up numberType authToken = inl nums
     ↔ fetch_ok (up (url numberType) authToken) nums)
  ∧ (Variant1.fetchNumbers up numberType authToken = inl nums -> nums ≠ []).
Proof.
  split; [apply fetchNumbers_1_iff|]. split; [apply fetchNumbers_2_iff|].
  intros H. apply fetchNumbers_1_iff in H. apply H.
Qed.

Lemma fetchNumbers_returns_iff_witness :
  let up : Upstream := λ _ _,
    {| newRequestErr := None; doErr := None; readErr := None;
       statusCode := 200; respBody := "{}";
       unmarshal := inl (Some [2; 4; 6; 8]) |} in
  Variant1.fetchNumbers up "even" "t" = inl [2; 4; 6; 8]
  ∧ [2; 4; 6; 8] ≠ ([] : list Z).
Proof.
  intros up.
  destruct (fetchNumbers_returns_iff up "even" "t" [2; 4; 6; 8])
    as (H1 & _ & H3).
  split; [|apply H3]; apply H1; by repeat split.
Defined.

Lemma substring_all (s : string) : String.substring 0 (String.length s) s = s.
Proof. induction s as [|a s IH]; simpl; [done | by rewrite IH]. Qed.

(** A header ["Bearer " ++ token] with a token in it passes the checks,
    and the token is what follows the prefix. *)
Lemma bearer_admitted (rq : Request) (numberType authToken : string) :
  hAuthorization rq = "Bearer " +:+ authToken -> authToken ≠ "" ->
  Variant1.numberTypes !! pNumberid rq = Some numberType ->
  admitted rq numberType authToken.
Proof.
  intros Hh Hne Hty. unfold admitted. rewrite Hh.
  split; [done|]. split.
  { unfold len_string. simpl. destruct authToken; [done|]. simpl. lia. }
  split; [by destruct authToken|]. split; [|done].
  unfold str_from. simpl. by rewrite Nat.sub_0_r, substring_all.
Qed.

Lemma unauthorized_1 (store : Variant1.NumberStore) (rq : Request) :
  bad_authorization rq ->
  ∃ msg, ∀ up, Variant1.handler store rq up
               = Some (JSON StatusUnauthorized
                         (H (<["error" := JString msg]> ∅)), store).
Proof.
  intros Hbad. unfold Variant1.handler.
  destruct (String.eqb (hAuthorization rq) "") eqn:E; [by eexists|].
  apply String.eqb_neq in E.
  destruct ((len_string (hAuthorization rq) <=? 7)
            || negb (String.eqb (str_to (hAuthorization rq) 7) "Bearer "))
    eqn:E2; [by eexists|].
  apply orb_false_iff in E2 as [E2 E3]. apply Z.leb_gt in E2.
  apply negb_false_iff, String.eqb_eq in E3.
  destruct Hbad as [?|[?|?]]; [done | lia | done].
Qed.

Lemma unauthorized_2 (store : Variant2.NumberStore) (rq : Request) :
  bad_authorization rq ->
  ∃ msg, ∀ up, Variant2.handler store rq up
               = Some (JSON StatusUnauthorized
                         (H (<["error" := JString msg]> ∅)), store).
Proof.
  intros Hbad. unfold Variant2.handler.
  destruct (String.eqb (hAuthorization rq) "") eqn:E; [by eexists|].
  apply String.eqb_neq in E.
  destruct ((len_string (hAuthorization rq) <=? 7)
            || negb (String.eqb (str_to (hAuthorization rq) 7) "Bearer "))
    eqn:E2; [by eexists|].
  apply orb_false_iff in E2 as [E2 E3]. apply Z.leb_gt in E2.
  apply negb_false_iff, String.eqb_eq in E3.
  destruct Hbad as [?|[?|?]]; [done | lia | done].
Qed.

Lemma good_authorization_guards (rq : Request) :
  ¬ bad_authorization rq ->
  String.eqb (hAuthorization rq) "" = false
  ∧ (len_string (hAuthorization rq) <=? 7)
    || negb (String.eqb (str_to (hAuthorization rq) 7) "Bearer ") = false.
Proof.
  intros Hgood. unfold bad_authorization in Hgood. split.
  - apply String.eqb_neq. tauto.
  - apply orb_false_iff. split.
    + apply Z.leb_gt. lia.
    + apply negb_false_iff, String.eqb_eq.
      destruct (decide (str_to (hAuthorization rq) 7 = "Bearer ")); tauto.
Qed.

(** X2. A request without an [Authorization] header, with one of at
    most seven bytes (so ["Bearer "] with no token after it), or with one
    that does not start with ["Bearer "], is answered 401 with an error
    message by both variants; the answer does not depend on the
    upstream, which is not asked, and the store is left as it was. *)
Theorem handler_rejects_bad_authorization
    (store1 : Variant1.NumberStore) (store2 : Variant2.NumberStore)
    (rq : Request) (Hbad : bad_authorization rq) :
  (∃ msg, ∀ up, Variant1.handler store1 rq up
                = Some (JSON StatusUnauthorized
                          (H (<["error" := JString msg]> ∅)), store1))
  ∧ (∃ msg, ∀ up, Variant2.handler store2 rq up
                  = Some (JSON StatusUnauthorized
                            (H (<["error" := JString msg]> ∅)), store2)).
Proof. split; [by apply unauthorized_1 | by apply unauthorized_2]. Qed.

Lemma handler_rejects_bad_authorization_witness :
  (∃ msg, ∀ up, Variant1.handler {| Variant1.numbers := [4; 7; 9] |}
                  {| hAuthorization := "Bearer "; pNumberid := "e" |} up
                = Some (JSON StatusUnauthorized
                          (H (<["error" := JString msg]> ∅)),
                        {| Variant1.numbers := [4; 7; 9] |}))
  ∧ (∃ msg, ∀ up, Variant2.handler {| Variant2.numbers := [4; 7; 9] |}
                    {| hAuthorization := "Bearer "; pNumberid := "e" |} up
                  = Some (JSON StatusUnauthorized
                            (H (<["error" := JString msg]> ∅)),
                          {| Variant2.numbers := [4; 7; 9] |})).
Proof.
  apply (handler_rejects_bad_authorization
           {| Variant1.numbers := [4; 7; 9] |}
           {| Variant2.numbers := [4; 7; 9] |}
           {| hAuthorization := "Bearer "; pNumberid := "e" |}).
  right; left. by vm_compute.
Defined.

Lemma numberTypes_lookup (numberID numberType : string) :
  Variant1.numberTypes !! numberID = Some numberType
  ↔ (numberID, numberType)
    ∈ [("p", "primes"); ("f", "fibo"); ("e", "even"); ("r", "rand")].
Proof.
  unfold Variant1.numberTypes.
  rewrite !lookup_insert_Some, lookup_empty.
  rewrite !elem_of_cons, elem_of_nil. split.
  - intros [[<- <-]|[_ [[<- <-]|[_ [[<- <-]|[_ [[<- <-]|[_ ?]]]]]]]];
      [tauto..|done].
  - intros [[= -> ->]|[[= -> ->]|[[= -> ->]|[[= -> ->]|[]]]]].
    + do 3 (right; split; [done|]). by left.
    + do 2 (right; split; [done|]). by left.
    + do 1 (right; split; [done|]). by left.
    + by left.
Qed.

(** X3. The number types are exactly [p], [f], [e] and [r], standing
    for [primes], [fibo], [even] and [rand].  A request with a usable
    bearer token and any other number id is answered 400 with an error
    message by both variants, whatever the upstream, which is not
    asked; the store is left as it was. *)
Theorem handler_rejects_unknown_number_id
    (store1 : Variant1.NumberStore) (store2 : Variant2.NumberStore)
    (rq : Request)
    (Hauth : ¬ bad_authorization rq)
    (Hid : pNumberid rq ∉ ["p"; "f"; "e"; "r"]) :
  (∀ numberID numberType,
     Variant1.numberTypes !! numberID = Some numberType
     ↔ (numberID, numberType)
       ∈ [("p", "primes"); ("f", "fibo"); ("e", "even"); ("r", "rand")])
  ∧ (∃ msg, ∀ up, Variant1.handler store1 rq up
                  = Some (JSON StatusBadRequest
                            (H (<["error" := JString msg]> ∅)), store1))
  ∧ (∃ msg, ∀ up, Variant2.handler store2 rq up
                  = Some (JSON StatusBadRequest
                            (H (<["error" := JString msg]> ∅)), store2)).
Proof.
  split; [apply numberTypes_lookup|].
  destruct (good_authorization_guards rq Hauth) as [Hg1 Hg2].
  assert (Hnone : Variant1.numberTypes !! pNumberid rq = None).
  { destruct (Variant1.numberTypes !! pNumberid rq) as [ty|] eqn:E; [|done].
    exfalso. apply Hid. apply numberTypes_lookup in E.
    rewrite !elem_of_cons, elem_of_nil in E.
    rewrite !elem_of_cons, elem_of_nil.
    destruct E as [[= -> _]|[[= -> _]|[[= -> _]|[[= -> _]|[]]]]]; tauto. }
  split.
  - eexists. intros up. unfold Variant1.handler.
    by rewrite Hg1, Hg2, Hnone.
  - eexists. intros up. unfold Variant2.handler.
    change Variant2.numberTypes with Variant1.numberTypes.
    by rewrite Hg1, Hg2, Hnone.
Qed.

Lemma handler_rejects_unknown_number_id_witness :
  (∃ msg, ∀ up, Variant1.handler {| Variant1.numbers := [4; 7; 9] |}
                  {| hAuthorization := "Bearer t"; pNumberid := "x" |} up
                = Some (JSON StatusBadRequest
                          (H (<["error" := JString msg]> ∅)),
                        {| Variant1.numbers := [4; 7; 9] |})).
Proof.
  apply (handler_rejects_unknown_number_id
           {| Variant1.numbers := [4; 7; 9] |}
           {| Variant2.numbers := [4; 7; 9] |}
           {| hAuthorization := "Bearer t"; pNumberid := "x" |}).
  - intros [H|[H|H]]; [done | by vm_compute in H | by vm_compute in H].
  - simpl. rewrite !elem_of_cons, elem_of_nil. intros [?|[?|[?|[?|[]]]]]; done.
Defined.

(** What the handler of variant 1 answers, and does to the store, when
    the fetch gives [nums]. *)
Lemma handler_1_ok (store : Variant1.NumberStore) (rq : Request)
    (up : Upstream) (numberType authToken : string) (nums : list Z) :
  admitted rq numberType authToken ->
  Variant1.fetchNumbers up numberType authToken = inl nums ->
  let w' := last_n (Z.to_nat Variant1.WindowSize)
              (Variant1.numbers store
               ++ accepted (Variant1.numbers store) nums) in
  Variant1.handler store rq up
  = Some (JSON StatusOK
            (Obj {| WindowPrevState := Variant1.numbers store;
                    WindowCurrState := w';
                    Numbers := nums;
                    Average :=
                      Variant1.GetAverage {| Variant1.numbers := w' |} |}),
          {| Variant1.numbers := w' |}).
Proof.
  intros Hrq Hf w'.
  destruct (admitted_guards _ _ _ Hrq) as [Hg1 Hg2].
  destruct Hrq as (_ & _ & _ & Htok & Hty).
  unfold Variant1.handler. rewrite Hg1, Hg2, Hty, <- Htok, Hf.
  rewrite AddNumbers_eq. simpl. by rewrite GetCurrentState_eq.
Qed.

Lemma handler_2_ok (store : Variant2.NumberStore) (rq : Request)
    (up : Upstream) (numberType authToken : string) (nums : list Z) :
  admitted rq numberType authToken ->
  Variant2.fetchNumbers up numberType authToken = inl nums ->
  let w' := last_n (Z.to_nat Variant2.WindowSize)
              (Variant2.numbers store
               ++ accepted (Variant2.numbers store) nums) in
  Variant2.handler store rq up
  = Some (JSON StatusOK
            (Obj {| WindowPrevState := Variant2.numbers store;
                    WindowCurrState := w';
                    Numbers := nums;
                    Average :=
                      Variant2.GetAverage {| Variant2.numbers := w' |} |}),
          {| Variant2.numbers := w' |}).
Proof.
  intros Hrq Hf w'.
  destruct (admitted_guards _ _ _ Hrq) as [Hg1 Hg2].
  destruct Hrq as (_ & _ & _ & Htok & Hty).
  unfold Variant2.handler.
  change Variant2.numberTypes with Variant1.numberTypes.
  rewrite Hg1, Hg2, Hty, <- Htok, Hf.
  rewrite AddNumbers_2_eq. simpl.
  unfold Variant2.GetCurrentState. by rewrite copy_make.
Qed.

(** X4. When the request passes the checks and the fetch gives
    numbers, both handlers merge them and answer 200 with the numbers
    fetched, the window as it was before the merge, and the window and
    the average as the store gives them afterwards, each read under a
    lock of its own.  Run alone, a handler reports the window of its
    own merge (the last ten of the old window followed by the accepted
    numbers) and the average of that window, and leaves it in the
    store.  Among other requests, the current state is that window
    after the merges other requests made before the read, and the
    average is that of the window after the merges made before the
    average was taken. *)
Theorem handler_success
    (store1 : Variant1.NumberStore) (store2 : Variant2.NumberStore)
    (rq : Request) (up : Upstream) (numberType authToken : string)
    (nums : list Z) (gap1 gap2 : list (list Z))
    (Hrq : admitted rq numberType authToken)
    (Hok : fetch_ok (up (url numberType) authToken) nums) :
  (let w' := last_n 10 (Variant1.numbers store1
                        ++ accepted (Variant1.numbers store1) nums) in
   Variant1.handler store1 rq up
   = Some (JSON StatusOK
             (Obj {| WindowPrevState := Variant1.numbers store1;
                     WindowCurrState := w';
                     Numbers := nums;
                     Average :=
                       Variant1.GetAverage {| Variant1.numbers := w' |} |}),
           {| Variant1.numbers := w' |}))
  ∧ (let w' := last_n 10 (Variant2.numbers store2
                          ++ accepted (Variant2.numbers store2) nums) in
     Variant2.handler store2 rq up
     = Some (JSON StatusOK
               (Obj {| WindowPrevState := Variant2.numbers store2;
                       WindowCurrState := w';
                       Numbers := nums;
                       Average :=
                         Variant2.GetAverage {| Variant2.numbers := w' |} |}),
             {| Variant2.numbers := w' |}))
  ∧ (let w' := last_n 10 (Variant1.numbers store1
                          ++ accepted (Variant1.numbers store1) nums) in
     ∃ seen1 seen2,
       Among.others {| Variant1.numbers := w' |} gap1 = Some seen1
       ∧ Among.others seen1 gap2 = Some seen2
       ∧ Among.handler_among store1 rq up gap1 gap2
         = Some (JSON StatusOK
                   (Obj {| WindowPrevState := Variant1.numbers store1;
                           WindowCurrState := Variant1.numbers seen1;
                           Numbers := nums;
                           Average := Variant1.GetAverage seen2 |}),
                 seen2))
  ∧ (let w' := last_n 10 (Variant2.numbers store2
                          ++ accepted (Variant2.numbers store2) nums) in
     ∃ seen1 seen2,
       Among.others2 {| Variant2.numbers := w' |} gap1 = Some seen1
       ∧ Among.others2 seen1 gap2 = Some seen2
       ∧ Among.handler_among2 store2 rq up gap1 gap2
         = Some (JSON StatusOK
                   (Obj {| WindowPrevState := Variant2.numbers store2;
                           WindowCurrState := Variant2.numbers seen1;
                           Numbers := nums;
                           Average := Variant2.GetAverage seen2 |}),
                 seen2)).
Proof.
  pose proof (proj2 (fetchNumbers_1_iff up numberType authToken nums) Hok)
    as Hf1.
  pose proof (proj2 (fetchNumbers_2_iff up numberType authToken nums) Hok)
    as Hf2.
  split; [by apply (handler_1_ok _ _ _ numberType authToken)|].
  split; [by apply (handler_2_ok _ _ _ numberType authToken)|].
  destruct (admitted_guards _ _ _ Hrq) as [Hg1 Hg2].
  destruct Hrq as (_ & _ & _ & Htok & Hty).
  split; intros w'.
  - destruct (others_total {| Variant1.numbers := w' |} gap1) as [seen1 H1].
    destruct (others_total seen1 gap2) as [seen2 H2].
    exists seen1, seen2. split; [done|]. split; [done|].
    unfold Among.handler_among. rewrite Hg1, Hg2, Hty, <- Htok, Hf1.
    rewrite AddNumbers_eq.
    change (Z.to_nat Variant1.WindowSize) with 10%nat. fold w'.
    simpl. rewrite H1. simpl.
    rewrite H2. simpl. by rewrite GetCurrentState_eq.
  - destruct (others2_total {| Variant2.numbers := w' |} gap1) as [seen1 H1].
    destruct (others2_total seen1 gap2) as [seen2 H2].
    exists seen1, seen2. split; [done|]. split; [done|].
    unfold Among.handler_among2.
    change Variant2.numberTypes with Variant1.numberTypes.
    rewrite Hg1, Hg2, Hty, <- Htok, Hf2.
    rewrite AddNumbers_2_eq.
    change (Z.to_nat Variant2.WindowSize) with 10%nat. fold w'.
    simpl. rewrite H1. simpl.
    rewrite H2. simpl.
    unfold Variant2.GetCurrentState. by rewrite copy_make.
Qed.

Lemma handler_success_witness :
  let up : Upstream := λ _ _,
    {| newRequestErr := None; doErr := None; readErr := None;
       statusCode := 200; respBody := "{}";
       unmarshal := inl (Some [7; 2]) |} in
  Variant1.handler {| Variant1.numbers := [4; 7; 9] |} even_request up
  = Some (JSON StatusOK
            (Obj {| WindowPrevState := [4; 7; 9];
                    WindowCurrState := [4; 7; 9; 2];
                    Numbers := [7; 2];
                    Average := float64_div (float64_of_int 22)
                                 (float64_of_int 4) |}),
          {| Variant1.numbers := [4; 7; 9; 2] |})
  ∧ Among.handler_among {| Variant1.numbers := [4; 7; 9] |} even_request up
      [[5]] [[2; 1]]
    = Some (JSON StatusOK
              (Obj {| WindowPrevState := [4; 7; 9];
                      WindowCurrState := [4; 7; 9; 2; 5];
                      Numbers := [7; 2];
                      Average := float64_div (float64_of_int 28)
                                   (float64_of_int 6) |}),
            {| Variant1.numbers := [4; 7; 9; 2; 5; 1] |}).
Proof.
  intros up.
  destruct (handler_success {| Variant1.numbers := [4; 7; 9] |}
              {| Variant2.numbers := [4; 7; 9] |}
              even_request up "even" "t" [7; 2] [[5]] [[2; 1]])
    as (Halone & _ & (seen1 & seen2 & H1 & H2 & Hamong) & _).
  - repeat split; first [discriminate | reflexivity].
  - by repeat split.
  - split; [exact Halone|].
    vm_compute in H1. injection H1 as <-.
    vm_compute in H2. injection H2 as <-.
    exact Hamong.
Defined.

(** The handler of variant 1 always answers; it leaves the store as it
    was or merges fetched numbers into it. *)
Lemma handler_1_cases (store : Variant1.NumberStore) (rq : Request)
    (up : Upstream) :
  ∃ r store',
    Variant1.handler store rq up = Some (r, store')
    ∧ ((code r ∈ [StatusUnauthorized; StatusBadRequest;
                  StatusInternalServerError]
        ∧ store' = store)
       ∨ (code r = StatusOK
          ∧ ∃ nums, nums ≠ []
              ∧ store' = {| Variant1.numbers :=
                   last_n 10 (Variant1.numbers store
                              ++ accepted (Variant1.numbers store) nums) |})).
Proof.
  unfold Variant1.handler.
  destruct (String.eqb (hAuthorization rq) "").
  { eexists _, _. split; [done|]. left. split; [|done]. simpl. set_solver. }
  destruct ((len_string (hAuthorization rq) <=? 7) || _).
  { eexists _, _. split; [done|]. left. split; [|done]. simpl. set_solver. }
  destruct (Variant1.numberTypes !! pNumberid rq) as [ty|].
  2:{ eexists _, _. split; [done|]. left. split; [|done]. simpl. set_solver. }
  destruct (Variant1.fetchNumbers up ty _) as [nums|err] eqn:Hf.
  2:{ eexists _, _. split; [done|]. left. split; [|done]. simpl. set_solver. }
  rewrite AddNumbers_eq. simpl. eexists _, _. split; [done|]. right.
  split; [done|]. exists nums. split; [|done].
  apply fetchNumbers_1_iff in Hf. apply Hf.
Qed.

Lemma handler_2_cases (store : Variant2.NumberStore) (rq : Request)
    (up : Upstream) :
  ∃ r store',
    Variant2.handler store rq up = Some (r, store')
    ∧ ((code r ∈ [StatusUnauthorized; StatusBadRequest;
                  StatusInternalServerError]
        ∧ store' = store)
       ∨ (code r = StatusOK
          ∧ ∃ nums, nums ≠ []
              ∧ store' = {| Variant2.numbers :=
                   last_n 10 (Variant2.numbers store
                              ++ accepted (Variant2.numbers store) nums) |})).
Proof.
  unfold Variant2.handler.
  destruct (String.eqb (hAuthorization rq) "").
  { eexists _, _. split; [done|]. left. split; [|done]. simpl. set_solver. }
  destruct ((len_string (hAuthorization rq) <=? 7) || _).
  { eexists _, _. split; [done|]. left. split; [|done]. simpl. set_solver. }
  destruct (Variant2.numberTypes !! pNumberid rq) as [ty|].
  2:{ eexists _, _. split; [done|]. left. split; [|done]. simpl. set_solver. }
  destruct (Variant2.fetchNumbers up ty _) as [nums|err] eqn:Hf.
  2:{ eexists _, _. split; [done|]. left. split; [|done]. simpl. set_solver. }
  rewrite AddNumbers_2_eq. simpl. eexists _, _. split; [done|]. right.
  split; [done|]. exists nums. split; [|done].
  apply fetchNumbers_2_iff in Hf. apply Hf.
Qed.

(** X5. Both handlers answer every request, with status 200, 400, 401
    or 500, and never panic; the store is touched only when the answer
    is 200: with any other status it is left exactly as it was. *)
Theorem handler_touches_store_only_on_200
    (store1 : Variant1.NumberStore) (store2 : Variant2.NumberStore)
    (rq : Request) (up : Upstream) :
  (∃ r store',
     Variant1.handler store1 rq up = Some (r, store')
     ∧ code r ∈ [StatusOK; StatusBadRequest; StatusUnauthorized;
                 StatusInternalServerError]
     ∧ (code r ≠ StatusOK -> store' = store1))
  ∧ (∃ r store',
       Variant2.handler store2 rq up = Some (r, store')
       ∧ code r ∈ [StatusOK; StatusBadRequest; StatusUnauthorized;
                   StatusInternalServerError]
       ∧ (code r ≠ StatusOK -> store' = store2)).
Proof.
  split.
  - destruct (handler_1_cases store1 rq up)
      as (r & store' & Hh & [[Hc Hs]|[Hc _]]);
      exists r, store'; (split; [done|]); split.
    + rewrite !elem_of_cons, elem_of_nil in Hc.
      rewrite !elem_of_cons, elem_of_nil. tauto.
    + done.
    + rewrite Hc, elem_of_cons. by left.
    + done.
  - destruct (handler_2_cases store2 rq up)
      as (r & store' & Hh & [[Hc Hs]|[Hc _]]);
      exists r, store'; (split; [done|]); split.
    + rewrite !elem_of_cons, elem_of_nil in Hc.
      rewrite !elem_of_cons, elem_of_nil. tauto.
    + done.
    + rewrite Hc, elem_of_cons. by left.
    + done.
Qed.

Lemma window_ok_last_n (w b : list Z) :
  NoDup w ->
  len (last_n 10 (w ++ accepted w b)) <= 10
  ∧ NoDup (last_n 10 (w ++ accepted w b)).
Proof.
  intros Hw. split.
  - apply (last_n_bound (w ++ accepted w b)).
  - unfold last_n. eapply sublist_NoDup; [|apply sublist_drop].
    by apply accepted_app_NoDup.
Qed.

Lemma serve_window (rqs : list (Request * Upstream))
    (store : Variant1.NumberStore) :
  len (Variant1.numbers store) <= 10 -> NoDup (Variant1.numbers store) ->
  ∃ rs store',
    serve store rqs = Some (rs, store')
    ∧ length rs = length rqs
    ∧ len (Variant1.numbers store') <= 10
    ∧ NoDup (Variant1.numbers store').
Proof.
  revert store. induction rqs as [|[rq up] rqs IH]; intros store Hlen Hnd.
  - by exists [], store.
  - simpl.
    destruct (handler_1_cases store rq up)
      as (r & store1 & -> & [[_ ->]|[_ (nums & _ & ->)]]); simpl.
    + destruct (IH store Hlen Hnd) as (rs & store' & -> & Hl & Hb & Hn).
      simpl. exists (r :: rs), store'. simpl. by rewrite Hl.
    + destruct (window_ok_last_n (Variant1.numbers store) nums Hnd)
        as [Hlen1 Hnd1].
      destruct (IH {| Variant1.numbers := _ |} Hlen1 Hnd1)
        as (rs & store' & -> & Hl & Hb & Hn).
      simpl. exists (r :: rs), store'. simpl. by rewrite Hl.
Qed.

Lemma serve2_window (rqs : list (Request * Upstream))
    (store : Variant2.NumberStore) :
  len (Variant2.numbers store) <= 10 -> NoDup (Variant2.numbers store) ->
  ∃ rs store',
    serve2 store rqs = Some (rs, store')
    ∧ length rs = length rqs
    ∧ len (Variant2.numbers store') <= 10
    ∧ NoDup (Variant2.numbers store').
Proof.
  revert store. induction rqs as [|[rq up] rqs IH]; intros store Hlen Hnd.
  - by exists [], store.
  - simpl.
    destruct (handler_2_cases store rq up)
      as (r & store1 & -> & [[_ ->]|[_ (nums & _ & ->)]]); simpl.
    + destruct (IH store Hlen Hnd) as (rs & store' & -> & Hl & Hb & Hn).
      simpl. exists (r :: rs), store'. simpl. by rewrite Hl.
    + destruct (window_ok_last_n (Variant2.numbers store) nums Hnd)
        as [Hlen1 Hnd1].
      destruct (IH {| Variant2.numbers := _ |} Hlen1 Hnd1)
        as (rs & store' & -> & Hl & Hb & Hn).
      simpl. exists (r :: rs), store'. simpl. by rewrite Hl.
Qed.

(** X6. Whatever requests the server handles, one after the other from
    its start with an empty store, and whatever the upstream answers
    to each, every request gets its answer and the window holds at most
    ten values, all different.  This holds of both variants. *)
Theorem server_keeps_window (rqs : list (Request * Upstream)) :
  (∃ rs store',
     serve Variant1.empty_store rqs = Some (rs, store')
     ∧ length rs = length rqs
     ∧ len (Variant1.numbers store') <= 10
     ∧ NoDup (Variant1.numbers store'))
  ∧ (∃ rs store',
       serve2 Variant2.empty_store rqs = Some (rs, store')
       ∧ length rs = length rqs
       ∧ len (Variant2.numbers store') <= 10
       ∧ NoDup (Variant2.numbers store')).
Proof.
  split.
  - apply serve_window; [done | constructor].
  - apply serve2_window; [done | constructor].
Qed.

Lemma fetchNumbers_1_endpoint (up1 up2 : Upstream)
    (numberType authToken : string) :
  up1 (url numberType) authToken = up2 (url numberType) authToken ->
  Variant1.fetchNumbers up1 numberType authToken
  = Variant1.fetchNumbers up2 numberType authToken.
Proof.
  intros H. unfold Variant1.fetchNumbers. fold (url numberType).
  by rewrite H.
Qed.

(** X7. From a header ["Bearer " ++ token] the handler takes what
    follows the prefix as the token, and of the upstream it asks one
    thing only: the URL of the number type of the request, with that
    token.  Two upstreams that agree there get the same answer and
    leave the same store. *)
Theorem handler_asks_one_endpoint
    (store : Variant1.NumberStore) (rq : Request)
    (numberType authToken : string) (up1 up2 : Upstream)
    (Hheader : hAuthorization rq = "Bearer " +:+ authToken)
    (Htoken : authToken ≠ "")
    (Htype : Variant1.numberTypes !! pNumberid rq = Some numberType)
    (Hsame : up1 (url numberType) authToken
             = up2 (url numberType) authToken) :
  admitted rq numberType authToken
  ∧ Variant1.handler store rq up1 = Variant1.handler store rq up2.
Proof.
  pose proof (bearer_admitted rq numberType authToken Hheader Htoken Htype)
    as Hrq.
  split; [done|].
  destruct (admitted_guards _ _ _ Hrq) as [Hg1 Hg2].
  destruct Hrq as (_ & _ & _ & Htok & Hty).
  unfold Variant1.handler. rewrite Hg1, Hg2, Hty, <- Htok.
  by rewrite (fetchNumbers_1_endpoint up1 up2 _ _ Hsame).
Qed.

Lemma handler_asks_one_endpoint_witness :
  let other : Upstream := λ u t,
    if String.eqb u (url "even") && String.eqb t "t" then timed_out u t
    else {| newRequestErr := None; doErr := None; readErr := None;
            statusCode := 200; respBody := "{}";
            unmarshal := inl (Some [1]) |} in
  admitted even_request "even" "t"
  ∧ Variant1.handler {| Variant1.numbers := [4; 7; 9] |} even_request timed_out
    = Variant1.handler {| Variant1.numbers := [4; 7; 9] |} even_request other.
Proof.
  intros other.
  apply (handler_asks_one_endpoint {| Variant1.numbers := [4; 7; 9] |}
           even_request "even" "t" timed_out other);
    [reflexivity | discriminate | reflexivity | reflexivity].
Defined.

End Boundary.

(** ** More on the window *)

Section Window.
Import Go Spec Variant1 Runs.

Lemma total_Permutation (l1 l2 : list Z) : l1 ≡ₚ l2 -> total l1 = total l2.
Proof.
  unfold total. induction 1 as [|x l l' _ IH|x y l|l l' l'' _ IH1 _ IH2];
    simpl; lia.
Qed.

(** X8. The average does not depend on the order of the values in the
    window: two windows with the same values, in any order, have the
    same average, overflow of the sum included. *)
Theorem GetAverage_ignores_order (w1 w2 : list Z) (Hperm : w1 ≡ₚ w2) :
  GetAverage {| numbers := w1 |} = GetAverage {| numbers := w2 |}.
Proof.
  unfold GetAverage. simpl. rewrite !sum_loop_wrap.
  rewrite (total_Permutation _ _ Hperm). unfold len.
  by rewrite (Permutation_length Hperm).
Qed.

Lemma GetAverage_ignores_order_witness :
  GetAverage {| numbers := [9223372036854775807; 1; 4] |}
  = GetAverage {| numbers := [4; 9223372036854775807; 1] |}.
Proof.
  apply GetAverage_ignores_order.
  by rewrite (Permutation_cons_append [_; _] 4).
Defined.

Lemma accepted_sublist (w b : list Z) : accepted w b `sublist_of` b.
Proof.
  revert w. induction b as [|x b IH]; intros w; simpl; [done|].
  case_bool_decide; [apply sublist_cons | apply sublist_skip]; apply IH.
Qed.

(** X9. A merge never reorders and never invents: the window after the
    call is the window before it followed by the batch, with some of
    the values struck out and the others left in their order. *)
Theorem merge_keeps_order (ns : NumberStore) (newNumbers : list Z) :
  ∃ prevState ns',
    AddNumbers ns newNumbers = Some (prevState, ns')
    ∧ numbers ns' `sublist_of` (numbers ns ++ newNumbers)
    ∧ ∀ x, x ∈ numbers ns' -> x ∈ numbers ns ∨ x ∈ newNumbers.
Proof.
  eexists _, _. split; [apply AddNumbers_eq|]. simpl.
  assert (Hsub : last_n (Z.to_nat WindowSize)
                   (numbers ns ++ accepted (numbers ns) newNumbers)
                 `sublist_of` (numbers ns ++ newNumbers)).
  { etrans; [apply sublist_drop|].
    apply sublist_app; [done | apply accepted_sublist]. }
  split; [done|]. intros x Hx. apply elem_of_app.
  by eapply elem_of_sublist.
Qed.

Lemma last_n_app_short (w a : list Z) :
  (length a <= 10)%nat ->
  last_n 10 (w ++ a) = last_n (10 - length a) w ++ a.
Proof.
  intros Ha. unfold last_n. rewrite length_app.
  rewrite drop_app_le by lia. f_equal. f_equal. lia.
Qed.

(** X10. On a window within its bound a merge never shrinks the window,
    and never lets it pass ten values; a full window stays full. *)
Theorem window_never_shrinks
    (ns : NumberStore) (newNumbers : list Z)
    (Hbound : len (numbers ns) <= WindowSize) :
  ∃ prevState ns',
    AddNumbers ns newNumbers = Some (prevState, ns')
    ∧ len (numbers ns) <= len (numbers ns') <= WindowSize
    ∧ len (numbers ns')
      = Z.min WindowSize
          (len (numbers ns) + len (accepted (numbers ns) newNumbers)).
Proof.
  eexists _, _. split; [apply AddNumbers_eq|]. simpl.
  unfold len, WindowSize, last_n in *.
  rewrite length_drop, length_app. lia.
Qed.

Lemma window_never_shrinks_witness :
  ∃ prevState ns',
    AddNumbers {| numbers := [1; 2; 3; 4; 5; 6; 7; 8; 9; 10] |} [11; 12]
    = Some (prevState, ns')
    ∧ 10 <= len (numbers ns') <= 10.
Proof.
  destruct (window_never_shrinks
              {| numbers := [1; 2; 3; 4; 5; 6; 7; 8; 9; 10] |} [11; 12])
    as (prev & ns' & H1 & H2 & _).
  - by vm_compute.
  - by exists prev, ns'.
Defined.

Lemma accepted_app (w b1 b2 : list Z) :
  accepted w (b1 ++ b2)
  = accepted w b1 ++ accepted (w ++ accepted w b1) b2.
Proof.
  revert w. induction b1 as [|x b1 IH]; intros w; simpl.
  - by rewrite app_nil_r.
  - case_bool_decide; [apply IH|].
    rewrite IH. simpl. by rewrite <- !app_assoc.
Qed.

(** X11. As long as the first of two batches does not make the window
    overflow, merging the two one after the other leaves the same
    window as merging them at once, joined. *)
Theorem merge_in_two_steps
    (ns : NumberStore) (b1 b2 : list Z)
    (Hfits : len (appended ns b1) <= WindowSize) :
  ∃ prev1 ns1 prev2 ns2,
    AddNumbers ns b1 = Some (prev1, ns1)
    ∧ AddNumbers ns1 b2 = Some (prev2, ns2)
    ∧ AddNumbers ns (b1 ++ b2) = Some (numbers ns, ns2).
Proof.
  rewrite appended_eq in Hfits.
  eexists _, _, _, _. split; [apply AddNumbers_eq|].
  split; [apply AddNumbers_eq|]. rewrite AddNumbers_eq. simpl.
  rewrite (last_n_all _ (numbers ns ++ accepted (numbers ns) b1))
    by (unfold len, WindowSize in *; lia).
  by rewrite accepted_app, app_assoc.
Qed.

Lemma merge_in_two_steps_witness :
  ∃ prev1 ns1 prev2 ns2,
    AddNumbers {| numbers := [4; 7; 9] |} [7; 2] = Some (prev1, ns1)
    ∧ AddNumbers ns1 [2; 5] = Some (prev2, ns2)
    ∧ AddNumbers {| numbers := [4; 7; 9] |} ([7; 2] ++ [2; 5])
      = Some ([4; 7; 9], ns2).
Proof.
  apply (merge_in_two_steps {| numbers := [4; 7; 9] |} [7; 2] [2; 5]).
  by vm_compute.
Defined.

(** X12. A value the window already holds is not moved by a merge that
    brings it again: when a full, duplicate-free window takes a batch
    with at least one new value, its oldest value is dropped, whether
    or not the batch holds that value too. *)
Theorem oldest_value_is_not_refreshed
    (oldest : Z) (rest newNumbers : list Z) (new : Z)
    (Hfull : len (oldest :: rest) = WindowSize)
    (Hnodup : NoDup (oldest :: rest))
    (Hin : new ∈ newNumbers)
    (Hnew : new ∉ (oldest :: rest)) :
  ∃ prevState ns',
    AddNumbers {| numbers := oldest :: rest |} newNumbers
    = Some (prevState, ns')
    ∧ (oldest ∉ numbers ns')
    ∧ new ∈ accepted (oldest :: rest) newNumbers.
Proof.
  eexists _, _. split; [apply AddNumbers_eq|]. simpl.
  assert (Hacc : new ∈ accepted (oldest :: rest) newNumbers)
    by (by apply accepted_elem).
  clear Hin.
  split; [|done].
  set (acc := accepted (oldest :: rest) newNumbers) in *.
  assert (Hk : (0 < length acc)%nat).
  { destruct acc; [by apply elem_of_nil in Hacc | simpl; lia]. }
  unfold last_n, len, WindowSize in *. simpl in *.
  replace (length (rest ++ acc) - 9)%nat
    with (S (length acc - 1)) by (rewrite length_app; lia).
  intros Hin. change (oldest ∈ drop (length acc - 1) (rest ++ acc)) in Hin.
  apply (subseteq_drop _ _ oldest) in Hin.
  apply elem_of_app in Hin as [Hin|Hin].
  - by apply NoDup_cons in Hnodup as [Hnot _].
  - apply accepted_elem in Hin as [_ Hnot]. apply Hnot. by left.
Qed.

Lemma oldest_value_is_not_refreshed_witness :
  ∃ prevState ns',
    AddNumbers {| numbers := 1 :: [2; 3; 4; 5; 6; 7; 8; 9; 10] |} [1; 11]
    = Some (prevState, ns')
    ∧ (1 ∉ numbers ns')
    ∧ 11 ∈ accepted (1 :: [2; 3; 4; 5; 6; 7; 8; 9; 10]) [1; 11].
Proof.
  apply (oldest_value_is_not_refreshed 1 [2; 3; 4; 5; 6; 7; 8; 9; 10]
           [1; 11] 11).
  - reflexivity.
  - compute_done.
  - compute_done.
  - compute_done.
Defined.

(** X13. Every value of a batch of at most ten numbers is in the
    window after the merge, unless the window held it before. *)
Theorem short_batch_is_kept
    (ns : NumberStore) (newNumbers : list Z)
    (Hshort : len newNumbers <= WindowSize) :
  ∃ prevState ns',
    AddNumbers ns newNumbers = Some (prevState, ns')
    ∧ ∀ x, x ∈ newNumbers -> x ∉ numbers ns -> x ∈ numbers ns'.
Proof.
  eexists _, _. split; [apply AddNumbers_eq|]. simpl.
  intros x Hx Hnot.
  pose proof (sublist_length _ _ (accepted_sublist (numbers ns) newNumbers))
    as Hlen.
  change (Z.to_nat WindowSize) with 10%nat.
  rewrite last_n_app_short by (unfold len, WindowSize in Hshort; lia).
  apply elem_of_app. right. by apply accepted_elem.
Qed.

Lemma short_batch_is_kept_witness :
  ∃ prevState ns',
    AddNumbers {| numbers := [1; 2; 3; 4; 5; 6; 7; 8; 9; 10] |} [11; 3; 12]
    = Some (prevState, ns')
    ∧ ∀ x, x ∈ [11; 3; 12] -> x ∉ [1; 2; 3; 4; 5; 6; 7; 8; 9; 10] ->
           x ∈ numbers ns'.
Proof.
  apply (short_batch_is_kept
           {| numbers := [1; 2; 3; 4; 5; 6; 7; 8; 9; 10] |} [11; 3; 12]).
  by vm_compute.
Defined.

End Window.

(** ** More on slices and arrays *)

Section HeapMore.
Import Go SliceHeap SliceHeapMore.
Local Open Scope nat_scope.

(** X14. [AddNumbers] writes to no array but the window's own and the
    ones it allocates: the caller's slice holds after the call what it
    held before, and so does every other array in use. *)
Theorem AddNumbers_leaves_batch_alone
    (grow : nat -> nat) (h : heap) (ns : NumberStore) (newNumbers : slice) (w b : list Z)
    (Hw : holds h (numbers ns) w)
    (Hb : holds h newNumbers b)
    (Hsep : ptr newNumbers ≠ ptr (numbers ns)) :
  ∃ prevState ns' h',
    AddNumbers grow ns newNumbers h = Some ((prevState, ns'), h')
    ∧ holds h' newNumbers b
    ∧ ∀ a, a < length h -> a ≠ ptr (numbers ns) -> h' !! a = h !! a.
Proof.
  destruct (AddNumbers_refines grow h ns newNumbers w b Hw Hb Hsep)
    as (prev & ns' & h' & Hrun & _ & _ & Hb' & _ & _ & [_ Hfr]).
  by exists prev, ns', h'.
Qed.

Lemma AddNumbers_leaves_batch_alone_witness :
  ∃ prevState ns' h',
    AddNumbers (λ c, 2 * c) store0 batch0 heap0
    = Some ((prevState, ns'), h')
    ∧ holds h' batch0 [7; 2]%Z
    ∧ h' !! 2 = Some [7; 2]%Z.
Proof.
  destruct (AddNumbers_leaves_batch_alone (λ c, 2 * c) heap0 store0 batch0
              [4; 7; 9]%Z [7; 2]%Z)
    as (prev & ns' & h' & H1 & H2 & H3).
  - exists [4; 7; 9; 0]%Z. repeat split; simpl; lia.
  - exists [7; 2]%Z. repeat split; simpl; lia.
  - simpl. lia.
  - exists prev, ns', h'. split; [done|]. split; [done|].
    rewrite H3; [done | simpl; lia | simpl; lia].
Defined.

Lemma alloc_holds (l : list Z) (h : heap) :
  ∃ s, alloc l h = Some (s, h ++ [l])
       ∧ ptr s = length h
       ∧ holds (h ++ [l]) s l.
Proof.
  eexists. split; [reflexivity|]. split; [reflexivity|].
  exists l. simpl. rewrite lookup_app_r, Nat.sub_diag by lia.
  split; [done|]. split; [lia|]. split; [lia|].
  unfold window. simpl. by rewrite drop_0, firstn_all.
Qed.

Lemma GetCurrentState_holds (h : heap) (ns : NumberStore) (w : list Z) :
  holds h (numbers ns) w ->
  ∃ cur h',
    GetCurrentState ns h = Some (cur, h')
    ∧ holds h' cur w
    ∧ holds h' (numbers ns) w
    ∧ ptr cur = length h
    ∧ length h' = S (length h)
    ∧ ∀ a, a < length h -> h' !! a = h !! a.
Proof.
  intros Hw.
  pose proof (holds_length _ _ _ Hw) as Hlw.
  pose proof (holds_allocated _ _ _ Hw) as Haw.
  unfold GetCurrentState.
  destruct (make_holds (slen (numbers ns)) h) as (cur & Hmk & Hp & Hcur).
  set (h1 := h ++ [replicate (slen (numbers ns)) 0%Z]) in *.
  assert (Hw1 : holds h1 (numbers ns) w)
    by (eapply holds_frame; [done | apply (frame_alloc (length h)) | lia]).
  unfold bind at 1. rewrite Hmk.
  destruct (copy_holds h1 cur (numbers ns) _ w Hcur Hw1)
    as (h2 & Hcp & Hcur2 & [Hl2 Hf2]); [lia|].
  replace (copy_ints (replicate (slen (numbers ns)) 0%Z) w) with w in Hcur2.
  2:{ rewrite <- (copy_make w) at 1. unfold make_ints, len.
      by rewrite Nat2Z.id, Hlw. }
  unfold bind, ret. rewrite Hcp.
  assert (Hlen1 : length h1 = S (length h)).
  { unfold h1. rewrite length_app. simpl. lia. }
  assert (Hlen2 : length h2 = length h1).
  { unfold copy in Hcp. destruct (h1 !! ptr (numbers ns)); [|done].
    simpl in Hcp. destruct (h1 !! ptr cur); [|done]. simpl in Hcp.
    injection Hcp as <-. by rewrite length_insert. }
  exists cur, h2. split; [done|]. split; [done|].
  split; [eapply holds_frame; [done | by split | lia]|].
  split; [done|]. split; [lia|].
  intros a Ha. rewrite Hf2 by lia. unfold h1. by rewrite lookup_app_l.
Qed.

Lemma assign_frame (s : slice) (i : nat) (v : Z) (h h' : heap) :
  assign s i v h = Some (tt, h') -> frame (ptr s) h h'.
Proof.
  unfold assign. case_decide; [|done].
  destruct (h !! ptr s); [|done]. simpl. intros [= <-]. apply frame_write.
Qed.

(** X15. [GetCurrentState] gives the caller a slice of its own: it
    holds the values of the window, in an array allocated by the call;
    no array in use before is changed; and whatever the caller then
    writes into the slice, the window of the store holds what it
    held. *)
Theorem GetCurrentState_is_a_copy
    (h : heap) (ns : NumberStore) (w : list Z)
    (Hw : holds h (numbers ns) w) :
  ∃ currentState h',
    GetCurrentState ns h = Some (currentState, h')
    ∧ holds h' currentState w
    ∧ ptr currentState = length h
    ∧ (∀ a, a < length h -> h' !! a = h !! a)
    ∧ ∀ i v h'', assign currentState i v h' = Some (tt, h'') ->
        holds h'' (numbers ns) w.
Proof.
  destruct (GetCurrentState_holds h ns w Hw)
    as (cur & h' & Hrun & Hcur & Hw' & Hp & _ & Hfr).
  exists cur, h'. split; [done|]. split; [done|]. split; [done|].
  split; [done|]. intros i v h'' Hwr.
  eapply holds_frame; [done | by eapply assign_frame |].
  pose proof (holds_allocated _ _ _ Hw). lia.
Qed.

Lemma GetCurrentState_is_a_copy_witness :
  ∃ currentState h',
    GetCurrentState store0 heap0 = Some (currentState, h')
    ∧ holds h' currentState [4; 7; 9]%Z
    ∧ ptr currentState = 3.
Proof.
  destruct (GetCurrentState_is_a_copy heap0 store0 [4; 7; 9]%Z)
    as (cur & h' & H1 & H2 & H3 & _).
  - exists [4; 7; 9; 0]%Z. repeat split; simpl; lia.
  - by exists cur, h'.
Defined.

Lemma merges_refine (grow : nat -> nat) (batches : list (list Z))
    (h : heap) (ns : NumberStore) (w : list Z) :
  holds h (numbers ns) w ->
  ∃ ns' h',
    merges grow ns batches h = Some (ns', h')
    ∧ holds h' (numbers ns') (window_after w batches).
Proof.
  revert h ns w. induction batches as [|b rest IH]; intros h ns w Hw.
  - by exists ns, h.
  - simpl. unfold bind at 1.
    destruct (alloc_holds b h) as (s & -> & Hp & Hs).
    assert (Hw1 : holds (h ++ [b]) (numbers ns) w).
    { pose proof (holds_allocated _ _ _ Hw).
      eapply holds_frame; [done | apply (frame_alloc (length h)) | lia]. }
    destruct (AddNumbers_refines grow _ ns s w b Hw1 Hs)
      as (prev & ns1 & h1 & Hrun & _ & Hn1 & _).
    { pose proof (holds_allocated _ _ _ Hw). lia. }
    unfold bind. rewrite Hrun.
    destruct (IH h1 ns1 _ Hn1) as (ns' & h' & Hm & Hn').
    exists ns', h'. split; [done|].
    by rewrite AddNumbers_eq.
Qed.

(** X16. Starting from the empty store, whose slice is nil, any number
    of merges, each of a batch in an array of its own, goes through
    without a panic, whatever room [append] allocates; the slice of the
    store then gives access to exactly the window that the same merges
    leave on lists. *)
Theorem merges_on_heap_refine
    (grow : nat -> nat) (batches : list (list Z)) :
  ∃ ns' h',
    merges grow empty_store batches empty_heap = Some (ns', h')
    ∧ holds h' (numbers ns') (window_after [] batches).
Proof.
  apply merges_refine. exists []. simpl.
  split; [done|]. split; [lia|]. split; [lia | done].
Qed.

End HeapMore.

(** ** What a reader can see of the window *)

Section Readers.
Import Go Spec Concurrent.
Local Open Scope nat_scope.

Lemma replay_window (lg : list (nat * list Z)) :
  length (replay lg) <= 10 ∧ NoDup (replay lg).
Proof.
  induction lg as [|[i b] lg [IH1 IH2]] using rev_ind.
  - split; [simpl; lia | constructor].
  - rewrite replay_snoc, merged_eq. split.
    + unfold last_n. rewrite length_drop.
      change (Z.to_nat Variant1.WindowSize) with 10. lia.
    + unfold last_n. eapply sublist_NoDup; [|apply sublist_drop].
      by apply accepted_app_NoDup.
Qed.

(** X17. Under any schedule, whenever no goroutine holds the mutex for
    writing, the window holds at most ten values, all different: the
    longer window that exists between the appends and the cut of a
    merge is never there for a reader to see. *)
Theorem unlocked_window_is_proper
    (calls : list call) (schedule : list nat)
    (Hfree : writer (mu (run (start calls) schedule)) = false) :
  length (numbers (run (start calls) schedule)) <= 10
  ∧ NoDup (numbers (run (start calls) schedule)).
Proof.
  pose proof (run_Inv _ schedule (start_Inv calls)) as HI.
  rewrite (inv_free _ HI Hfree). apply replay_window.
Qed.

Lemma unlocked_window_is_proper_witness :
  length (numbers (run (start calls0) schedule1)) <= 10
  ∧ NoDup (numbers (run (start calls0) schedule1)).
Proof.
  apply unlocked_window_is_proper. by vm_compute.
Defined.

End Readers.

(** ** The aggregation service *)

Section Refreshing.
Import Go Aggregator.

Lemma foldl_insert_lookup {K V} `{Countable K} (order : list (K * V))
    (m0 : gmap K V) (k : K) :
  NoDup order.*1 ->
  (∀ v, (k, v) ∈ order ->
        foldl (λ m u, <[u.1 := u.2]> m) m0 order !! k = Some v)
  ∧ (k ∉ order.*1 ->
     foldl (λ m u, <[u.1 := u.2]> m) m0 order !! k = m0 !! k).
Proof.
  revert m0. induction order as [|[j x] order IH]; intros m0 Hnd; simpl.
  - split; [intros v Hv; by apply elem_of_nil in Hv | done].
  - apply NoDup_cons in Hnd as [Hj Hnd].
    destruct (IH (<[j := x]> m0) Hnd) as [IH1 IH2]. split.
    + intros v [[= -> ->]|Hv]%elem_of_cons; [|by apply IH1].
      rewrite IH2 by done. apply lookup_insert_eq.
    + intros Hk. apply not_elem_of_cons in Hk as [Hkj Hk].
      rewrite IH2 by done. by apply lookup_insert_ne.
Qed.

Lemma round_users (w : World) (r : Refresh) (order : list (string * string)) :
  r_users (foldl (user_round w) r order)
  = foldl (λ m u, <[u.1 := u.2]> m) (r_users r) order.
Proof.
  revert r. induction order as [|[k v] order IH]; intros r; simpl; [done|].
  rewrite IH. by destruct (fetchUserPosts w k).
Qed.

Lemma round_counts_step (w : World) (r : Refresh) (k v u : string) :
  r_counts (user_round w r (k, v)) !! u
  = if decide (k = u)
    then match fetchUserPosts w u with
         | Some ps => Some (len ps)
         | None => r_counts r !! u
         end
    else r_counts r !! u.
Proof.
  simpl. case_decide as Hk.
  - subst k. destruct (fetchUserPosts w u); simpl; [|done].
    apply lookup_insert_eq.
  - destruct (fetchUserPosts w k); simpl; [|done].
    by apply lookup_insert_ne.
Qed.

Lemma round_counts (w : World) (order : list (string * string)) (r : Refresh)
    (u : string) :
  r_counts (foldl (user_round w) r order) !! u
  = if bool_decide (u ∈ order.*1)
    then match fetchUserPosts w u with
         | Some ps => Some (len ps)
         | None => r_counts r !! u
         end
    else r_counts r !! u.
Proof.
  revert r. induction order as [|[k v] order IH]; intros r; [done|].
  change (foldl (user_round w) r ((k, v) :: order))
    with (foldl (user_round w) (user_round w r (k, v)) order).
  rewrite IH, round_counts_step, fmap_cons. cbn [fst]. clear IH.
  destruct (decide (k = u)) as [->|Hne].
  - rewrite (bool_decide_eq_true_2 (u ∈ u :: order.*1)) by (by left).
    case_bool_decide; by destruct (fetchUserPosts w u).
  - destruct (decide (u ∈ order.*1)) as [Hin|Hin].
    + rewrite !bool_decide_eq_true_2; [done | by right | done].
    + rewrite !bool_decide_eq_false_2; [done | | done].
      intros [?|?]%elem_of_cons; [congruence | done].
Qed.

Lemma round_posts (w : World) (order : list (string * string)) (r : Refresh) :
  r_posts (foldl (user_round w) r order)
  = r_posts r ++ mjoin (omap (λ u, fetchUserPosts w u.1) order).
Proof.
  revert r. induction order as [|[k v] order IH]; intros r; simpl.
  - by rewrite app_nil_r.
  - rewrite IH. destruct (fetchUserPosts w k) as [ps|]; simpl; [|done].
    by rewrite app_assoc.
Qed.

Lemma comments_step (w : World) (pc : gmap Z Z) (p : Post) (id : Z) :
  match fetchPostComments w (ID p) with
  | Some comments => <[ID p := len comments]> pc
  | None => pc
  end !! id
  = if decide (ID p = id)
    then match fetchPostComments w id with
         | Some cs => Some (len cs)
         | None => pc !! id
         end
    else pc !! id.
Proof.
  case_decide as Hk.
  - subst id. destruct (fetchPostComments w (ID p)); [|done].
    apply lookup_insert_eq.
  - destruct (fetchPostComments w (ID p)); [|done].
    by apply lookup_insert_ne.
Qed.

Lemma comments_loop_lookup (w : World) (ps : list Post) (pc : gmap Z Z)
    (id : Z) :
  comments_loop w pc ps !! id
  = if bool_decide (id ∈ ID <$> ps)
    then match fetchPostComments w id with
         | Some cs => Some (len cs)
         | None => pc !! id
         end
    else pc !! id.
Proof.
  unfold comments_loop. revert pc.
  induction ps as [|p ps IH]; intros pc; [done|].
  rewrite fmap_cons. cbn [foldl]. rewrite IH, comments_step. clear IH.
  destruct (decide (ID p = id)) as [<-|Hne].
  - rewrite (bool_decide_eq_true_2 (ID p ∈ ID p :: (ID <$> ps)))
      by (by left).
    case_bool_decide; by destruct (fetchPostComments w (ID p)).
  - destruct (decide (id ∈ ID <$> ps)) as [Hin|Hin].
    + rewrite !bool_decide_eq_true_2; [done | by right | done].
    + rewrite !bool_decide_eq_false_2; [done | | done].
      intros [?|?]%elem_of_cons; [congruence | done].
Qed.

Lemma round_comments (w : World) (order : list (string * string))
    (r : Refresh) (id : Z) :
  r_comments (foldl (user_round w) r order) !! id
  = if bool_decide
         (id ∈ ID <$> mjoin (omap (λ u, fetchUserPosts w u.1) order))
    then match fetchPostComments w id with
         | Some cs => Some (len cs)
         | None => r_comments r !! id
         end
    else r_comments r !! id.
Proof.
  revert r. induction order as [|[k v] order IH]; intros r; simpl; [done|].
  rewrite IH. clear IH.
  destruct (fetchUserPosts w k) as [ps|] eqn:E; simpl; [|done].
  rewrite comments_loop_lookup, fmap_app.
  destruct (decide (id ∈ ID <$> ps)) as [H1|H1];
    destruct (decide (id ∈ ID <$> mjoin (omap (λ u, fetchUserPosts w u.1) order)))
      as [H2|H2];
    rewrite ?(bool_decide_eq_true_2 _ H1), ?(bool_decide_eq_false_2 _ H1),
      ?(bool_decide_eq_true_2 _ H2), ?(bool_decide_eq_false_2 _ H2).
  - rewrite bool_decide_eq_true_2 by (apply elem_of_app; by left).
    by destruct (fetchPostComments w id).
  - rewrite bool_decide_eq_true_2 by (apply elem_of_app; by left). done.
  - rewrite bool_decide_eq_true_2 by (apply elem_of_app; by right). done.
  - rewrite bool_decide_eq_false_2; [done|].
    intros [?|?]%elem_of_app; done.
Qed.

Lemma in_order_total {A} (less : A -> A -> bool) :
  strict_weak less -> Total (in_order less).
Proof.
  intros (Hirr & Htrans & _) a b. unfold in_order.
  destruct (less b a) eqn:Hba; [|by left].
  destruct (less a b) eqn:Hab; [|by right].
  pose proof (Hirr b) as Hb. by rewrite (Htrans b a b Hba Hab) in Hb.
Qed.

Lemma in_order_trans {A} (less : A -> A -> bool) :
  strict_weak less -> Transitive (in_order less).
Proof. intros (_ & _ & Hneg) a b c Hab Hbc. by apply (Hneg c b a). Qed.

Lemma StronglySorted_weaken {A} (R R' : relation A) (l : list A) :
  (∀ a b, R a b -> R' a b) -> StronglySorted R l -> StronglySorted R' l.
Proof.
  intros HR. induction 1 as [|a l _ IH Hall]; constructor; [done|].
  eapply Forall_impl; [done|]. intros b. apply HR.
Qed.

Lemma greater_strict_weak {A} (key : A -> Z) :
  strict_weak (λ a b, key a >? key b).
Proof.
  unfold strict_weak. setoid_rewrite Z.gtb_ltb.
  split; [intros a; apply Z.ltb_irrefl|].
  split; intros a b c; rewrite ?Z.ltb_lt, ?Z.ltb_ge; lia.
Qed.

(** A lawful [sort.Slice] with the less function of [getTopUsers]
    leaves larger counts first; with that of [getPosts], larger ids. *)
Lemma sorted_by_count (w : World) (x : list UserPostCount) :
  lawful w ->
  StronglySorted by_count
    (sort_Slice w (λ users_i users_j, Count users_i >? Count users_j) x).
Proof.
  intros Hlaw.
  eapply StronglySorted_weaken;
    [|apply (sort_Slice_sorted w Hlaw), (greater_strict_weak Count)].
  intros a b. unfold in_order, by_count. rewrite Z.gtb_ltb, Z.ltb_ge. done.
Qed.

Lemma sorted_by_id (w : World) (x : list Post) :
  lawful w ->
  StronglySorted by_id
    (sort_Slice w (λ posts_i posts_j, ID posts_i >? ID posts_j) x).
Proof.
  intros Hlaw.
  eapply StronglySorted_weaken;
    [|apply (sort_Slice_sorted w Hlaw), (greater_strict_weak ID)].
  intros a b. unfold in_order, by_id. rewrite Z.gtb_ltb, Z.ltb_ge. done.
Qed.

Lemma sample_lawful : lawful sample_world.
Proof.
  split; simpl; try done.
  - intros A less x. apply merge_sort_Permutation.
  - intros A less x Hless.
    apply (@StronglySorted_merge_sort _ _ _ (in_order_trans less Hless)
             (in_order_total less Hless)).
Qed.

Lemma updateData_refresh (c : Cache) (w : World)
    (fetched : gmap string string) :
  updateInterval c <= since w (lastUpdated c) ->
  fetchUsers w = Some fetched ->
  updateData c w
  = let r := foldl (user_round w)
               {| r_users := users c; r_counts := ∅; r_posts := [];
                  r_comments := ∅ |}
               (range_users w fetched) in
    {| users := r_users r; userPostCounts := r_counts r;
       posts := r_posts r; postComments := r_comments r;
       lastUpdated := now w; updateInterval := updateInterval c |}.
Proof.
  intros Hdue Hf. unfold updateData.
  destruct (since w (lastUpdated c) <? updateInterval c) eqn:E.
  { apply Z.ltb_lt in E. lia. }
  by rewrite Hf.
Qed.

Lemma range_users_keys (w : World) (fetched : gmap string string)
    (u : string) :
  lawful w ->
  NoDup (range_users w fetched).*1
  ∧ (∀ name, (u, name) ∈ range_users w fetched ↔ fetched !! u = Some name)
  ∧ (u ∈ (range_users w fetched).*1 ↔ is_Some (fetched !! u)).
Proof.
  intros Hlaw. pose proof (range_users_ok w Hlaw fetched) as Hperm.
  split; [|split].
  - rewrite Hperm. apply NoDup_fst_map_to_list.
  - intros name. rewrite Hperm. apply elem_of_map_to_list.
  - rewrite Hperm, list_elem_of_fmap. split.
    + intros ([k x] & -> & Hin). apply elem_of_map_to_list in Hin. by exists x.
    + intros [x Hx]. exists (u, x). split; [done|].
      by apply elem_of_map_to_list.
Qed.

(** X18. A refresh that goes through (the interval has passed and the
    list of users was fetched) sets the name of every user fetched and
    keeps every other user the cache held: users are never removed.  It
    stamps the cache with the current time and leaves the interval. *)
Theorem refresh_never_removes_users
    (c : Cache) (w : World) (fetched : gmap string string)
    (Hlaw : lawful w)
    (Hdue : updateInterval c <= since w (lastUpdated c))
    (Hfetch : fetchUsers w = Some fetched) :
  users (updateData c w) = fetched ∪ users c
  ∧ (∀ u, is_Some (users c !! u) -> is_Some (users (updateData c w) !! u))
  ∧ lastUpdated (updateData c w) = now w
  ∧ updateInterval (updateData c w) = updateInterval c.
Proof.
  rewrite (updateData_refresh c w fetched Hdue Hfetch). simpl.
  assert (Hu : r_users
                 (foldl (user_round w)
                    {| r_users := users c; r_counts := ∅; r_posts := [];
                       r_comments := ∅ |} (range_users w fetched))
               = fetched ∪ users c).
  { rewrite round_users. simpl. apply map_eq. intros u.
    destruct (range_users_keys w fetched u Hlaw) as (Hnd & Hin & Hkey).
    destruct (foldl_insert_lookup (range_users w fetched) (users c) u Hnd)
      as [H1 H2].
    destruct (fetched !! u) as [name|] eqn:E.
    - rewrite (H1 name) by (by apply Hin).
      symmetry. apply lookup_union_Some_raw. by left.
    - rewrite H2.
      + by rewrite lookup_union_r.
      + intros Hk. apply Hkey in Hk as [? ?]. congruence. }
  rewrite Hu. split; [done|]. split; [|done].
  intros u [x Hx]. rewrite lookup_union.
  destruct (fetched !! u); by rewrite ?Hx.
Qed.

Lemma refresh_never_removes_users_witness :
  users (updateData
           {| users := {[ "9" := "Zoe" ]}; userPostCounts := ∅; posts := [];
              postComments := ∅; lastUpdated := 0;
              updateInterval := 30 * 1000000000 |} sample_world)
  = {[ "1" := "Ann"; "2" := "Bob" ]} ∪ {[ "9" := "Zoe" ]}.
Proof.
  refine (proj1 (refresh_never_removes_users _ sample_world
                   {[ "1" := "Ann"; "2" := "Bob" ]} _ _ _)).
  - apply sample_lawful.
  - by vm_compute.
  - by vm_compute.
Defined.

(** X19. After a refresh that goes through, a user has a post count
    exactly when the user was in the list fetched and the user's posts
    could be fetched, and the count is the number of those posts; what
    the cache counted before plays no part. *)
Theorem refresh_rebuilds_counts
    (c : Cache) (w : World) (fetched : gmap string string)
    (Hlaw : lawful w)
    (Hdue : updateInterval c <= since w (lastUpdated c))
    (Hfetch : fetchUsers w = Some fetched) (u : string) (n : Z) :
  userPostCounts (updateData c w) !! u = Some n
  ↔ ∃ name ps, fetched !! u = Some name
               ∧ fetchUserPosts w u = Some ps
               ∧ n = len ps.
Proof.
  rewrite (updateData_refresh c w fetched Hdue Hfetch). simpl.
  rewrite round_counts. simpl.
  destruct (range_users_keys w fetched u Hlaw) as (_ & _ & Hkey).
  case_bool_decide as Hin.
  - apply Hkey in Hin as [name Hname].
    destruct (fetchUserPosts w u) as [ps|].
    + split; [intros [= <-]; by exists name, ps|].
      intros (? & ? & _ & [= <-] & ->). done.
    + rewrite lookup_empty. split; [done | intros (? & ? & _ & ? & _); done].
  - rewrite lookup_empty. split; [done|].
    intros (name & ? & Hname & _). exfalso. apply Hin, Hkey. by exists name.
Qed.

Lemma refresh_rebuilds_counts_witness :
  userPostCounts (updateData cache0 sample_world) !! "1" = Some 2.
Proof.
  refine (proj2 (refresh_rebuilds_counts cache0 sample_world
                   {[ "1" := "Ann"; "2" := "Bob" ]} _ _ _ "1" 2) _).
  - apply sample_lawful.
  - by vm_compute.
  - by vm_compute.
  - eexists "Ann", _. split; [by vm_compute|]. split; [by vm_compute | done].
Defined.

(** X20. After a refresh that goes through, the posts of the cache are
    the posts fetched for the users, user after user in the order of
    the visit; a post has a comment count exactly when it is one of
    these posts and its comments could be fetched, and the count is the
    number of those comments. *)
Theorem refresh_rebuilds_posts
    (c : Cache) (w : World) (fetched : gmap string string)
    (Hdue : updateInterval c <= since w (lastUpdated c))
    (Hfetch : fetchUsers w = Some fetched) :
  posts (updateData c w)
  = mjoin (omap (λ u, fetchUserPosts w u.1) (range_users w fetched))
  ∧ ∀ id n,
      postComments (updateData c w) !! id = Some n
      ↔ id ∈ ID <$> posts (updateData c w)
        ∧ ∃ cs, fetchPostComments w id = Some cs ∧ n = len cs.
Proof.
  rewrite (updateData_refresh c w fetched Hdue Hfetch). simpl.
  rewrite round_posts. simpl. split; [done|].
  intros id n. rewrite round_comments. simpl.
  case_bool_decide as Hin.
  - destruct (fetchPostComments w id) as [cs|].
    + split; [intros [= <-]; split; [done | by exists cs]|].
      intros (_ & ? & [= <-] & ->). done.
    + rewrite lookup_empty. split; [done | intros (_ & ? & ? & _); done].
  - rewrite lookup_empty. split; [done | intros [? _]; done].
Qed.

Lemma refresh_rebuilds_posts_witness :
  postComments (updateData cache0 sample_world) !! 10 = Some 1
  ∧ postComments (updateData cache0 sample_world) !! 11 = None.
Proof.
  destruct (refresh_rebuilds_posts cache0 sample_world
              {[ "1" := "Ann"; "2" := "Bob" ]}) as [_ H].
  - by vm_compute.
  - by vm_compute.
  - split.
    + apply H. split; [compute_done|].
      eexists. split; [by vm_compute | done].
    + destruct (postComments (updateData cache0 sample_world) !! 11)
        as [n|] eqn:E; [|done].
      apply H in E as (_ & cs & Hcs & _). by vm_compute in Hcs.
Defined.

Lemma updateData_sound (c : Cache) (w : World) :
  sound c -> sound (updateData c w).
Proof.
  intros Hc. unfold updateData.
  destruct (since w (lastUpdated c) <? updateInterval c) eqn:E; [done|].
  destruct (fetchUsers w) as [fetched|] eqn:Hf; [|done].
  intros id n. simpl. rewrite round_comments, round_posts. simpl.
  case_bool_decide as Hin; [|by rewrite lookup_empty].
  destruct (fetchPostComments w id) as [cs|]; [|by rewrite lookup_empty].
  intros [= <-]. split; [unfold len; lia | done].
Qed.

End Refreshing.

Section Answering.
Import Go Aggregator.

Lemma first_five_spec {A} (R : relation A) (s : list A) :
  StronglySorted R s ->
  (length (first_five s) <= 5)%nat
  ∧ first_five s `sublist_of` s
  ∧ StronglySorted R (first_five s)
  ∧ (∀ x, x ∈ s ->
       x ∈ first_five s
       ∨ (length (first_five s) = 5%nat ∧ ∀ r, r ∈ first_five s -> R r x))
  ∧ ((length s <= 5)%nat -> first_five s = s).
Proof.
  intros Hs. unfold first_five, len.
  destruct (5 <? Z.of_nat (length s)) eqn:E.
  - apply Z.ltb_lt in E.
    rewrite <- (take_drop 5 s) in Hs.
    apply StronglySorted_app in Hs as (Hcross & H1 & _).
    split; [rewrite length_take; lia|]. split; [apply sublist_take|].
    split; [done|]. split; [|lia].
    intros x Hx. rewrite <- (take_drop 5 s) in Hx.
    apply elem_of_app in Hx as [Hx|Hx]; [by left|]. right.
    split; [rewrite length_take; lia|]. intros r Hr. by apply Hcross.
  - apply Z.ltb_ge in E.
    split; [lia|]. split; [done|]. split; [done|]. split; [by left | done].
Qed.

Lemma count_rows_fmap (c : Cache) (order : list (string * Z)) :
  count_rows c order = row c <$> order.
Proof.
  unfold count_rows.
  assert (H : ∀ acc,
    foldl (λ rows '(userID, count),
             rows ++ [{| uUserID := userID;
                         Name := default "" (users c !! userID);
                         Count := count |}]) acc order
    = acc ++ (row c <$> order)).
  { induction order as [|[u n] order IH]; intros acc; simpl.
    - by rewrite app_nil_r.
    - rewrite IH. by rewrite <- app_assoc. }
  apply H.
Qed.

(** X21. [getTopUsers] answers 200 with at most five rows, larger
    counts first (the less function it hands to [sort.Slice] is
    [users[i].Count > users[j].Count]), no user twice; each row is a
    user of the refreshed cache with that user's post count and cached
    name, and every user left out has at most as many posts as each of
    the five listed. *)
Theorem top_users_are_top (c : Cache) (w : World) (Hlaw : lawful w) :
  ∃ rows,
    getTopUsers c w
    = (Reply StatusOK (Users (nil_if_empty rows)), updateData c w)
    ∧ (length rows <= 5)%nat
    ∧ StronglySorted by_count rows
    ∧ NoDup (uUserID <$> rows)
    ∧ (∀ r, r ∈ rows ->
         userPostCounts (updateData c w) !! uUserID r = Some (Count r)
         ∧ Name r = default "" (users (updateData c w) !! uUserID r))
    ∧ (∀ u n, userPostCounts (updateData c w) !! u = Some n ->
         (∃ r, r ∈ rows ∧ uUserID r = u)
         ∨ (length rows = 5%nat ∧ ∀ r, r ∈ rows -> n <= Count r)).
Proof.
  unfold getTopUsers. set (c' := updateData c w).
  rewrite count_rows_fmap.
  set (order := range_counts w (userPostCounts c')).
  set (all := row c' <$> order).
  pose proof (range_counts_ok w Hlaw (userPostCounts c')) as Hperm.
  fold order in Hperm.
  set (less := λ users_i users_j : UserPostCount,
                 Count users_i >? Count users_j).
  pose proof (sort_Slice_perm w Hlaw _ less all) as Hsp.
  pose proof (sorted_by_count w all Hlaw) as Hss. fold less in Hss.
  destruct (first_five_spec by_count _ Hss) as (Hlen & Hsub & Hsorted & Htop & _).
  exists (first_five (sort_Slice w less all)).
  split; [done|]. split; [done|]. split; [done|].
  assert (Hin : ∀ r, r ∈ sort_Slice w less all ->
                  ∃ e, r = row c' e ∧ userPostCounts c' !! e.1 = Some e.2).
  { intros r Hr. rewrite Hsp in Hr.
    apply list_elem_of_fmap in Hr as (e & -> & He). exists e. split; [done|].
    rewrite Hperm in He. destruct e. by apply elem_of_map_to_list. }
  split; [|split].
  - eapply sublist_NoDup; [|by apply fmap_sublist].
    rewrite Hsp. unfold all. rewrite <- list_fmap_compose.
    assert (Hfst : (uUserID ∘ row c') <$> order = order.*1)
      by (apply list_fmap_ext; by intros ? [] ?).
    rewrite Hfst.
    rewrite Hperm. apply NoDup_fst_map_to_list.
  - intros r Hr. destruct (Hin r) as (e & -> & He);
      [by eapply elem_of_sublist|]. done.
  - intros u n Hu.
    assert (Hrow : row c' (u, n) ∈ sort_Slice w less all).
    { rewrite Hsp. apply list_elem_of_fmap. exists (u, n). split; [done|].
      rewrite Hperm. by apply elem_of_map_to_list. }
    destruct (Htop _ Hrow) as [Hl|[Hfive Hall]].
    + left. by exists (row c' (u, n)).
    + right. split; [done|]. intros r Hr. apply (Hall r Hr).
Qed.

Lemma top_users_are_top_witness :
  ∃ rows,
    (getTopUsers cache0 sample_world).1
    = Reply StatusOK (Users (nil_if_empty rows))
    ∧ (length rows <= 5)%nat.
Proof.
  destruct (top_users_are_top cache0 sample_world sample_lawful)
    as (rows & H & Hlen & _).
  exists rows. by rewrite H.
Defined.

Lemma max_comments_spec (order : list (Z * Z)) (a : Z) :
  let m := foldl (λ maxComments '(_, count),
                    if maxComments <? count then count else maxComments)
             a order in
  a <= m
  ∧ (∀ id n, (id, n) ∈ order -> n <= m)
  ∧ (m = a ∨ ∃ id, (id, m) ∈ order).
Proof.
  revert a. induction order as [|[id n] order IH]; intros a; simpl.
  - split; [lia|]. split; [|by left]. intros ? ? H. by apply elem_of_nil in H.
  - destruct (IH (if a <? n then n else a)) as (H1 & H2 & H3).
    destruct (a <? n) eqn:E;
      [apply Z.ltb_lt in E | apply Z.ltb_ge in E].
    + split; [lia|]. split.
      * intros id' n' [[= -> ->]|Hin]%elem_of_cons; [done | by eapply H2].
      * right. destruct H3 as [->|[id' Hin]].
        -- exists id. by left.
        -- exists id'. by right.
    + split; [lia|]. split.
      * intros id' n' [[= -> ->]|Hin]%elem_of_cons; [lia | by eapply H2].
      * destruct H3 as [->|[id' Hin]]; [by left|].
        right. exists id'. by right.
Qed.

(** X22. For [type=popular], [getPosts] answers 200 with the posts of
    the refreshed cache that have the most comments, in the order of
    the cache, a post without a count standing at zero: no cached post
    has more comments than the posts listed.  On a cache whose counts
    are those of its posts, the list is empty (and serialised as
    [null]) only when the cache holds no post at all. *)
Theorem popular_posts_have_most_comments
    (c : Cache) (w : World) (Hlaw : lawful w) (Hsound : sound c) :
  ∃ most popular,
    getPosts c w "popular"
    = (Reply StatusOK (Posts (nil_if_empty popular)), updateData c w)
    ∧ popular `sublist_of` posts (updateData c w)
    ∧ (∀ p, p ∈ popular
            ↔ p ∈ posts (updateData c w)
              ∧ comments_of (updateData c w) p = most)
    ∧ (∀ p, p ∈ posts (updateData c w) ->
            comments_of (updateData c w) p <= most)
    ∧ (posts (updateData c w) ≠ [] -> popular ≠ []).
Proof.
  unfold getPosts. simpl.
  pose proof (updateData_sound c w Hsound) as Hs'.
  set (c' := updateData c w) in *.
  set (order := range_comments w (postComments c')).
  pose proof (range_comments_ok w Hlaw (postComments c')) as Hperm.
  fold order in Hperm.
  destruct (max_comments_spec order 0) as (H0 & Hmax & Hatt).
  fold (max_comments order) in H0, Hmax, Hatt.
  set (most := max_comments order) in *.
  assert (Hle : ∀ p, comments_of c' p <= most).
  { intros p. unfold comments_of.
    destruct (postComments c' !! ID p) as [n|] eqn:E; simpl; [|done].
    apply (Hmax (ID p)). rewrite Hperm. by apply elem_of_map_to_list. }
  exists most, (filter (λ p, comments_of c' p = most) (posts c')).
  split; [done|]. split; [apply sublist_filter|].
  split; [intros p; rewrite list_elem_of_filter; tauto|].
  split; [intros p _; apply Hle|].
  intros Hne Hnil.
  destruct Hatt as [Hzero|[id Hid]].
  - destruct (posts c') as [|p ps] eqn:Hp; [done|].
    assert (Hp0 : comments_of c' p = most).
    { pose proof (Hle p) as Hlep. unfold comments_of in *.
      destruct (postComments c' !! ID p) as [n|] eqn:E; simpl in *; [|lia].
      destruct (Hs' _ _ E) as [Hn _]. lia. }
    assert (Hin : p ∈ filter (λ p, comments_of c' p = most) (p :: ps)).
    { apply list_elem_of_filter. split; [done | by left]. }
    rewrite Hnil in Hin. by apply elem_of_nil in Hin.
  - rewrite Hperm in Hid. apply elem_of_map_to_list in Hid.
    destruct (Hs' _ _ Hid) as [_ Hpost].
    apply list_elem_of_fmap in Hpost as (p & -> & Hp).
    assert (Hin : p ∈ filter (λ p, comments_of c' p = most) (posts c')).
    { apply list_elem_of_filter. split; [|done].
      unfold comments_of. by rewrite Hid. }
    rewrite Hnil in Hin. by apply elem_of_nil in Hin.
Qed.

Lemma popular_posts_have_most_comments_witness :
  ∃ most popular,
    (getPosts cache0 sample_world "popular").1
    = Reply StatusOK (Posts (nil_if_empty popular))
    ∧ ∀ p, p ∈ posts (updateData cache0 sample_world) ->
           comments_of (updateData cache0 sample_world) p <= most.
Proof.
  assert (Hsound : sound cache0).
  { intros id n H. simpl in H. by rewrite lookup_empty in H. }
  destruct (popular_posts_have_most_comments cache0 sample_world
              sample_lawful Hsound)
    as (most & popular & H & _ & _ & Hmost & _).
  exists most, popular. by rewrite H.
Defined.

(** X23. For [type=latest], [getPosts] answers 200 with at most five
    posts of the refreshed cache, larger ids first (the less function
    it hands to [sort.Slice] is [posts[i].ID > posts[j].ID]), and every
    post left out has an id no larger than each of the five listed; the
    list is never [null], also when it is empty. *)
Theorem latest_posts_are_latest (c : Cache) (w : World) (Hlaw : lawful w) :
  ∃ latest,
    getPosts c w "latest"
    = (Reply StatusOK (Posts (Some latest)), updateData c w)
    ∧ (length latest <= 5)%nat
    ∧ StronglySorted by_id latest
    ∧ (∀ p, p ∈ latest -> p ∈ posts (updateData c w))
    ∧ (∀ p, p ∈ posts (updateData c w) ->
         p ∈ latest
         ∨ (length latest = 5%nat ∧ ∀ r, r ∈ latest -> ID p <= ID r))
    ∧ ((length (posts (updateData c w)) <= 5)%nat ->
         latest ≡ₚ posts (updateData c w)).
Proof.
  unfold getPosts. simpl. set (c' := updateData c w).
  set (less := λ posts_i posts_j : Post, ID posts_i >? ID posts_j).
  pose proof (sort_Slice_perm w Hlaw _ less (posts c')) as Hsp.
  pose proof (sorted_by_id w (posts c') Hlaw) as Hss. fold less in Hss.
  destruct (first_five_spec by_id _ Hss)
    as (Hlen & Hsub & Hsorted & Htop & Hall).
  exists (first_five (sort_Slice w less (posts c'))).
  split; [done|]. split; [done|]. split; [done|]. split; [|split].
  - intros p Hp. rewrite <- Hsp. by eapply elem_of_sublist.
  - intros p Hp. rewrite <- Hsp in Hp.
    destruct (Htop p Hp) as [?|[? Hr]]; [by left|]. right. split; [done|].
    intros r Hin. apply (Hr r Hin).
  - intros Hfew. rewrite Hall; [done|].
    by rewrite (Permutation_length Hsp).
Qed.

Lemma latest_posts_are_latest_witness :
  ∃ latest,
    (getPosts cache0 sample_world "latest").1
    = Reply StatusOK (Posts (Some latest))
    ∧ (length latest <= 5)%nat.
Proof.
  destruct (latest_posts_are_latest cache0 sample_world sample_lawful)
    as (latest & H & Hlen & _).
  exists latest. by rewrite H.
Defined.

(** X24. [getPosts] refuses every type other than [latest] and
    [popular] with 400 and an error message, before the cache is
    refreshed: the cache is left as it was, whatever the upstream and
    the clock.  With one of the two types the answer is never 400. *)
Theorem getPosts_checks_type (c : Cache) (w : World) (postType : string) :
  (postType ∉ ["latest"; "popular"] ->
     ∃ msg, ∀ w', getPosts c w' postType
                  = (Reply StatusBadRequest (Error msg), c))
  ∧ (status (getPosts c w postType).1 = StatusBadRequest
     ↔ postType ∉ ["latest"; "popular"]).
Proof.
  assert (Hin : postType ∉ ["latest"; "popular"]
                ↔ postType ≠ "latest" ∧ postType ≠ "popular").
  { rewrite !elem_of_cons, elem_of_nil. tauto. }
  rewrite Hin. unfold getPosts.
  destruct (String.eqb_spec postType "latest") as [->|H1]; simpl.
  - split; [by intros [? _]|]. split; [done | by intros [? _]].
  - destruct (String.eqb_spec postType "popular") as [->|H2]; simpl.
    + split; [by intros [_ ?]|]. split; [done | by intros [_ ?]].
    + split; [by eexists | done].
Qed.

Lemma getPosts_checks_type_witness :
  ∃ msg, ∀ w, getPosts cache0 w "oldest"
              = (Reply StatusBadRequest (Error msg), cache0).
Proof.
  refine (proj1 (getPosts_checks_type cache0 sample_world "oldest") _).
  by intros [?|[?|?%elem_of_nil]%elem_of_cons]%elem_of_cons.
Defined.

End Answering.

(** ** The cache stays consistent *)

Section Consistency.
Import Go Aggregator AggregatorRuns.

Lemma counted_insert (m : gmap string Z) (u : string) (n : Z) :
  m !! u = None ->
  Spec.total (map_to_list (<[u := n]> m)).*2
  = n + Spec.total (map_to_list m).*2.
Proof.
  intros Hu.
  rewrite (total_Permutation _ (n :: (map_to_list m).*2)); [done|].
  by rewrite (map_to_list_insert m u n Hu).
Qed.

Lemma round_counted (w : World) (order : list (string * string))
    (r : Refresh) :
  NoDup order.*1 ->
  (∀ u, u ∈ order.*1 -> r_counts r !! u = None) ->
  Spec.total (map_to_list (r_counts r)).*2 = len (r_posts r) ->
  Spec.total (map_to_list (r_counts (foldl (user_round w) r order))).*2
  = len (r_posts (foldl (user_round w) r order)).
Proof.
  revert r. induction order as [|[k v] order IH]; intros r Hnd Hnew Hr;
    [done|].
  change (foldl (user_round w) r ((k, v) :: order))
    with (foldl (user_round w) (user_round w r (k, v)) order).
  rewrite fmap_cons in Hnd, Hnew. cbn [fst] in Hnd, Hnew.
  apply NoDup_cons in Hnd as [Hk Hnd].
  apply IH; [done| |].
  - intros u Hu. rewrite round_counts_step.
    destruct (decide (k = u)) as [->|_]; [done|].
    apply Hnew. by right.
  - unfold user_round. destruct (fetchUserPosts w k) as [ps|]; simpl.
    + rewrite counted_insert by (apply Hnew; by left).
      rewrite Hr. unfold len. rewrite length_app. lia.
    + done.
Qed.

Lemma updateData_consistent (c : Cache) (w : World) :
  lawful w -> consistent c -> consistent (updateData c w).
Proof.
  intros Hlaw Hc.
  destruct (Z_lt_le_dec (since w (lastUpdated c)) (updateInterval c))
    as [Hearly|Hdue].
  { unfold updateData. by rewrite (proj2 (Z.ltb_lt _ _) Hearly). }
  destruct (fetchUsers w) as [fetched|] eqn:Hf.
  2:{ unfold updateData. rewrite Hf.
      by destruct (since w (lastUpdated c) <? updateInterval c). }
  split; [| |apply updateData_sound, Hc].
  - intros u n. rewrite (updateData_refresh c w fetched Hdue Hf). simpl.
    rewrite round_counts, round_users. simpl.
    destruct (range_users_keys w fetched u Hlaw) as (Hnd & Hpair & Hkey).
    case_bool_decide as Hin; [|by rewrite lookup_empty].
    destruct (fetchUserPosts w u) as [ps|]; [|by rewrite lookup_empty].
    intros [= <-]. split; [unfold len; lia|].
    apply Hkey in Hin as [name Hname]. exists name.
    apply (foldl_insert_lookup _ _ u Hnd). by apply Hpair.
  - unfold counted. rewrite (updateData_refresh c w fetched Hdue Hf). simpl.
    destruct (range_users_keys w fetched "" Hlaw) as (Hnd & _).
    by apply round_counted.
Qed.

Lemma refreshes_consistent (c : Cache) (ws : list World) :
  Forall lawful ws -> consistent c -> consistent (refreshes c ws).
Proof.
  unfold refreshes. intros Hws. revert c.
  induction Hws as [|w ws Hw _ IH]; intros c Hc; [done|].
  simpl. by apply IH, updateData_consistent.
Qed.

Lemma cache0_consistent : consistent cache0.
Proof.
  split.
  - intros u n H. simpl in H. by rewrite lookup_empty in H.
  - done.
  - intros id n H. simpl in H. by rewrite lookup_empty in H.
Qed.

Lemma nil_if_empty_Some {A} (s rows : list A) :
  nil_if_empty s = Some rows -> s = rows.
Proof. destruct s; [done|]. by intros [= <-]. Qed.

(** X25. However often the cache has been refreshed since the start of
    the service, by whichever caller and whatever the upstream
    answered: every user with a post count has a name in the cache,
    the counts add up to the number of cached posts, and every comment
    count is that of a cached post.  So a row of [getTopUsers] always
    carries the name the cache holds for the user, never the empty
    string for want of one, and the counts of the rows add up to no
    more than the number of cached posts. *)
Theorem cache_stays_consistent
    (ws : list World) (w : World)
    (Hws : Forall lawful ws) (Hw : lawful w) :
  consistent (refreshes cache0 ws)
  ∧ ∀ rows c',
      getTopUsers (refreshes cache0 ws) w
      = (Reply StatusOK (Users (Some rows)), c') ->
      (∀ r, r ∈ rows -> users c' !! uUserID r = Some (Name r))
      ∧ Spec.total (Count <$> rows) <= len (posts c').
Proof.
  pose proof (refreshes_consistent cache0 ws Hws cache0_consistent) as Hc.
  split; [done|]. intros rows c'. unfold getTopUsers.
  pose proof (updateData_consistent _ w Hw Hc) as Hc'.
  set (c := updateData (refreshes cache0 ws) w) in *.
  intros [= Hrows <-]. apply nil_if_empty_Some in Hrows.
  rewrite count_rows_fmap in Hrows.
  set (order := range_counts w (userPostCounts c)) in *.
  pose proof (range_counts_ok w Hw (userPostCounts c)) as Hperm.
  fold order in Hperm.
  set (less := λ users_i users_j : UserPostCount,
                 Count users_i >? Count users_j) in *.
  pose proof (sort_Slice_perm w Hw _ less (row c <$> order)) as Hsp.
  pose proof (sorted_by_count w (row c <$> order) Hw) as Hss.
  fold less in Hss.
  destruct (first_five_spec by_count _ Hss) as (_ & Hsub & _).
  rewrite Hrows in Hsub. split.
  - intros r Hr. eapply elem_of_sublist in Hr; [|done].
    rewrite Hsp in Hr. apply list_elem_of_fmap in Hr as ([u n] & -> & He).
    rewrite Hperm in He. apply elem_of_map_to_list in He.
    destruct (counts_named c Hc' u n He) as [_ [name Hname]].
    simpl. by rewrite Hname.
  - rewrite <- (counts_posts c Hc'). unfold counted.
    assert (Hall : Count <$> sort_Slice w less (row c <$> order)
                   ≡ₚ (map_to_list (userPostCounts c)).*2).
    { assert (Hsnd : (Count ∘ row c) <$> order = order.*2)
        by (apply list_fmap_ext; by intros ? [] ?).
      by rewrite Hsp, <- list_fmap_compose, Hsnd, Hperm. }
    rewrite <- (total_Permutation _ _ Hall).
    assert (Hpos : Forall (λ n, 0 <= n)
                     (Count <$> sort_Slice w less (row c <$> order))).
    { rewrite Hall. apply Forall_forall. intros n Hn.
      apply list_elem_of_fmap in Hn as ([u n'] & -> & He).
      apply elem_of_map_to_list in He.
      by destruct (counts_named c Hc' u n' He). }
    assert (Hs : (Count <$> rows)
                 `sublist_of` (Count <$> sort_Slice w less (row c <$> order)))
      by (by apply fmap_sublist).
    clear -Hs Hpos. induction Hs as [|x l1 l2 _ IH|x l1 l2 _ IH]; simpl.
    + done.
    + apply Forall_cons in Hpos as [_ Hpos]. specialize (IH Hpos). lia.
    + apply Forall_cons in Hpos as [Hx Hpos]. specialize (IH Hpos). lia.
Qed.

Lemma cache_stays_consistent_witness :
  consistent (refreshes cache0 [sample_world; sample_world]).
Proof.
  refine (proj1 (cache_stays_consistent [sample_world; sample_world]
                   sample_world _ sample_lawful)).
  repeat constructor; apply sample_lawful.
Defined.

End Consistency.
